(** * ProxyLab: the LRU response cache (cache.c) and the connection
      pipeline (proxy.c)

    A shallow embedding of the two C files.  The linked list of
    [web_object_t] is a Rocq list (head first, the [next] pointer is the
    tail), a pointer into the list is the index of the cell together with
    the cell, [int] fields are [Z] and every signed operation is checked
    against the [int] range.  What C leaves undefined (signed overflow, an
    uninitialised pointer, a write through NULL, a write past an array) and
    the one loop that can spin forever are results of their own, [Fault],
    so that "the call returns" is a statement that can be proved.

    The cache is modelled sequentially: each call of [add_to_cache] and
    [serve_cache] runs to completion before the next one starts.  Messages
    printed on stderr are left out. *)

From Stdlib Require Import ZArith Ascii String List Lia DecimalString.
From stdpp Require Import base tactics option numbers strings list.

Open Scope Z_scope.

(** ** Results of C code *)

Inductive fault : Type :=
  | IntOverflow      (* a signed int operation leaves [INT_MIN, INT_MAX] *)
  | UninitVictim     (* cache_eviction uses toEvict[0] before any assignment *)
  | SpinForever      (* while (toEvict[0]->referenceCnt != 0); never exits *)
  | NullDeref        (* memcpy or strcpy handed the NULL result of malloc *)
  | BufferOverflow   (* a write past the end of a char array *)
  | Unterminated     (* a string function runs off an array with no NUL *)
  | OutOfFuel.       (* artefact of the bounded loop; shown unreachable *)

Inductive result (A : Type) : Type :=
  | Done (a : A)
  | Fault (f : fault).
Arguments Done {A} a.
Arguments Fault {A} f.

#[global] Instance result_ret : MRet result := fun A a => Done a.
#[global] Instance result_bind : MBind result :=
  fun A B k m => match m with Done a => k a | Fault f => Fault f end.

Definition INT_MAX : Z := 2147483647.
Definition INT_MIN : Z := -2147483648.

(** The value of a signed int expression: the mathematical value when it
    is representable, undefined otherwise. *)
Definition int_op (z : Z) : result Z :=
  if (INT_MIN <=? z) && (z <=? INT_MAX) then Done z else Fault IntOverflow.

(** A [char *] into a buffer: the bytes at each offset. *)
Definition array : Type := nat -> ascii.

(** The first [n] bytes behind a pointer. *)
Definition load (a : array) (n : nat) : list ascii := a <$> seq 0 n.

(** The array after [bs] has been written at offset [off]. *)
Definition store (a : array) (off : nat) (bs : list ascii) : array :=
  fun i =>
    if (off <=? i)%nat && (i <? off + length bs)%nat
    then nth (i - off) bs zero
    else a i.

(** ** cache.c *)

Module Cache.

Definition MAX_CACHE_SIZE : Z := 1024 * 1024.
Definition MAX_OBJECT_SIZE : Z := 100 * 1024.

(** A URL key is a C string: its characters, the terminating NUL left
    implicit. *)
Record web_object_t : Type := {
  urlKey : string;
  object : list ascii;
  objSize : Z;
  tStamp : Z;
  referenceCnt : Z
}.

Record web_cache_t : Type := {
  start : list web_object_t;
  size : Z;
  LRU : Z
}.

(** [init_web_cache] *)
Definition init_web_cache : web_cache_t :=
  {| start := []; size := 0; LRU := 0 |}.

Definition strlen (s : string) : nat := String.length s.

(** [strncmp (a, b, n) == 0] *)
Fixpoint strncmp_eq (a b : string) (n : nat) : bool :=
  match n with
  | O => true
  | S n' =>
      match a, b with
      | EmptyString, EmptyString => true
      | String x a', String y b' =>
          if Ascii.eqb x y then strncmp_eq a' b' n' else false
      | _, _ => false
      end
  end.

(** The test of the loop of [get_obj_with_key]. *)
Definition key_matches (key : string) (o : web_object_t) : bool :=
  (strlen key =? strlen (urlKey o))%nat
  && strncmp_eq (urlKey o) key (strlen key).

(** [get_obj_with_key]: the first cell whose key matches, as its position
    and contents; [None] is the NULL result. *)
Fixpoint get_obj_from (key : string) (objs : list web_object_t) (i : nat)
  : option (nat * web_object_t) :=
  match objs with
  | [] => None
  | o :: rest =>
      if key_matches key o then Some (i, o)
      else get_obj_from key rest (S i)
  end.

Definition get_obj_with_key (key : string) (c : web_cache_t)
  : option (nat * web_object_t) :=
  get_obj_from key (start c) 0.

(** The inner loop of [cache_eviction].  [toEvict] is [None] until the
    first assignment; its second component, the predecessor, is the
    position before. *)
Fixpoint scan_min (objs : list web_object_t) (i : nat) (minStamp : Z)
    (toEvict : option (nat * web_object_t)) : option (nat * web_object_t) :=
  match objs with
  | [] => toEvict
  | currObj :: rest =>
      if tStamp currObj <? minStamp
      then scan_min rest (S i) (tStamp currObj) (Some (i, currObj))
      else scan_min rest (S i) minStamp toEvict
  end.

(** One round of the outer loop of [cache_eviction]: unlink the victim,
    give its bytes back, drop the list's reference, wait for the count to
    reach zero, free. *)
Definition evict_one (c : web_cache_t) : result web_cache_t :=
  match scan_min (start c) 0 INT_MAX None with
  | None => Fault UninitVictim
  | Some (i, victim) =>
      sz ← int_op (size c - objSize victim);
      rc ← int_op (referenceCnt victim - 1);
      if rc =? 0
      then Done {| start := delete i (start c); size := sz; LRU := LRU c |}
      else Fault SpinForever
  end.

Fixpoint cache_eviction_loop (fuel : nat) (sz : Z) (c : web_cache_t)
  : result web_cache_t :=
  tot ← int_op (size c + sz);
  if MAX_CACHE_SIZE <? tot then
    match fuel with
    | O => Fault OutOfFuel
    | S fuel' => c' ← evict_one c; cache_eviction_loop fuel' sz c'
    end
  else Done c.

(** [cache_eviction]: every round unlinks one cell, so one round more than
    there are cells is enough. *)
Definition cache_eviction (sz : Z) (c : web_cache_t) : result web_cache_t :=
  cache_eviction_loop (S (length (start c))) sz c.

Definition insert_into_cache (webObj : web_object_t) (c : web_cache_t)
  : result web_cache_t :=
  match start c with
  | [] => Done {| start := [webObj]; size := size c; LRU := LRU c |}
  | _ :: _ =>
      tot ← int_op (size c + objSize webObj);
      c1 ← (if MAX_CACHE_SIZE <=? tot
            then cache_eviction (objSize webObj) c
            else Done c);
      Done {| start := webObj :: start c1; size := size c1; LRU := LRU c1 |}
  end.

(** Which of the three calls of malloc in [add_to_cache] succeed. *)
Record mallocs : Type := {
  malloc_obj : bool;
  malloc_buf : bool;
  malloc_key : bool
}.

Definition mallocs_ok : mallocs :=
  {| malloc_obj := true; malloc_buf := true; malloc_key := true |}.

(** [add_to_cache].  The result of the second and of the third malloc is
    handed to memcpy, respectively strcpy, before it is compared with
    NULL. *)
Definition add_to_cache (cache_key : string) (cacheBuf : array) (sz : Z)
    (m : mallocs) (c : web_cache_t) : result (bool * web_cache_t) :=
  match get_obj_with_key cache_key c with
  | Some _ => Done (false, c)
  | None =>
      if negb (malloc_obj m) then Done (true, c)
      else if negb (malloc_buf m) then Fault NullDeref
      else if negb (malloc_key m) then Fault NullDeref
      else
        let webObj :=
          {| urlKey := cache_key;
             object := load cacheBuf (Z.to_nat sz);
             objSize := sz;
             tStamp := LRU c;
             referenceCnt := 1 |} in
        c1 ← insert_into_cache webObj c;
        sz' ← int_op (size c1 + sz);
        Done (false, {| start := start c1; size := sz'; LRU := LRU c1 |})
  end.

(** The part of [serve_cache] under the lock: advance the counter, look
    the key up and, on a hit, stamp the cell and take a reference. *)
Definition serve_cache_locked (cache_key : string) (c : web_cache_t)
  : result (option (nat * web_object_t) * web_cache_t) :=
  lru ← int_op (LRU c + 1);
  match get_obj_with_key cache_key c with
  | Some (i, o) =>
      rc ← int_op (referenceCnt o + 1);
      let cacheObj :=
        {| urlKey := urlKey o; object := object o; objSize := objSize o;
           tStamp := lru; referenceCnt := rc |} in
      Done (Some (i, cacheObj),
            {| start := <[i := cacheObj]> (start c); size := size c;
               LRU := lru |})
  | None => Done (None, {| start := start c; size := size c; LRU := lru |})
  end.

(** [serve_cache]: the result, the bytes handed to rio_writen and the
    cache after the reference has been given back. *)
Definition serve_cache (cache_key : string) (c : web_cache_t)
  : result (bool * list ascii * web_cache_t) :=
  '(hit, c1) ← serve_cache_locked cache_key c;
  match hit with
  | Some (i, cacheObj) =>
      let written := take (Z.to_nat (objSize cacheObj)) (object cacheObj) in
      rc ← int_op (referenceCnt cacheObj - 1);
      let released :=
        {| urlKey := urlKey cacheObj; object := object cacheObj;
           objSize := objSize cacheObj; tStamp := tStamp cacheObj;
           referenceCnt := rc |} in
      Done (true, written,
            {| start := <[i := released]> (start c1); size := size c1;
               LRU := LRU c1 |})
  | None => Done (false, [], c1)
  end.

(** A caller of the cache: admissions and lookups, one after the other. *)
Inductive op : Type :=
  | Admit (cache_key : string) (cacheBuf : array) (sz : Z) (m : mallocs)
  | Lookup (cache_key : string).

Definition step (o : op) (c : web_cache_t) : result web_cache_t :=
  match o with
  | Admit k b sz m => '(_, c') ← add_to_cache k b sz m c; Done c'
  | Lookup k => '(_, _, c') ← serve_cache k c; Done c'
  end.

Fixpoint run (ops : list op) (c : web_cache_t) : result web_cache_t :=
  match ops with
  | [] => Done c
  | o :: rest => c' ← step o c; run rest c'
  end.

(** The sum of the sizes of the resident entries. *)
Definition resident_bytes (c : web_cache_t) : Z :=
  foldr (fun o acc => objSize o + acc) 0 (start c).

Definition resident_keys (c : web_cache_t) : list string :=
  urlKey <$> start c.

End Cache.

(** ** proxy.c *)

Module Proxy.

(** Modelled from the spec: the type of the result of
    [parser_parse_line], declared in http_parser.h, which is not among the
    sources; section 6 of the spec has the parser return one of REQUEST,
    HEADER, ERROR and OTHER. *)
Inductive parser_state : Type := REQUEST | HEADER | ERROR | OTHER.

(** One line read by [rio_readlineb] after the request line, with what the
    parser makes of it: the state [parser_parse_line] returns and the name
    of the header [parser_retrieve_next_header] returns ([None] for
    NULL). *)
Record header_line : Type := {
  hl_line : string;
  hl_state : parser_state;
  hl_name : option string
}.

(** What the world outside proxy.c answers on one connection: the results
    of the calls into the rio package, the parser, the socket helpers and
    malloc, and the first contents of the two arrays on the stack of
    [threadRoutine]. *)
Record connection : Type := {
  (* read_requestline *)
  cl_reqline : option string;       (* the line; None: rio_readlineb <= 0 *)
  cl_reqstate : parser_state;       (* parser_parse_line on it *)
  cl_scan : option (string * string * ascii);
                                    (* method, uri, version: sscanf gave 3 *)
  cl_path : option string;          (* parser_retrieve (pars, PATH, _) *)
  (* read_request *)
  cl_headers : list header_line;    (* the lines that follow; after the
                                       last one rio_readlineb gives <= 0 *)
  cl_host_header : bool;            (* parser_lookup_header (pars, "Host") *)
  cl_host0 : option string;         (* parser_retrieve (pars, HOST, _) *)
  cl_port0 : option string;         (* parser_retrieve (pars, PORT, _) *)
  (* threadRoutine *)
  cl_port : option string;
  cl_host : option string;
  cl_uri : option string;
  connfd : Z;                       (* the descriptor of the client *)
  cl_write_ok : nat -> bool;        (* the k-th rio_writen on connfd: >= 0 *)
  clientfd : Z;                     (* the result of open_clientfd *)
  or_write_ok : bool;               (* rio_writen on clientfd: >= 0 *)
  or_chunks : list (list ascii);    (* what the calls of rio_readnb deliver;
                                       after the last one it gives <= 0 *)
  mem_buffer : array;               (* char buffer[MAXBUF] *)
  mem_cacheBuf : array;             (* char cacheBuf[MAX_OBJECT_SIZE] *)
  mem_mallocs : Cache.mallocs
}.

(** What a run of [threadRoutine] does to the outside, in order. *)
Inductive event : Type :=
  | ClientWrite (bytes : list ascii)           (* rio_writen (connfd, ..) *)
  | CacheLookup (uri : string)                 (* serve_cache (connfd, ..) *)
  | OriginOpen (host port : string)            (* open_clientfd *)
  | OriginWrite (bytes : list ascii)           (* rio_writen (clientfd, ..) *)
  | CacheAdmit (uri : string) (cacheBuf : array) (sz : Z)   (* add_to_cache *)
  | Close (fd : Z).                            (* close *)

Record world : Type := {
  cache : Cache.web_cache_t;
  trace : list event
}.

(** Code that acts on the cache and on the sockets, and may go wrong. *)
Definition io (A : Type) : Type := world -> result (A * world).

#[global] Instance io_ret : MRet io := fun A a w => Done (a, w).
#[global] Instance io_bind : MBind io :=
  fun A B k m w =>
    match m w with
    | Done (a, w') => k a w'
    | Fault f => Fault f
    end.

Definition lift {A : Type} (r : result A) : io A :=
  fun w => match r with Done a => Done (a, w) | Fault f => Fault f end.

Definition emit (e : event) : io unit :=
  fun w => Done (tt, {| cache := cache w; trace := trace w ++ [e] |}).

Definition is_client_write (e : event) : bool :=
  match e with ClientWrite _ => true | _ => false end.

Definition client_writes (tr : list event) : nat :=
  length (filter (fun e => is_client_write e = true) tr).

Definition NUL : ascii := zero.
Definition crlf : string := String "013" (String "010" EmptyString).
Definition dquote : string := String "034" EmptyString.

Definition header_user_agent : string :=
  "Mozilla/5.0 (X11; Linux x86_64; rv:3.10.0) Gecko/20210731 Firefox/63.0.1".

(** [%zu] *)
Definition decimal (n : nat) : string :=
  NilEmpty.string_of_uint (Nat.to_uint n).

(** The position of the first NUL among the first [cap] bytes. *)
Fixpoint strlen_from (a : array) (i fuel : nat) : option nat :=
  match fuel with
  | O => None
  | S fuel' =>
      if Ascii.eqb (a i) NUL then Some i else strlen_from a (S i) fuel'
  end.

Definition strlen (cap : nat) (a : array) : result nat :=
  match strlen_from a 0 cap with
  | Some n => Done n
  | None => Fault Unterminated
  end.

(** Write the characters [bs] and a NUL at offset [off] of an array of
    [cap] bytes. *)
Definition put_cstr (cap : nat) (a : array) (off : nat) (bs : list ascii)
  : result array :=
  if (off + length bs + 1 <=? cap)%nat
  then Done (store a off (bs ++ [NUL]))
  else Fault BufferOverflow.

(** [strncat (dst, src, n)], [dst] an array of [cap] bytes. *)
Definition strncat (cap : nat) (dst : array) (src : string) (n : nat)
  : result array :=
  l ← strlen cap dst;
  put_cstr cap dst l (take n (list_ascii_of_string src)).

(** [snprintf (dst, n, ..)] where the format expands to [s]: the number
    of characters of [s] is returned, at most [n - 1] of them are
    written. *)
Definition snprintf (cap : nat) (dst : array) (n : nat) (s : string)
  : result (Z * array) :=
  len ← int_op (Z.of_nat (String.length s));
  match n with
  | O => Done (len, dst)
  | S n' =>
      dst' ← put_cstr cap dst 0 (take n' (list_ascii_of_string s));
      Done (len, dst')
  end.

Definition error_body (errnum shortmsg longmsg : string) : string :=
  "<!DOCTYPE html>" +:+ crlf +:+
  "<html>" +:+ crlf +:+
  "<head><title>Server Error</title></head>" +:+ crlf +:+
  "<body bgcolor=" +:+ dquote +:+ "ffffff" +:+ dquote +:+ ">" +:+ crlf +:+
  "<h1>" +:+ errnum +:+ ": " +:+ shortmsg +:+ "</h1>" +:+ crlf +:+
  "<p>" +:+ longmsg +:+ "</p>" +:+ crlf +:+
  "</body></html>" +:+ crlf.

Definition error_headers (errnum shortmsg : string) (bodylen : nat)
  : string :=
  "HTTP/1.0 " +:+ errnum +:+ " " +:+ shortmsg +:+ crlf +:+
  "Content-Type: text/html" +:+ crlf +:+
  "Content-Length: " +:+ decimal bodylen +:+ crlf +:+ crlf.

Arguments error_body : simpl never.
Arguments error_headers : simpl never.

Section Pipeline.

(** MAXLINE and MAXBUF come from csapp.h. *)
Variables MAXLINE MAXBUF : nat.
Variable conn : connection.

Definition rio_writen_client (bytes : list ascii) : io bool :=
  fun w =>
    Done (cl_write_ok conn (client_writes (trace w)),
          {| cache := cache w; trace := trace w ++ [ClientWrite bytes] |}).

Definition clienterror (errnum shortmsg longmsg : string) : io unit :=
  let body := error_body errnum shortmsg longmsg in
  let bodylen := String.length body in
  if (MAXBUF <=? bodylen)%nat then mret tt
  else
    let buf := error_headers errnum shortmsg bodylen in
    if (MAXLINE <=? String.length buf)%nat then mret tt
    else
      ok ← rio_writen_client (list_ascii_of_string buf);
      if negb ok then mret tt
      else
        _ ← rio_writen_client (list_ascii_of_string body);
        mret tt.

(** [read_requestline]: the int it returns and [buffer] afterwards. *)
Definition read_requestline (buffer : array) : io (Z * array) :=
  match cl_reqline conn with
  | None => mret (-1, buffer)
  | Some line =>
      if (String.length line =? 0)%nat then mret (-1, buffer)
      else
        buffer ← lift (put_cstr MAXBUF buffer 0 (list_ascii_of_string line));
        match cl_reqstate conn with
        | REQUEST =>
            match cl_scan conn with
            | None => mret (-1, buffer)
            | Some (method, uri, version) =>
                if negb (Ascii.eqb version "0") && negb (Ascii.eqb version "1")
                then mret (-1, buffer)
                else if negb (String.eqb method "GET") then
                  _ ← clienterror "501" "Not Implemented"
                        "Server couldn't find this file";
                  mret (-1, buffer)
                else
                  match cl_path conn with
                  | None => mret (-1, buffer)
                  | Some mPath =>
                      lift (snprintf MAXBUF buffer MAXLINE
                              (method +:+ " " +:+ mPath +:+ " HTTP/1.0" +:+ crlf))
                  end
            end
        | _ => mret (-1, buffer)
        end
  end.

(** A string written into [char buf[MAXLINE]], by sprintf or by
    rio_readlineb, and read back. *)
Definition into_buf (s : string) : result string :=
  if (String.length s + 1 <=? MAXLINE)%nat then Done s
  else Fault BufferOverflow.

(** The end of the headers in [read_request]: the four headers of the
    proxy. *)
Definition finish_request (fBuf : array) : io (bool * array) :=
  let rest (fBuf : array) : io (bool * array) :=
    buf ← lift (into_buf ("User-Agent: " +:+ header_user_agent +:+ crlf));
    fBuf ← lift (strncat MAXBUF fBuf buf MAXLINE);
    fBuf ← lift (strncat MAXBUF fBuf ("Connection: close" +:+ crlf) MAXLINE);
    fBuf ← lift (strncat MAXBUF fBuf ("Proxy-Connection: close" +:+ crlf)
                   MAXLINE);
    fBuf ← lift (strncat MAXBUF fBuf crlf MAXLINE);
    mret (false, fBuf) in
  if cl_host_header conn then rest fBuf
  else
    match cl_host0 conn with
    | None => mret (true, fBuf)
    | Some mHost =>
        match cl_port0 conn with
        | None => mret (true, fBuf)
        | Some mPort =>
            buf ← lift (into_buf
                          ("Host: " +:+ mHost +:+ ":" +:+ mPort +:+ crlf));
            fBuf ← lift (strncat MAXBUF fBuf buf MAXLINE);
            rest fBuf
        end
    end.

Definition forwarded_header (name : string) : bool :=
  negb (String.eqb name "Proxy-Connection")
  && negb (String.eqb name "Connection")
  && negb (String.eqb name "User-Agent").

(** The loop of [read_request] over the lines after the request line. *)
Fixpoint read_headers (lines : list header_line) (fBuf : array)
  : io (bool * array) :=
  match lines with
  | [] => mret (true, fBuf)
  | l :: rest =>
      let n := String.length (hl_line l) in
      if (n =? 0)%nat then mret (true, fBuf)
      else
        buf ← lift (into_buf (hl_line l));
        if String.eqb buf crlf then finish_request fBuf
        else
          match hl_state l with
          | ERROR | REQUEST => mret (true, fBuf)
          | HEADER =>
              match hl_name l with
              | Some name =>
                  if forwarded_header name then
                    fBuf ← lift (strncat MAXBUF fBuf buf n);
                    read_headers rest fBuf
                  else read_headers rest fBuf
              | None => read_headers rest fBuf
              end
          | OTHER => read_headers rest fBuf
          end
  end.

(** [read_request]: true when the request is refused. *)
Definition read_request (fBuf : array) : io (bool * array) :=
  '(n, fBuf) ← read_requestline fBuf;
  if n <=? 0 then mret (true, fBuf)
  else read_headers (cl_headers conn) fBuf.

Definition serve_cache (uri : string) : io bool :=
  fun w =>
    '(hit, written, c') ← Cache.serve_cache uri (cache w);
    Done (hit,
          {| cache := c';
             trace := trace w ++ CacheLookup uri ::
                        (if hit : bool then [ClientWrite written] else []) |}).

Definition add_to_cache (uri : string) (cacheBuf : array) (sz : Z)
  : io bool :=
  fun w =>
    '(r, c') ← Cache.add_to_cache uri cacheBuf sz (mem_mallocs conn) (cache w);
    Done (r, {| cache := c';
                trace := trace w ++ [CacheAdmit uri cacheBuf sz] |}).

Definition open_clientfd (host port : string) : io Z :=
  _ ← emit (OriginOpen host port); mret (clientfd conn).

Definition rio_writen_origin (bytes : list ascii) : io bool :=
  _ ← emit (OriginWrite bytes); mret (or_write_ok conn).

Definition cleanup (fd fd2 : Z) : io unit :=
  _ ← (if fd2 =? -1 then mret tt else emit (Close fd2));
  if fd =? -1 then mret tt else emit (Close fd).

(** The loop of [threadRoutine] that hands the response to the client:
    [cacheBuf], [totalBytesR] and [is_cacheable] when it ends. *)
Fixpoint relay (chunks : list (list ascii)) (cacheBuf : array)
    (totalBytesR : Z) (is_cacheable : bool) (iter : Z)
  : io (array * Z * bool) :=
  match chunks with
  | [] => mret (cacheBuf, totalBytesR, is_cacheable)
  | chunk :: rest =>
      let bytesR := Z.of_nat (length chunk) in
      if bytesR <=? 0 then mret (cacheBuf, totalBytesR, is_cacheable)
      else if Cache.MAX_OBJECT_SIZE <? bytesR
      then lift (Fault BufferOverflow)
      else
        let cacheBuf := store cacheBuf 0 chunk in
        _ ← rio_writen_client (load cacheBuf (Z.to_nat bytesR));
        totalBytesR ← lift (int_op (totalBytesR + bytesR));
        let is_cacheable :=
          if Cache.MAX_OBJECT_SIZE <? totalBytesR then false
          else is_cacheable in
        iter ← lift (int_op (iter + 1));
        relay rest cacheBuf totalBytesR is_cacheable iter
  end.

Definition bad_request : io unit :=
  clienterror "400" "Bad Request" "Received a malformed request".

(** [threadRoutine] once the origin is connected. *)
Definition fetch (mURI : string) (buffer : array) (fd : Z) : io unit :=
  sent ← rio_writen_origin (load buffer MAXBUF);
  if negb sent then
    _ ← clienterror "500" "Server Error" "Cannot write to server";
    cleanup (connfd conn) fd
  else
    '(cacheBuf, totalBytesR, is_cacheable) ←
       relay (or_chunks conn) (mem_cacheBuf conn) 0 true 0;
    _ ← (if is_cacheable : bool
         then _ ← add_to_cache mURI cacheBuf totalBytesR; mret tt
         else mret tt);
    cleanup (connfd conn) fd.

Definition threadRoutine : io unit :=
  '(refused, buffer) ← read_request (mem_buffer conn);
  if refused : bool then _ ← bad_request; cleanup (connfd conn) (-1)
  else
    match cl_port conn, cl_host conn, cl_uri conn with
    | Some mPort, Some mHost, Some mURI =>
        served ← serve_cache mURI;
        if served : bool then cleanup (connfd conn) (-1)
        else
          fd ← open_clientfd mHost mPort;
          if fd <? 0 then cleanup (connfd conn) fd
          else fetch mURI buffer fd
    | _, _, _ => _ ← bad_request; cleanup (connfd conn) (-1)
    end.

End Pipeline.

Definition run (MAXLINE MAXBUF : nat) (conn : connection)
    (c : Cache.web_cache_t) : result (Cache.web_cache_t * list event) :=
  '(_, w) ← threadRoutine MAXLINE MAXBUF conn {| cache := c; trace := [] |};
  Done (cache w, trace w).

End Proxy.

(** * Vocabulary of the statements *)

Section Vocabulary.
Import Cache.

Definition sum_sizes (objs : list web_object_t) : Z :=
  foldr (fun o acc => objSize o + acc) 0 objs.

(** The byte budget: [size] is the sum of the sizes of the resident
    entries and does not exceed MAX_CACHE_SIZE. *)
Definition budget (c : web_cache_t) : Prop :=
  size c = resident_bytes c /\ size c <= MAX_CACHE_SIZE.

(** A resident cell between two calls: the list holds the only reference,
    and the stamp is a value the counter has had. *)
Definition settled (lru : Z) (o : web_object_t) : Prop :=
  0 <= objSize o /\ referenceCnt o = 1 /\ 0 <= tStamp o <= lru.

(** The cache between two calls. *)
Definition sound (c : web_cache_t) : Prop :=
  budget c /\ 0 <= LRU c /\ Forall (settled (LRU c)) (start c).

(** The cell [o] with another stamp. *)
Definition stamped (o : web_object_t) (t : Z) : web_object_t :=
  {| urlKey := urlKey o; object := object o; objSize := objSize o;
     tStamp := t; referenceCnt := referenceCnt o |}.

(** The cell [o] with one more reference. *)
Definition held (o : web_object_t) : web_object_t :=
  {| urlKey := urlKey o; object := object o; objSize := objSize o;
     tStamp := tStamp o; referenceCnt := referenceCnt o + 1 |}.

(** The cell that [add_to_cache] builds. *)
Definition new_object (key : string) (buf : array) (sz lru : Z)
  : web_object_t :=
  {| urlKey := key; object := load buf (Z.to_nat sz); objSize := sz;
     tStamp := lru; referenceCnt := 1 |}.

Definition admit_size_ok (o : op) : Prop :=
  match o with
  | Admit _ _ sz _ => 0 < sz <= MAX_OBJECT_SIZE
  | Lookup _ => True
  end.

(** No malloc of the admission returns NULL after the first one has
    succeeded. *)
Definition mallocs_safe (m : mallocs) : Prop :=
  malloc_obj m = true -> malloc_buf m = true /\ malloc_key m = true.

Definition admit_safe (o : op) : Prop :=
  match o with
  | Admit _ _ _ m => mallocs_safe m
  | Lookup _ => True
  end.

Definition is_lookup (o : op) : bool :=
  match o with Lookup _ => true | Admit _ _ _ _ => false end.

(** The number of lookups of a sequence of calls. *)
Definition lookups (ops : list op) : Z :=
  Z.of_nat (length (filter (fun o => is_lookup o = true) ops)).

(** The admissions of [keys], in order, each of [sz] bytes of [buf]. *)
Definition admissions (buf : array) (sz : Z) (keys : list string) : list op :=
  (fun k => Admit k buf sz mallocs_ok) <$> keys.

(** The same admissions, each one after the lookup of its key, the way
    [threadRoutine] makes them. *)
Fixpoint fetches (buf : array) (sz : Z) (keys : list string) : list op :=
  match keys with
  | [] => []
  | k :: rest => Lookup k :: Admit k buf sz mallocs_ok :: fetches buf sz rest
  end.

(** The cells that [fetches] builds, the most recent one first; [q] lists
    the keys the same way. *)
Fixpoint recent (buf : array) (sz : Z) (q : list string)
  : list web_object_t :=
  match q with
  | [] => []
  | k :: rest =>
      new_object k buf sz (Z.of_nat (S (length rest))) :: recent buf sz rest
  end.

(** How many objects of [sz] bytes the cache holds. *)
Definition capacity (sz : Z) : nat := Z.to_nat (MAX_CACHE_SIZE / sz).

(** The cache that holds the [n] most recent cells of [recent]. *)
Definition holding (buf : array) (sz : Z) (n : nat) (lru : Z)
    (q : list string) : web_cache_t :=
  {| start := take n (recent buf sz q);
     size := sz * Z.of_nat (length (take n (recent buf sz q)));
     LRU := lru |}.

(** C3 as the claim has it: after admissions of one size that exceed the
    budget together, the resident keys are a suffix of the admitted
    ones. *)
Definition admissions_keep_suffix : Prop :=
  forall buf sz keys c,
    NoDup keys -> 0 < sz <= MAX_OBJECT_SIZE ->
    MAX_CACHE_SIZE < Z.of_nat (length keys) * sz ->
    run (admissions buf sz keys) init_web_cache = Done c ->
    exists n : nat, resident_keys c ≡ₚ drop n keys.

(** C8 as the claim has it, for an admission: the call that inserts an
    entry advances the counter by one and stamps the entry with the new
    value. *)
Definition admission_advances_clock : Prop :=
  forall key buf sz m c c' o kept,
    add_to_cache key buf sz m c = Done (false, c') ->
    start c' = o :: kept -> urlKey o = key -> key ∉ resident_keys c ->
    LRU c' = LRU c + 1 /\ tStamp o = LRU c'.

(** A resident entry as an admission made it: its size is an admissible
    one and its body has that many bytes. *)
Definition entry_ok (o : web_object_t) : Prop :=
  0 < objSize o <= MAX_OBJECT_SIZE /\
  length (object o) = Z.to_nat (objSize o).

(** Two cells with the same key, bytes and size. *)
Definition same_payload (o o' : web_object_t) : Prop :=
  urlKey o' = urlKey o /\ object o' = object o /\ objSize o' = objSize o.

End Vocabulary.

Section PipelineVocabulary.
Import Proxy.

(** What [clienterror] writes when [k] writes to the client came before
    it: the status line and the headers and, unless that write fails, the
    body. *)
Definition error_response (conn : connection) (k : nat)
    (errnum shortmsg longmsg : string) : list event :=
  let body := error_body errnum shortmsg longmsg in
  ClientWrite
    (list_ascii_of_string
       (error_headers errnum shortmsg (String.length body)))
  :: (if cl_write_ok conn k
      then [ClientWrite (list_ascii_of_string body)] else []).

Definition response_501 (conn : connection) (k : nat) : list event :=
  error_response conn k "501" "Not Implemented"
    "Server couldn't find this file".

Definition response_400 (conn : connection) (k : nat) : list event :=
  error_response conn k "400" "Bad Request" "Received a malformed request".

(** What [cleanup] closes. *)
Definition closes (fd fd2 : Z) : list event :=
  (if fd2 =? -1 then [] else [Close fd2])
  ++ (if fd =? -1 then [] else [Close fd]).

Definition is_origin_open (e : event) : bool :=
  match e with OriginOpen _ _ => true | _ => false end.

(** The two arrays are large enough for the error pages of the proxy. *)
Definition roomy (MAXLINE MAXBUF : nat) : Prop :=
  (256 <= MAXLINE)%nat /\ (256 <= MAXBUF)%nat.

(** A request line with a method: the line is read and fits the buffer,
    the parser takes it for a request line, sscanf finds the method, the
    URI and a version 1.0 or 1.1. *)
Definition request_with_method (MAXBUF : nat) (conn : connection)
    (method : string) : Prop :=
  exists line uri version,
    cl_reqline conn = Some line /\
    (0 < String.length line < MAXBUF)%nat /\
    cl_reqstate conn = REQUEST /\
    cl_scan conn = Some (method, uri, version) /\
    (version = "0"%char \/ version = "1"%char).


(** The array after the chunks have been read into it, one after the
    other, each from offset 0. *)
Definition overlaid (cacheBuf : array) (chunks : list (list ascii)) : array :=
  foldl (fun b ch => store b 0 ch) cacheBuf chunks.

(** A connection on which everything outside proxy.c goes well: the
    request line [line] with what sscanf and the parser find in it, no
    header before the empty line, and an origin that delivers
    [chunks]. *)
Definition sample_connection (line method uri path host port : string)
    (chunks : list (list ascii)) : connection :=
  {| cl_reqline := Some line;
     cl_reqstate := REQUEST;
     cl_scan := Some (method, uri, "1"%char);
     cl_path := Some path;
     cl_headers := [ {| hl_line := crlf; hl_state := OTHER;
                        hl_name := None |} ];
     cl_host_header := false;
     cl_host0 := Some host;
     cl_port0 := Some port;
     cl_port := Some port;
     cl_host := Some host;
     cl_uri := Some uri;
     connfd := 4;
     cl_write_ok := fun _ => true;
     clientfd := 5;
     or_write_ok := true;
     or_chunks := chunks;
     mem_buffer := fun _ => "#"%char;
     mem_cacheBuf := fun _ => "#"%char;
     mem_mallocs := Cache.mallocs_ok |}.

(** [GET http://h:80/x HTTP/1.1], answered by [chunks]. *)
Definition get_x (chunks : list (list ascii)) : connection :=
  sample_connection ("GET http://h:80/x HTTP/1.1" +:+ crlf)
    "GET" "http://h:80/x" "/x" "h" "80" chunks.

(** [POST http://h:80/x HTTP/1.1] *)
Definition post_x : connection :=
  sample_connection ("POST http://h:80/x HTTP/1.1" +:+ crlf)
    "POST" "http://h:80/x" "/x" "h" "80" [].

(** MAXLINE and MAXBUF as csapp.h has them. *)
Definition MAXLINE_csapp : nat := Z.to_nat 8192.
Definition MAXBUF_csapp : nat := Z.to_nat 8192.

(** The events of [m] are all in [P]: whenever [m] returns, what it has
    added to the trace satisfies [P]. *)
Definition only {A : Type} (P : event -> Prop) (m : io A) : Prop :=
  forall w a w',
    m w = Done (a, w') ->
    exists evs, trace w' = trace w ++ evs /\ Forall P evs.

(** What every run of [threadRoutine] keeps to: a write to the origin
    has MAXBUF bytes, and an admission is the one of the URI, of the
    array the chunks were read into and of their number of bytes, which
    is MAX_OBJECT_SIZE at most. *)
Definition event_ok (MAXBUF : nat) (conn : connection) (ev : event) : Prop :=
  match ev with
  | OriginWrite bytes => length bytes = MAXBUF
  | CacheAdmit uri cacheBuf sz =>
      cl_uri conn = Some uri /\
      exists received,
        received `prefix_of` or_chunks conn /\
        (Forall (fun ch => (0 < length ch)%nat) (or_chunks conn) ->
         received = or_chunks conn) /\
        cacheBuf = overlaid (mem_cacheBuf conn) received /\
        sz = Z.of_nat (length (concat received)) /\
        sz <= Cache.MAX_OBJECT_SIZE
  | _ => True
  end.

Definition is_admit (ev : event) : bool :=
  match ev with CacheAdmit _ _ _ => true | _ => false end.

(** The admissions among the events. *)
Definition admissions_of (evs : list event) : list event :=
  filter (fun ev => is_admit ev = true) evs.

(** The bytes of the writes to the origin among the events. *)
Definition origin_writes (evs : list event) : list (list ascii) :=
  omap (fun ev => match ev with OriginWrite b => Some b | _ => None end) evs.

(** The statement of C4 for every reader, one that hands out a short
    count before the end of the input included: what [add_to_cache] is
    handed is the concatenation of the chunks received. *)
Definition admitted_is_whole_body : Prop :=
  forall MAXLINE MAXBUF conn c c' tr uri cacheBuf sz,
    Forall (fun ch => 0 < Z.of_nat (length ch) <= Cache.MAX_OBJECT_SIZE)
      (or_chunks conn) ->
    run MAXLINE MAXBUF conn c = Done (c', tr) ->
    CacheAdmit uri cacheBuf sz ∈ tr ->
    load cacheBuf (Z.to_nat sz) = concat (or_chunks conn).

Definition response_500 (conn : connection) (k : nat) : list event :=
  error_response conn k "500" "Server Error" "Cannot write to server".



(** A request line that [read_requestline] gives up on before or after
    it looks at the method: no line, a line the parser does not take for
    a request line, one that sscanf cannot take apart, a version other
    than 1.0 and 1.1, or a GET without a path. *)
Definition malformed_request_line (MAXBUF : nat) (conn : connection) : Prop :=
  match cl_reqline conn with
  | None => True
  | Some line =>
      String.length line = 0%nat \/
      (String.length line < MAXBUF)%nat /\
      (cl_reqstate conn <> REQUEST \/
       match cl_scan conn with
       | None => True
       | Some (method, _, version) =>
           (version <> "0"%char /\ version <> "1"%char) \/
           (method = "GET"%string /\ cl_path conn = None)
       end)
  end.

(** The connection [conn] with another request line. *)
Definition with_request (conn : connection) (line : option string)
    (state : parser_state) (scan : option (string * string * ascii))
    (path : option string) : connection :=
  {| cl_reqline := line; cl_reqstate := state; cl_scan := scan;
     cl_path := path;
     cl_headers := cl_headers conn; cl_host_header := cl_host_header conn;
     cl_host0 := cl_host0 conn; cl_port0 := cl_port0 conn;
     cl_port := cl_port conn; cl_host := cl_host conn; cl_uri := cl_uri conn;
     connfd := connfd conn; cl_write_ok := cl_write_ok conn;
     clientfd := clientfd conn; or_write_ok := or_write_ok conn;
     or_chunks := or_chunks conn; mem_buffer := mem_buffer conn;
     mem_cacheBuf := mem_cacheBuf conn; mem_mallocs := mem_mallocs conn |}.

(** The connection [conn] with other answers of the parser to
    [threadRoutine]. *)
Definition with_target (conn : connection) (port host uri : option string)
  : connection :=
  {| cl_reqline := cl_reqline conn; cl_reqstate := cl_reqstate conn;
     cl_scan := cl_scan conn; cl_path := cl_path conn;
     cl_headers := cl_headers conn; cl_host_header := cl_host_header conn;
     cl_host0 := cl_host0 conn; cl_port0 := cl_port0 conn;
     cl_port := port; cl_host := host; cl_uri := uri;
     connfd := connfd conn; cl_write_ok := cl_write_ok conn;
     clientfd := clientfd conn; or_write_ok := or_write_ok conn;
     or_chunks := or_chunks conn; mem_buffer := mem_buffer conn;
     mem_cacheBuf := mem_cacheBuf conn; mem_mallocs := mem_mallocs conn |}.

(** The connection [conn] with another origin: what open_clientfd
    returns and whether the write to the origin succeeds. *)
Definition with_origin (conn : connection) (fd : Z) (ok : bool)
  : connection :=
  {| cl_reqline := cl_reqline conn; cl_reqstate := cl_reqstate conn;
     cl_scan := cl_scan conn; cl_path := cl_path conn;
     cl_headers := cl_headers conn; cl_host_header := cl_host_header conn;
     cl_host0 := cl_host0 conn; cl_port0 := cl_port0 conn;
     cl_port := cl_port conn; cl_host := cl_host conn; cl_uri := cl_uri conn;
     connfd := connfd conn; cl_write_ok := cl_write_ok conn;
     clientfd := fd; or_write_ok := ok;
     or_chunks := or_chunks conn; mem_buffer := mem_buffer conn;
     mem_cacheBuf := mem_cacheBuf conn; mem_mallocs := mem_mallocs conn |}.

(** The connection [conn] with other lines after the request line. *)
Definition with_headers (conn : connection) (lines : list header_line)
    (host_header : bool) : connection :=
  {| cl_reqline := cl_reqline conn; cl_reqstate := cl_reqstate conn;
     cl_scan := cl_scan conn; cl_path := cl_path conn;
     cl_headers := lines; cl_host_header := host_header;
     cl_host0 := cl_host0 conn; cl_port0 := cl_port0 conn;
     cl_port := cl_port conn; cl_host := cl_host conn; cl_uri := cl_uri conn;
     connfd := connfd conn; cl_write_ok := cl_write_ok conn;
     clientfd := clientfd conn; or_write_ok := or_write_ok conn;
     or_chunks := or_chunks conn; mem_buffer := mem_buffer conn;
     mem_cacheBuf := mem_cacheBuf conn; mem_mallocs := mem_mallocs conn |}.

(** The array holds the C string [bs]: its characters, none of them
    NUL, and a NUL after them. *)
Definition holds_cstring (a : array) (bs : list ascii) : Prop :=
  load a (length bs) = bs /\ a (length bs) = NUL /\ NUL ∉ bs.

(** The characters of a C string: no NUL among them. *)
Definition cstring (s : string) : Prop := NUL ∉ list_ascii_of_string s.

(** What the parser and the reader hand to [read_request] are C
    strings. *)
Definition parsed_cstrings (conn : connection) : Prop :=
  (forall path, cl_path conn = Some path -> cstring path) /\
  (forall host, cl_host0 conn = Some host -> cstring host) /\
  (forall port, cl_port0 conn = Some port -> cstring port) /\
  Forall (fun l => cstring (hl_line l)) (cl_headers conn).

(** Whether the loop of [read_request] hands the line on to the origin:
    a header whose name is not one of the three the proxy sets itself. *)
Definition forwarded (l : header_line) : bool :=
  match hl_state l, hl_name l with
  | HEADER, Some name => forwarded_header name
  | _, _ => false
  end.

(** The lines before the empty line. *)
Fixpoint before_empty_line (lines : list header_line) : list header_line :=
  match lines with
  | [] => []
  | l :: rest =>
      if String.eqb (hl_line l) crlf then []
      else l :: before_empty_line rest
  end.

(** The Host header the proxy adds when the request has none. *)
Definition host_line (conn : connection) : string :=
  if cl_host_header conn then ""
  else
    match cl_host0 conn, cl_port0 conn with
    | Some host, Some port => "Host: " +:+ host +:+ ":" +:+ port +:+ crlf
    | _, _ => ""
    end.

(** The request for the origin: the request line for the path, at most
    MAXLINE - 1 characters of it, the headers handed on in the order
    they came, the Host header if there was none, the three headers the
    proxy sets and the empty line. *)
Definition rewritten_request (MAXLINE : nat) (conn : connection)
    (path : string) : list ascii :=
  take (MAXLINE - 1)
    (list_ascii_of_string ("GET " +:+ path +:+ " HTTP/1.0" +:+ crlf))
  ++ concat ((fun l => list_ascii_of_string (hl_line l))
               <$> filter (fun l => forwarded l = true)
                     (before_empty_line (cl_headers conn)))
  ++ list_ascii_of_string (host_line conn)
  ++ list_ascii_of_string ("User-Agent: " +:+ header_user_agent +:+ crlf)
  ++ list_ascii_of_string ("Connection: close" +:+ crlf)
  ++ list_ascii_of_string ("Proxy-Connection: close" +:+ crlf)
  ++ list_ascii_of_string crlf.

(** [GET http://h:80/x HTTP/1.1] with four header lines, two of them
    among those the proxy sets itself. *)
Definition get_x_with_headers : connection :=
  with_headers (get_x [])
    [ {| hl_line := "Accept: */*" +:+ crlf; hl_state := HEADER;
         hl_name := Some "Accept" |};
      {| hl_line := "User-Agent: curl" +:+ crlf; hl_state := HEADER;
         hl_name := Some "User-Agent" |};
      {| hl_line := "Host: h" +:+ crlf; hl_state := HEADER;
         hl_name := Some "Host" |};
      {| hl_line := "Connection: keep-alive" +:+ crlf; hl_state := HEADER;
         hl_name := Some "Connection" |};
      {| hl_line := crlf; hl_state := OTHER; hl_name := None |} ]%string
    true.

(** The three error pages of the proxy, byte for byte as the client
    receives them: the status line with the two headers and the empty
    line, and the body. *)
Definition headers_400 : string :=
  "HTTP/1.0 400 Bad Request" +:+ crlf +:+
  "Content-Type: text/html" +:+ crlf +:+
  "Content-Length: 172" +:+ crlf +:+ crlf.

Definition body_400 : string :=
  "<!DOCTYPE html>" +:+ crlf +:+
  "<html>" +:+ crlf +:+
  "<head><title>Server Error</title></head>" +:+ crlf +:+
  "<body bgcolor=" +:+ dquote +:+ "ffffff" +:+ dquote +:+ ">" +:+ crlf +:+
  "<h1>400: Bad Request</h1>" +:+ crlf +:+
  "<p>Received a malformed request</p>" +:+ crlf +:+
  "</body></html>" +:+ crlf.

Definition headers_501 : string :=
  "HTTP/1.0 501 Not Implemented" +:+ crlf +:+
  "Content-Type: text/html" +:+ crlf +:+
  "Content-Length: 178" +:+ crlf +:+ crlf.

Definition body_501 : string :=
  "<!DOCTYPE html>" +:+ crlf +:+
  "<html>" +:+ crlf +:+
  "<head><title>Server Error</title></head>" +:+ crlf +:+
  "<body bgcolor=" +:+ dquote +:+ "ffffff" +:+ dquote +:+ ">" +:+ crlf +:+
  "<h1>501: Not Implemented</h1>" +:+ crlf +:+
  "<p>Server couldn't find this file</p>" +:+ crlf +:+
  "</body></html>" +:+ crlf.

Definition headers_500 : string :=
  "HTTP/1.0 500 Server Error" +:+ crlf +:+
  "Content-Type: text/html" +:+ crlf +:+
  "Content-Length: 167" +:+ crlf +:+ crlf.

Definition body_500 : string :=
  "<!DOCTYPE html>" +:+ crlf +:+
  "<html>" +:+ crlf +:+
  "<head><title>Server Error</title></head>" +:+ crlf +:+
  "<body bgcolor=" +:+ dquote +:+ "ffffff" +:+ dquote +:+ ">" +:+ crlf +:+
  "<h1>500: Server Error</h1>" +:+ crlf +:+
  "<p>Cannot write to server</p>" +:+ crlf +:+
  "</body></html>" +:+ crlf.

(** The writes of a page to the client when [k] writes came before:
    the bytes [headers] and, unless that write fails, the bytes
    [body]. *)
Definition error_page (conn : connection) (k : nat) (headers body : string)
  : list event :=
  ClientWrite (list_ascii_of_string headers)
  :: (if cl_write_ok conn k
      then [ClientWrite (list_ascii_of_string body)] else []).

(** C7 as the claim has it: whenever the method that sscanf finds in the
    request line is not GET, the client is sent the 501 page first and
    the origin is not connected to. *)
Definition every_non_get_gets_501 : Prop :=
  forall MAXLINE MAXBUF conn c line method uri version,
    roomy MAXLINE MAXBUF ->
    cl_reqline conn = Some line ->
    (0 < String.length line < MAXBUF)%nat ->
    cl_reqstate conn = REQUEST ->
    cl_scan conn = Some (method, uri, version) ->
    method <> "GET"%string ->
    exists c' rest,
      run MAXLINE MAXBUF conn c
      = Done (c', error_page conn 0 headers_501 body_501 ++ rest) /\
      Forall (fun ev => is_origin_open ev = false) rest.

(** [POST http://h:80/x HTTP/1.2] *)
Definition post_x_1_2 : connection :=
  with_request post_x (Some ("POST http://h:80/x HTTP/1.2" +:+ crlf))
    REQUEST (Some ("POST", "http://h:80/x", "2"%char))%string None.

End PipelineVocabulary.

(** * Properties of the cache *)

Lemma int_op_Done (z z' : Z) :
  int_op z = Done z' -> z' = z /\ INT_MIN <= z <= INT_MAX.
Proof.
  unfold int_op. destruct (INT_MIN <=? z) eqn:Hlo; simpl; [|discriminate].
  destruct (z <=? INT_MAX) eqn:Hhi; [|discriminate].
  intros [= <-]. lia.
Qed.

Lemma int_op_in (z : Z) : INT_MIN <= z <= INT_MAX -> int_op z = Done z.
Proof.
  intros [Hlo Hhi]. unfold int_op.
  apply Z.leb_le in Hlo, Hhi. by rewrite Hlo, Hhi.
Qed.

Lemma result_bind_Done {A B : Type} (a : A) (k : A -> result B) :
  Done a ≫= k = k a.
Proof. reflexivity. Qed.

(** Take the next call apart in a hypothesis [x ← m; k = Done r]. *)
Tactic Notation "bind_inv" hyp(H) "as" ident(E) :=
  match type of H with
  | mbind _ ?m = Done _ =>
      destruct m eqn:E; simpl in H; [|discriminate H]
  | match ?m with Done _ => _ | Fault _ => _ end = Done _ =>
      destruct m eqn:E; simpl in H; [|discriminate H]
  end.

(** The same when the call is a checked int operation. *)
Tactic Notation "int_inv" hyp(H) :=
  let E := fresh "E" in
  let Hv := fresh "Hv" in
  let Hr := fresh "Hr" in
  bind_inv H as E; apply int_op_Done in E as [Hv Hr]; subst.

Section CacheFacts.
Import Cache.

Lemma strncmp_eq_same (a b : string) :
  String.length a = String.length b ->
  strncmp_eq a b (String.length b) = true <-> a = b.
Proof.
  revert b. induction a as [|x a IH]; intros [|y b]; simpl; try done.
  intros [= Hlen]. destruct (Ascii.eqb_spec x y) as [->|Hne].
  - rewrite IH by done. split; [by intros ->|by intros [= ->]].
  - split; [done|by intros [= ? ?]].
Qed.

(** The loop test of [get_obj_with_key] is equality of the keys. *)
Lemma key_matches_eq (key : string) (o : web_object_t) :
  key_matches key o = true <-> urlKey o = key.
Proof.
  unfold key_matches, strlen. rewrite andb_true_iff, Nat.eqb_eq. split.
  - intros [Hlen Hcmp]. by apply strncmp_eq_same in Hcmp.
  - intros <-. split; [done|]. by apply strncmp_eq_same.
Qed.

Lemma get_obj_from_Some key objs i j o :
  get_obj_from key objs i = Some (j, o) ->
  exists k : nat, j = (i + k)%nat /\ objs !! k = Some o /\ urlKey o = key /\
    forall (k' : nat) o', (k' < k)%nat -> objs !! k' = Some o' ->
                          urlKey o' <> key.
Proof.
  revert i. induction objs as [|x objs IH]; intros i; simpl; [done|].
  destruct (key_matches key x) eqn:Hm.
  - intros [= <- <-]. exists 0%nat. apply key_matches_eq in Hm.
    repeat split; [lia|done|]. intros k' o' Hk'. lia.
  - intros H. apply IH in H as (k & -> & Hk & Hkey & Hfirst).
    exists (S k). repeat split; [lia|done|done|].
    intros [|k'] o' Hlt; simpl.
    + intros [= <-] Heq. apply key_matches_eq in Heq. congruence.
    + apply Hfirst. lia.
Qed.

Lemma get_obj_from_None key objs i :
  get_obj_from key objs i = None <-> key ∉ urlKey <$> objs.
Proof.
  revert i. induction objs as [|x objs IH]; intros i; csimpl.
  - split; [intros _; apply not_elem_of_nil|done].
  - rewrite not_elem_of_cons. destruct (key_matches key x) eqn:Hm.
    + apply key_matches_eq in Hm. split; [done|]. intros [Hne _]. congruence.
    + rewrite IH. split; [|tauto]. intros Hnot. split; [|done].
      intros ->. assert (key_matches (urlKey x) x = true) as Ht
        by by apply key_matches_eq.
      congruence.
Qed.

(** The inner loop of [cache_eviction]: either nothing on the way is
    below [minStamp] and [toEvict] is as before, or the result is the
    first cell, in list order, among those with the least stamp. *)
Lemma scan_min_spec objs i minStamp toEvict :
  (scan_min objs i minStamp toEvict = toEvict /\
   forall o, o ∈ objs -> minStamp <= tStamp o) \/
  (exists (k : nat) v,
     scan_min objs i minStamp toEvict = Some ((i + k)%nat, v) /\
     objs !! k = Some v /\
     tStamp v < minStamp /\
     (forall o, o ∈ objs -> tStamp v <= tStamp o) /\
     (forall (k' : nat) o, (k' < k)%nat -> objs !! k' = Some o ->
                           tStamp v < tStamp o)).
Proof.
  revert i minStamp toEvict.
  induction objs as [|x objs IH]; intros i m acc; simpl.
  - left. split; [done|]. intros o Ho. by apply elem_of_nil in Ho.
  - destruct (Z.ltb_spec (tStamp x) m) as [Hlt|Hge].
    + destruct (IH (S i) (tStamp x) (Some (i, x)))
        as [[Hr Hall]|(k & v & Hr & Hk & Hv & Hmin & Hfirst)].
      * right. exists 0%nat, x. rewrite Nat.add_0_r.
        split_and!; [done|done|done| |].
        -- intros o [->|Ho]%elem_of_cons; [lia|by apply Hall].
        -- intros k' o Hk'. lia.
      * right. exists (S k), v. rewrite Nat.add_succ_r.
        split_and!; [done|done|lia| |].
        -- intros o [->|Ho]%elem_of_cons; [lia|by apply Hmin].
        -- intros [|k'] o Hk'; simpl; [intros [= <-]; lia|].
           apply Hfirst. lia.
    + destruct (IH (S i) m acc)
        as [[Hr Hall]|(k & v & Hr & Hk & Hv & Hmin & Hfirst)].
      * left. split; [done|].
        intros o [->|Ho]%elem_of_cons; [lia|by apply Hall].
      * right. exists (S k), v. rewrite Nat.add_succ_r.
        split_and!; [done|done|done| |].
        -- intros o [->|Ho]%elem_of_cons; [lia|by apply Hmin].
        -- intros [|k'] o Hk'; simpl; [intros [= <-]; lia|].
           apply Hfirst. lia.
Qed.

Lemma scan_min_victim objs k v :
  scan_min objs 0 INT_MAX None = Some (k, v) ->
  objs !! k = Some v /\ tStamp v < INT_MAX /\
  (forall o, o ∈ objs -> tStamp v <= tStamp o) /\
  (forall (k' : nat) o, (k' < k)%nat -> objs !! k' = Some o ->
                        tStamp v < tStamp o).
Proof.
  intros H.
  destruct (scan_min_spec objs 0 INT_MAX None)
    as [[Heq _]|(k0 & v0 & Heq & Hv)]; rewrite H in Heq; [done|].
  simpl in Heq. by injection Heq as <- <-.
Qed.

Lemma scan_min_None objs :
  scan_min objs 0 INT_MAX None = None ->
  forall o, o ∈ objs -> INT_MAX <= tStamp o.
Proof.
  intros H.
  destruct (scan_min_spec objs 0 INT_MAX None)
    as [[_ Hall]|(k & v & Heq & _)]; [exact Hall|].
  rewrite H in Heq. discriminate Heq.
Qed.

End CacheFacts.

Section CacheSteps.
Import Cache.

Lemma resident_bytes_sum c : resident_bytes c = sum_sizes (start c).
Proof. reflexivity. Qed.

Lemma sum_sizes_delete objs (i : nat) v :
  objs !! i = Some v -> sum_sizes (delete i objs) = sum_sizes objs - objSize v.
Proof.
  revert i. induction objs as [|x objs IH]; intros [|i]; simpl; try done.
  - intros [= ->]. lia.
  - intros H. unfold sum_sizes in *. simpl. rewrite (IH i H). lia.
Qed.

Lemma sum_sizes_insert objs (i : nat) o o' :
  objs !! i = Some o -> objSize o' = objSize o ->
  sum_sizes (<[i := o']> objs) = sum_sizes objs.
Proof.
  revert i. induction objs as [|x objs IH]; intros [|i]; simpl; try done.
  - intros [= ->] Hsz. unfold sum_sizes. simpl. lia.
  - intros H Hsz. unfold sum_sizes in *. simpl. by rewrite (IH i H Hsz).
Qed.

Lemma sum_sizes_nonneg objs :
  Forall (fun o => 0 <= objSize o) objs -> 0 <= sum_sizes objs.
Proof.
  induction 1 as [|x objs Hx _ IH]; unfold sum_sizes in *; simpl; lia.
Qed.

Lemma sum_sizes_elem objs (i : nat) v :
  Forall (fun o => 0 <= objSize o) objs -> objs !! i = Some v ->
  objSize v <= sum_sizes objs.
Proof.
  intros Hall. revert i.
  induction Hall as [|x objs Hx Hall IH]; intros [|i]; simpl; try done.
  - intros [= ->]. apply sum_sizes_nonneg in Hall.
    unfold sum_sizes in *. simpl. lia.
  - intros H. apply IH in H. unfold sum_sizes in *. simpl. lia.
Qed.

(** One round of eviction unlinks the first cell among those with the
    least stamp and gives its bytes back. *)
Lemma evict_one_Done c c' :
  evict_one c = Done c' ->
  exists (i : nat) v,
    start c !! i = Some v /\
    start c' = delete i (start c) /\
    size c' = size c - objSize v /\
    LRU c' = LRU c /\
    (forall o, o ∈ start c -> tStamp v <= tStamp o) /\
    (forall (k : nat) o, (k < i)%nat -> start c !! k = Some o ->
                         tStamp v < tStamp o).
Proof.
  unfold evict_one.
  destruct (scan_min (start c) 0 INT_MAX None) as [[i v]|] eqn:Hscan;
    [|discriminate].
  apply scan_min_victim in Hscan as (Hi & _ & Hmin & Hfirst).
  intros H. int_inv H. int_inv H.
  destruct (referenceCnt v - 1 =? 0); [|discriminate].
  injection H as <-. exists i, v. by split_and!.
Qed.

(** The loop of [cache_eviction] keeps the sum and the counter, unlinks
    cells only, and ends with room for [sz] bytes. *)
Lemma cache_eviction_loop_Done fuel sz c c' :
  size c = resident_bytes c ->
  cache_eviction_loop fuel sz c = Done c' ->
  size c' = resident_bytes c' /\ size c' + sz <= MAX_CACHE_SIZE /\
  LRU c' = LRU c /\ sublist (start c') (start c).
Proof.
  revert c. induction fuel as [|fuel IH]; intros c Hsum H; simpl in H.
  - int_inv H.
    destruct (Z.ltb_spec MAX_CACHE_SIZE (size c + sz)); [discriminate|].
    injection H as <-. by split_and!.
  - int_inv H.
    destruct (Z.ltb_spec MAX_CACHE_SIZE (size c + sz)).
    + bind_inv H as E. pose proof E as Hev.
      apply evict_one_Done in Hev as (i & v & Hi & Hstart & Hsize & Hlru & _).
      assert (size a = resident_bytes a) as Hsum'.
      { rewrite !resident_bytes_sum in *. rewrite Hstart, Hsize.
        rewrite (sum_sizes_delete _ _ _ Hi). lia. }
      apply IH in H as (? & ? & ? & Hsub); [|done].
      split_and!; [done|done|congruence|].
      etrans; [exact Hsub|]. rewrite Hstart. apply sublist_delete.
    + injection H as <-. by split_and!.
Qed.

Lemma cache_eviction_loop_S (fuel : nat) sz c :
  cache_eviction_loop (S fuel) sz c
  = (tot ← int_op (size c + sz);
     if MAX_CACHE_SIZE <? tot
     then c' ← evict_one c; cache_eviction_loop fuel sz c'
     else Done c).
Proof. reflexivity. Qed.

(** The artefact of the bounded loop is never the result. *)
Lemma cache_eviction_loop_fuel (fuel : nat) sz c :
  (length (start c) < fuel)%nat ->
  cache_eviction_loop fuel sz c <> Fault OutOfFuel.
Proof.
  revert c. induction fuel as [|fuel IH]; intros c Hlen; [lia|].
  simpl. destruct (int_op (size c + sz)) as [tot|f] eqn:E; simpl.
  - destruct (MAX_CACHE_SIZE <? tot); [|done].
    destruct (evict_one c) as [c'|f] eqn:Hev; simpl.
    + apply IH. apply evict_one_Done in Hev as (i & v & Hi & -> & _).
      rewrite length_delete by eauto. apply lookup_lt_Some in Hi. lia.
    + intros Hf. unfold evict_one, int_op in Hev.
      repeat case_match; simplify_eq/=. case_match; simplify_eq.
  - intros Hf. unfold int_op in E. case_match; simplify_eq/=.
Qed.

Lemma cache_eviction_fuel sz c : cache_eviction sz c <> Fault OutOfFuel.
Proof. apply cache_eviction_loop_fuel. lia. Qed.

End CacheSteps.

Section CacheCalls.
Import Cache.

Lemma Forall_sublist {A : Type} (P : A -> Prop) (l1 l2 : list A) :
  sublist l1 l2 -> Forall P l2 -> Forall P l1.
Proof.
  intros Hsub%sublist_subseteq. rewrite !Forall_forall.
  intros Hall x Hx. apply Hall, Hsub, Hx.
Qed.

Lemma settled_mono lru lru' o : lru <= lru' -> settled lru o -> settled lru' o.
Proof. unfold settled. intros ? (? & ? & ?). split_and!; lia. Qed.

Lemma settled_sizes lru objs :
  Forall (settled lru) objs -> Forall (fun o => 0 <= objSize o) objs.
Proof. intros H. eapply Forall_impl; [exact H|]. by intros o (? & _). Qed.

(** With a stamp below INT_MAX somewhere and the list holding the only
    references, a round of eviction returns. *)
Lemma evict_one_total lru c :
  size c = resident_bytes c -> size c <= MAX_CACHE_SIZE ->
  Forall (settled lru) (start c) -> lru < INT_MAX -> start c <> [] ->
  exists c', evict_one c = Done c'.
Proof.
  intros Hsum Hmax Hall Hlru Hne. unfold evict_one.
  destruct (scan_min (start c) 0 INT_MAX None) as [[i v]|] eqn:Hscan.
  - apply scan_min_victim in Hscan as (Hi & _).
    pose proof (sum_sizes_elem _ _ _ (settled_sizes _ _ Hall) Hi) as Hle.
    rewrite Forall_lookup in Hall. destruct (Hall _ _ Hi) as (Hsz & Hrc & _).
    rewrite resident_bytes_sum in Hsum. unfold MAX_CACHE_SIZE in Hmax.
    rewrite Hrc, !int_op_in by (unfold INT_MIN, INT_MAX; lia). simpl. eauto.
  - destruct (start c) as [|o objs] eqn:Hstart; [done|].
    pose proof (scan_min_None _ Hscan o (list_elem_of_here _ _)) as Hbig.
    apply Forall_cons in Hall as [(_ & _ & Ho) _]. lia.
Qed.

(** [cache_eviction] returns: the budget is regained before the list is
    empty. *)
Lemma cache_eviction_loop_total (fuel : nat) lru sz c :
  size c = resident_bytes c -> size c <= MAX_CACHE_SIZE ->
  Forall (settled lru) (start c) -> lru < INT_MAX ->
  0 <= sz <= MAX_CACHE_SIZE -> (length (start c) < fuel)%nat ->
  exists c', cache_eviction_loop fuel sz c = Done c'.
Proof.
  revert c. induction fuel as [|fuel IH];
    intros c Hsum Hmax Hall Hlru Hsz Hlen; [lia|].
  pose proof (sum_sizes_nonneg _ (settled_sizes _ _ Hall)) as Hnn.
  rewrite resident_bytes_sum in Hsum. simpl.
  rewrite int_op_in by (unfold INT_MIN, INT_MAX, MAX_CACHE_SIZE in *; lia).
  simpl. destruct (Z.ltb_spec MAX_CACHE_SIZE (size c + sz)); [|eauto].
  destruct (evict_one_total lru c) as [c' Hev]; try done.
  { intros Hnil. rewrite Hnil in Hsum. unfold sum_sizes in Hsum.
    simpl in Hsum. lia. }
  rewrite Hev. simpl.
  apply evict_one_Done in Hev as (i & v & Hi & Hstart & Hsize & _).
  pose proof (sum_sizes_elem _ _ _ (settled_sizes _ _ Hall) Hi) as Hle.
  assert (0 <= objSize v) as Hv.
  { rewrite Forall_lookup in Hall. by destruct (Hall _ _ Hi). }
  apply IH; try done.
  - rewrite resident_bytes_sum, Hstart, Hsize.
    rewrite (sum_sizes_delete _ _ _ Hi). lia.
  - lia.
  - rewrite Hstart. by apply Forall_delete.
  - rewrite Hstart, length_delete by eauto. apply lookup_lt_Some in Hi. lia.
Qed.

(** [insert_into_cache] puts the new cell in front of what is left of the
    list. *)
Lemma insert_into_cache_Done webObj c c1 :
  insert_into_cache webObj c = Done c1 ->
  exists kept,
    start c1 = webObj :: kept /\ sublist kept (start c) /\ LRU c1 = LRU c /\
    (size c = resident_bytes c -> objSize webObj <= MAX_CACHE_SIZE ->
     size c1 = sum_sizes kept /\ size c1 + objSize webObj <= MAX_CACHE_SIZE).
Proof.
  unfold insert_into_cache. destruct (start c) as [|x objs] eqn:Hstart.
  - intros [= <-]. exists []. simpl. split_and!; [done|done|done|].
    rewrite resident_bytes_sum, Hstart. unfold sum_sizes. simpl. lia.
  - intros H. int_inv H. bind_inv H as Hev. injection H as <-. simpl.
    destruct (Z.leb_spec MAX_CACHE_SIZE (size c + objSize webObj)).
    + exists (start a). split; [done|].
      destruct (decide (size c = resident_bytes c)) as [Hsum|Hsum].
      * apply cache_eviction_loop_Done in Hev as (? & ? & ? & Hsub);
          [|done]. rewrite Hstart in Hsub. by split_and!.
      * assert (sublist (start a) (start c) /\ LRU a = LRU c) as [Hsub Hl].
        { clear -Hev. unfold cache_eviction in Hev.
          remember (S (length (start c))) as fuel eqn:Hfuel. clear Hfuel.
          revert c Hev.
          induction fuel as [|fuel IH]; intros c H; simpl in H.
          - int_inv H. case_match; simplify_eq. done.
          - int_inv H. case_match; simplify_eq; [|done].
            bind_inv H as Hev. apply IH in H as [Hsub Hl].
            apply evict_one_Done in Hev as (i & v & _ & Hst & _ & Hlru & _).
            split; [|congruence]. etrans; [exact Hsub|]. rewrite Hst.
            apply sublist_delete. }
        rewrite Hstart in Hsub. by split_and!.
    + injection Hev as <-. exists (x :: objs). rewrite Hstart.
      split_and!; [done|done|done|].
      intros Hsum _. rewrite resident_bytes_sum, Hstart in Hsum. lia.
Qed.

Lemma insert_into_cache_total lru webObj c :
  sound c -> LRU c <= lru < INT_MAX -> 0 <= objSize webObj <= MAX_OBJECT_SIZE ->
  exists c1, insert_into_cache webObj c = Done c1.
Proof.
  intros ((Hsum & Hmax) & Hlru0 & Hall) Hlru Hsz. unfold insert_into_cache.
  pose proof (sum_sizes_nonneg _ (settled_sizes _ _ Hall)) as Hnn.
  rewrite resident_bytes_sum in Hsum.
  destruct (start c) as [|x objs] eqn:Hstart; [eauto|]. rewrite <- Hstart in *.
  rewrite int_op_in
    by (unfold INT_MIN, INT_MAX, MAX_CACHE_SIZE, MAX_OBJECT_SIZE in *; lia).
  simpl. destruct (MAX_CACHE_SIZE <=? size c + objSize webObj); [|eauto].
  destruct (cache_eviction_loop_total (S (length (start c))) (LRU c)
              (objSize webObj) c) as [c1 Hc1]; try done; try lia.
  { unfold MAX_CACHE_SIZE, MAX_OBJECT_SIZE in *. lia. }
  unfold cache_eviction. rewrite Hc1. simpl. eauto.
Qed.

(** The three ways in which [add_to_cache] returns. *)
Lemma add_to_cache_Done key buf sz m c r c' :
  add_to_cache key buf sz m c = Done (r, c') ->
  (r = false /\ c' = c /\ (key ∈ resident_keys c)) \/
  (r = true /\ c' = c /\ (key ∉ resident_keys c) /\ malloc_obj m = false) \/
  (r = false /\ (key ∉ resident_keys c) /\ m = mallocs_ok /\
   exists kept,
     start c' = new_object key buf sz (LRU c) :: kept /\
     sublist kept (start c) /\ LRU c' = LRU c /\
     (size c = resident_bytes c -> sz <= MAX_CACHE_SIZE ->
      size c' = resident_bytes c' /\ size c' <= MAX_CACHE_SIZE)).
Proof.
  unfold add_to_cache, get_obj_with_key.
  destruct (get_obj_from key (start c) 0) as [[i o]|] eqn:Hget.
  - intros [= <- <-]. left. split_and!; [done|done|].
    apply get_obj_from_Some in Hget as (k & _ & Hk & <- & _).
    unfold resident_keys. apply list_elem_of_fmap. exists o. split; [done|].
    by eapply list_elem_of_lookup_2.
  - apply get_obj_from_None in Hget.
    destruct m as [[] [] []]; simpl; try discriminate.
    + intros H. bind_inv H as Hins. int_inv H. injection H as <- <-.
      right; right. split_and!; [done|done|done|].
      apply insert_into_cache_Done in Hins
        as (kept & Hstart & Hsub & Hlru & Hbud).
      exists kept. simpl. split_and!; [done|done|done|].
      intros Hsum Hsz. destruct (Hbud Hsum Hsz) as [Hs Hle]. simpl in *.
      rewrite resident_bytes_sum. simpl. rewrite Hstart.
      unfold sum_sizes in *. simpl. lia.
    + intros [= <- <-]. right; left. by split_and!.
    + intros [= <- <-]. right; left. by split_and!.
    + intros [= <- <-]. right; left. by split_and!.
    + intros [= <- <-]. right; left. by split_and!.
Qed.

Lemma add_to_cache_total key buf sz m c :
  sound c -> LRU c < INT_MAX -> 0 <= sz <= MAX_OBJECT_SIZE -> mallocs_safe m ->
  exists r c', add_to_cache key buf sz m c = Done (r, c').
Proof.
  intros Hc Hlru Hsz Hm. unfold add_to_cache.
  destruct (get_obj_with_key key c); [eauto|].
  destruct (malloc_obj m) eqn:Hobj; simpl; [|eauto].
  destruct (Hm Hobj) as [-> ->]. simpl.
  destruct (insert_into_cache_total (LRU c)
              (new_object key buf sz (LRU c)) c) as [c1 Hc1];
    [done|lia|done|].
  pose proof Hc1 as Hins. fold (new_object key buf sz (LRU c)).
  rewrite Hc1. simpl.
  apply insert_into_cache_Done in Hins as (kept & Hstart & Hsub & _ & Hbud).
  destruct Hc as ((Hsum & Hmax) & _ & Hall).
  destruct Hbud as [Hs Hle]; [done|simpl|].
  { unfold MAX_CACHE_SIZE, MAX_OBJECT_SIZE in *. lia. }
  assert (0 <= sum_sizes kept) as Hnn.
  { apply sum_sizes_nonneg. eapply Forall_sublist; [exact Hsub|].
    by eapply settled_sizes. }
  simpl in Hle.
  rewrite int_op_in
    by (unfold INT_MIN, INT_MAX, MAX_CACHE_SIZE, MAX_OBJECT_SIZE in *; lia).
  simpl. eauto.
Qed.

End CacheCalls.

Section CacheLookup.
Import Cache.

Lemma serve_cache_locked_Done key c hit c1 :
  serve_cache_locked key c = Done (hit, c1) ->
  LRU c < INT_MAX /\ LRU c1 = LRU c + 1 /\ size c1 = size c /\
  match get_obj_with_key key c with
  | Some (i, o) =>
      hit = Some (i, held (stamped o (LRU c + 1))) /\
      start c1 = <[i := held (stamped o (LRU c + 1))]> (start c)
  | None => hit = None /\ start c1 = start c
  end.
Proof.
  unfold serve_cache_locked. intros H. int_inv H.
  assert (LRU c < INT_MAX) by lia.
  destruct (get_obj_with_key key c) as [[i o]|].
  - int_inv H. injection H as <- <-. by split_and!.
  - injection H as <- <-. by split_and!.
Qed.

(** What a lookup does: the counter advances; on a hit the cell found is
    stamped with the new value, its reference taken and given back. *)
Lemma serve_cache_Done key c r written c' :
  serve_cache key c = Done (r, written, c') ->
  LRU c < INT_MAX /\ LRU c' = LRU c + 1 /\ size c' = size c /\
  match get_obj_with_key key c with
  | Some (i, o) =>
      r = true /\ written = take (Z.to_nat (objSize o)) (object o) /\
      start c' = <[i := stamped o (LRU c + 1)]> (start c)
  | None => r = false /\ written = [] /\ start c' = start c
  end.
Proof.
  unfold serve_cache. intros H. bind_inv H as Hl. destruct a as [hit c1].
  apply serve_cache_locked_Done in Hl as (Hlt & Hlru & Hsize & Hhit).
  destruct (get_obj_with_key key c) as [[i o]|].
  - destruct Hhit as [-> Hstart]. int_inv H. injection H as <- <- <-.
    simpl. split_and!; [done|done|done|done|done|].
    rewrite Hstart, list_insert_insert_eq. f_equal.
    unfold stamped. simpl. f_equal. lia.
  - destruct Hhit as [-> Hstart]. injection H as <- <- <-. by split_and!.
Qed.

Lemma get_obj_with_key_lookup key c (i : nat) o :
  get_obj_with_key key c = Some (i, o) ->
  start c !! i = Some o /\ urlKey o = key.
Proof.
  intros (k & -> & Hk & Hkey & _)%get_obj_from_Some. by rewrite Nat.add_0_l.
Qed.

(** A lookup returns as long as the counter can advance. *)
Lemma serve_cache_total key c :
  sound c -> LRU c < INT_MAX ->
  exists r written c', serve_cache key c = Done (r, written, c').
Proof.
  intros (_ & Hlru0 & Hall) Hlru. unfold serve_cache, serve_cache_locked.
  rewrite int_op_in by (unfold INT_MIN, INT_MAX in *; lia). simpl.
  destruct (get_obj_with_key key c) as [[i o]|] eqn:Hget; simpl; [|eauto].
  apply get_obj_with_key_lookup in Hget as [Hi _].
  rewrite Forall_lookup in Hall. destruct (Hall _ _ Hi) as (_ & Hrc & _).
  rewrite Hrc. simpl. eauto.
Qed.

Lemma step_budget o c c' :
  budget c -> admit_size_ok o -> step o c = Done c' -> budget c'.
Proof.
  intros [Hsum Hmax] Hok H. destruct o as [key buf sz m|key]; simpl in *.
  - bind_inv H as Hadd. destruct a as [r c1]. injection H as <-.
    apply add_to_cache_Done in Hadd
      as [(_ & -> & _)|[(_ & -> & _)|(_ & _ & _ & kept & _ & _ & _ & Hb)]];
      [done|done|].
    apply Hb; [done|]. unfold MAX_CACHE_SIZE, MAX_OBJECT_SIZE in *. lia.
  - bind_inv H as Hs. destruct a as [[r w] c1]. injection H as <-.
    apply serve_cache_Done in Hs as (_ & _ & Hsize & Hhit).
    unfold budget. rewrite Hsize, !resident_bytes_sum in *.
    destruct (get_obj_with_key key c) as [[i o]|] eqn:Hget.
    + destruct Hhit as (_ & _ & ->).
      apply get_obj_with_key_lookup in Hget as [Hi _].
      by rewrite (sum_sizes_insert _ _ o).
    + destruct Hhit as (_ & _ & ->). done.
Qed.

Lemma step_sound o c c' :
  sound c -> admit_size_ok o -> step o c = Done c' ->
  sound c' /\ LRU c' = LRU c + (if is_lookup o then 1 else 0).
Proof.
  intros Hc Hok H. pose proof Hc as (Hb & Hlru & Hall).
  pose proof (step_budget _ _ _ Hb Hok H) as Hb'.
  destruct o as [key buf sz m|key]; simpl in *.
  - bind_inv H as Hadd. destruct a as [r c1]. injection H as <-.
    apply add_to_cache_Done in Hadd
      as [(_ & -> & _)|[(_ & -> & _)|
          (_ & _ & _ & kept & Hstart & Hsub & Hl & _)]].
    + split; [done|lia].
    + split; [done|lia].
    + split; [|lia]. split_and!; [done|lia|].
      rewrite Hstart, Hl. apply Forall_cons. split.
      * unfold settled. simpl. lia.
      * by eapply Forall_sublist.
  - bind_inv H as Hs. destruct a as [[r w] c1]. injection H as <-.
    apply serve_cache_Done in Hs as (_ & Hl & _ & Hhit).
    split; [|done]. split_and!; [done|lia|]. rewrite Hl.
    assert (Forall (settled (LRU c + 1)) (start c)) as Hall'.
    { eapply Forall_impl; [exact Hall|]. intros o. apply settled_mono. lia. }
    destruct (get_obj_with_key key c) as [[i o]|] eqn:Hget.
    + destruct Hhit as (_ & _ & ->).
      apply get_obj_with_key_lookup in Hget as [Hi _].
      apply Forall_insert; [done|].
      rewrite Forall_lookup in Hall. destruct (Hall _ _ Hi) as (? & ? & ?).
      unfold settled, stamped. simpl. lia.
    + by destruct Hhit as (_ & _ & ->).
Qed.

Lemma step_total o c :
  sound c -> LRU c < INT_MAX -> admit_size_ok o -> admit_safe o ->
  exists c', step o c = Done c'.
Proof.
  intros Hc Hlru Hok Hsafe. destruct o as [key buf sz m|key]; simpl in *.
  - destruct (add_to_cache_total key buf sz m c) as (r & c' & ->);
      [done|done|lia|done|]. simpl. eauto.
  - destruct (serve_cache_total key c) as (r & w & c' & ->); [done|done|].
    simpl. eauto.
Qed.

Lemma lookups_cons o ops :
  lookups (o :: ops) = (if is_lookup o then 1 else 0) + lookups ops.
Proof.
  unfold lookups. rewrite filter_cons.
  destruct (is_lookup o); case_decide; simpl; try done; lia.
Qed.

Lemma lookups_nonneg ops : 0 <= lookups ops.
Proof. unfold lookups. lia. Qed.

Lemma run_budget ops c c' :
  budget c -> Forall admit_size_ok ops -> run ops c = Done c' -> budget c'.
Proof.
  intros Hb Hok. revert c Hb.
  induction Hok as [|o ops Ho _ IH]; intros c Hb H; simpl in H.
  - by injection H as <-.
  - bind_inv H as Hstep. eapply IH; [|exact H]. by eapply step_budget.
Qed.

Lemma run_total ops c :
  sound c -> Forall admit_size_ok ops -> Forall admit_safe ops ->
  LRU c + lookups ops < INT_MAX ->
  exists c', run ops c = Done c' /\ sound c' /\
             LRU c' = LRU c + lookups ops.
Proof.
  intros Hc Hok. revert c Hc.
  induction Hok as [|o ops Ho _ IH]; intros c Hc Hsafe Hlru; simpl.
  - exists c. unfold lookups. simpl. split_and!; [done|done|lia].
  - apply Forall_cons in Hsafe as [Hso Hsafe]. rewrite lookups_cons in Hlru.
    pose proof (lookups_nonneg ops) as Hnn.
    destruct (step_total o c) as [c1 Hstep]; [done| |done|done|].
    { destruct (is_lookup o); lia. }
    rewrite Hstep. simpl.
    apply step_sound in Hstep as [Hc1 Hl1]; [|done|done].
    destruct (IH c1) as (c' & Hrun & Hc' & Hl'); [done|done|lia|].
    exists c'. split_and!; [done|done|]. rewrite lookups_cons. lia.
Qed.

Lemma sound_init : sound init_web_cache.
Proof.
  unfold sound, budget, init_web_cache, resident_bytes, MAX_CACHE_SIZE. simpl.
  split_and!; [done|lia|lia|constructor].
Qed.

End CacheLookup.

(** * The claims about the cache *)

Section CacheClaims.
Import Cache.

(** C2 (byte budget).  After every sequence of admissions, each of a size
    in (0, MAX_OBJECT_SIZE], and lookups that starts from the empty cache,
    [size] is the sum of the sizes of the resident entries and is at most
    MAX_CACHE_SIZE = 1048576.  Such a sequence does run to its end when
    no malloc returns NULL after the first one of its call has succeeded
    and fewer than INT_MAX lookups are made. *)
Theorem budget_after_calls (ops : list op) :
  Forall admit_size_ok ops ->
  (forall c, run ops init_web_cache = Done c ->
     size c = resident_bytes c /\ size c <= 1048576) /\
  (Forall admit_safe ops -> lookups ops < INT_MAX ->
     exists c, run ops init_web_cache = Done c).
Proof.
  intros Hok. split.
  - intros c Hrun. eapply (run_budget ops init_web_cache c); [|done|done].
    apply sound_init.
  - intros Hsafe Hl.
    destruct (run_total ops init_web_cache) as (c & Hrun & _);
      [apply sound_init|done|done|simpl; lia|eauto].
Qed.

Lemma budget_after_calls_witness :
  let ops := [Lookup "a"; Admit "a" (fun _ => "x"%char) 5 mallocs_ok;
              Lookup "a"] in
  Forall admit_size_ok ops /\
  ((forall c, run ops init_web_cache = Done c ->
      size c = resident_bytes c /\ size c <= 1048576) /\
   (Forall admit_safe ops -> lookups ops < INT_MAX ->
      exists c, run ops init_web_cache = Done c)).
Proof.
  intros ops.
  assert (Forall admit_size_ok ops) as Hok.
  { repeat constructor; simpl; unfold MAX_OBJECT_SIZE; lia. }
  split; [exact Hok|]. exact (budget_after_calls ops Hok).
Defined.

(** [add_to_cache] returns true exactly when its first malloc fails on a
    key that is not resident, and then the cache is as before; every
    insertion returns false. *)
Lemma add_to_cache_result key buf sz m c r c' :
  add_to_cache key buf sz m c = Done (r, c') ->
  (r = true -> c' = c /\ malloc_obj m = false) /\
  (start c' <> start c -> r = false).
Proof.
  intros H. apply add_to_cache_Done in H
    as [(-> & -> & _)|[(-> & -> & _ & Hm)|(-> & _)]]; split; done.
Qed.

(** C1 (result of an admission), at the failing input.  On the empty
    cache, with every malloc succeeding, [add_to_cache ("u", buf, 1)]
    inserts the entry and returns false; when its first malloc fails it
    returns true and leaves the cache as it was. *)
Theorem add_to_cache_result_inverted :
  let buf : array := fun _ => "x"%char in
  add_to_cache "u" buf 1 mallocs_ok init_web_cache
  = Done (false, {| start := [new_object "u" buf 1 0]; size := 1; LRU := 0 |})
  /\
  add_to_cache "u" buf 1
    {| malloc_obj := false; malloc_buf := true; malloc_key := true |}
    init_web_cache
  = Done (true, init_web_cache).
Proof. split; reflexivity. Qed.

(** C8, counterexample: the admission of "u" into the empty cache leaves
    the counter at 0. *)
Lemma admission_advances_clock_fails : ~ admission_advances_clock.
Proof.
  intros Hclaim.
  destruct (Hclaim "u"%string (fun _ => "x"%char) 1 mallocs_ok init_web_cache
              {| start := [new_object "u" (fun _ => "x"%char) 1 0];
                 size := 1; LRU := 0 |}
              (new_object "u" (fun _ => "x"%char) 1 0) [])
    as [Hlru _]; try reflexivity.
  - apply not_elem_of_nil.
  - simpl in Hlru. lia.
Qed.

(** C8 (clock), amended.  No call makes the counter smaller.  A lookup,
    hit or miss, adds one to it and, on a hit, stamps the entry found with
    the new value; it returns as long as the counter is below INT_MAX.  An
    admission leaves the counter as it is and stamps the entry it inserts
    with that value. *)
Theorem clock_of_calls :
  (forall o c c', step o c = Done c' -> LRU c <= LRU c') /\
  (forall key c r written c',
     serve_cache key c = Done (r, written, c') ->
     LRU c' = LRU c + 1 /\
     forall (i : nat) o, get_obj_with_key key c = Some (i, o) ->
       r = true /\ start c' !! i = Some (stamped o (LRU c'))) /\
  (forall key c, sound c -> LRU c < INT_MAX ->
     exists r written c', serve_cache key c = Done (r, written, c')) /\
  (forall key buf sz m c r c',
     add_to_cache key buf sz m c = Done (r, c') ->
     LRU c' = LRU c /\
     (start c' <> start c ->
      exists kept, start c' = new_object key buf sz (LRU c') :: kept)).
Proof.
  assert (forall key buf sz m c r c',
            add_to_cache key buf sz m c = Done (r, c') ->
            LRU c' = LRU c /\
            (start c' <> start c ->
             exists kept, start c' = new_object key buf sz (LRU c') :: kept))
    as Hadd.
  { intros key buf sz m c r c' H. apply add_to_cache_Done in H
      as [(_ & -> & _)|[(_ & -> & _)|
          (_ & _ & _ & kept & Hstart & _ & Hl & _)]]; [done|done|].
    split; [done|]. intros _. exists kept. by rewrite Hl. }
  assert (forall key c r written c',
            serve_cache key c = Done (r, written, c') ->
            LRU c' = LRU c + 1 /\
            forall (i : nat) o, get_obj_with_key key c = Some (i, o) ->
              r = true /\ start c' !! i = Some (stamped o (LRU c')))
    as Hserve.
  { intros key c r w c' H. apply serve_cache_Done in H as (_ & Hl & _ & Hhit).
    split; [done|]. intros i o Hget. rewrite Hget in Hhit.
    destruct Hhit as (-> & _ & ->). split; [done|].
    apply get_obj_with_key_lookup in Hget as [Hi _]. rewrite Hl.
    apply list_lookup_insert_eq. by eapply lookup_lt_Some. }
  split_and!; [|exact Hserve|apply serve_cache_total|exact Hadd].
  intros [key buf sz m|key] c c' H; simpl in H.
  - bind_inv H as E. destruct a as [r c1]. injection H as <-.
    apply Hadd in E as [-> _]. lia.
  - bind_inv H as E. destruct a as [[r w] c1]. injection H as <-.
    apply Hserve in E as [-> _]. lia.
Qed.

Lemma clock_of_calls_witness :
  let o := new_object "u" (fun _ => "x"%char) 1 0 in
  let c := {| start := [o]; size := 1; LRU := 0 |} in
  let c' := {| start := [stamped o 1]; size := 1; LRU := 1 |} in
  LRU c <= LRU c' /\
  (LRU c' = LRU c + 1 /\ start c' !! 0%nat = Some (stamped o (LRU c'))) /\
  LRU {| start := [new_object "v" (fun _ => "y"%char) 2 0; o];
         size := 3; LRU := 0 |} = LRU c.
Proof.
  intros o c c'. destruct clock_of_calls as (Hstep & Hserve & _ & Hadd).
  split; [|split].
  - exact (Hstep (Lookup "u") c c' eq_refl).
  - destruct (Hserve "u"%string c true ["x"%char] c' eq_refl) as [Hl Hhit].
    split; [exact Hl|]. exact (proj2 (Hhit 0%nat o eq_refl)).
  - exact (proj1 (Hadd "v"%string (fun _ => "y"%char) 2 mallocs_ok c false _
                    eq_refl)).
Defined.

(** C10 (frame of a lookup).  [serve_cache], hit or miss, leaves [size],
    the keys and the order of the resident entries as they are and adds
    one to the counter.  On a miss the list is the same list.  On a hit
    the entry found is replaced by itself with the new stamp, every other
    entry is the same, and while the bytes are written the only further
    difference is the one reference more on the entry found. *)
Theorem lookup_frame key c r written c' :
  serve_cache key c = Done (r, written, c') ->
  size c' = size c /\
  resident_keys c' = resident_keys c /\
  LRU c' = LRU c + 1 /\
  match get_obj_with_key key c with
  | Some (i, o) =>
      r = true /\
      start c' = <[i := stamped o (LRU c')]> (start c) /\
      exists c1, serve_cache_locked key c
                 = Done (Some (i, held (stamped o (LRU c'))), c1) /\
                 start c1 = <[i := held (stamped o (LRU c'))]> (start c) /\
                 size c1 = size c /\ LRU c1 = LRU c'
  | None => r = false /\ start c' = start c
  end.
Proof.
  intros H. pose proof H as Hfull. unfold serve_cache in Hfull.
  bind_inv Hfull as Hlock. destruct a as [hit c1]. pose proof Hlock as Hl1.
  apply serve_cache_locked_Done in Hl1 as (_ & Hl1 & Hs1 & Hhit1).
  apply serve_cache_Done in H as (_ & Hl & Hsize & Hhit).
  assert (resident_keys c' = resident_keys c) as Hkeys.
  { unfold resident_keys.
    destruct (get_obj_with_key key c) as [[i o]|] eqn:Hget.
    - destruct Hhit as (_ & _ & ->).
      apply get_obj_with_key_lookup in Hget as [Hi _].
      rewrite list_fmap_insert. apply list_insert_id.
      by rewrite list_lookup_fmap, Hi.
    - by destruct Hhit as (_ & _ & ->). }
  split_and!; [done|done|done|].
  destruct (get_obj_with_key key c) as [[i o]|] eqn:Hget.
  - destruct Hhit as (-> & _ & ->). destruct Hhit1 as [-> Hstart1].
    rewrite Hl. split_and!; [done|done|]. exists c1.
    split_and!; [done|done|done|lia].
  - by destruct Hhit as (-> & _ & ->).
Qed.

Lemma lookup_frame_witness :
  let o := new_object "u" (fun _ => "x"%char) 1 0 in
  let p := new_object "v" (fun _ => "y"%char) 2 0 in
  let c := {| start := [p; o]; size := 3; LRU := 0 |} in
  let c' := {| start := [p; stamped o 1]; size := 3; LRU := 1 |} in
  serve_cache "u" c = Done (true, ["x"%char], c') /\
  size c' = size c /\ resident_keys c' = resident_keys c.
Proof.
  intros o p c c'. split; [reflexivity|].
  destruct (lookup_frame "u" c true ["x"%char] c' eq_refl) as (Hs & Hk & _).
  split; [exact Hs|exact Hk].
Defined.

End CacheClaims.

(** ** Eviction order *)

Section Recency.
Import Cache.

Variable buf : array.
Variable s : Z.
Hypothesis Hs : 0 < s <= MAX_OBJECT_SIZE.

Lemma capacity_bounds :
  (0 < capacity s)%nat /\
  s * Z.of_nat (capacity s) <= MAX_CACHE_SIZE <
  s * (Z.of_nat (capacity s) + 1).
Proof.
  unfold capacity.
  assert (10 <= MAX_CACHE_SIZE / s) as Hten.
  { etrans; [|apply (Z.div_le_compat_l MAX_CACHE_SIZE s MAX_OBJECT_SIZE)];
      [by vm_compute|by vm_compute|lia]. }
  rewrite Z2Nat.id by lia.
  pose proof (Z.mul_div_le MAX_CACHE_SIZE s) as Hle.
  pose proof (Z.mul_succ_div_gt MAX_CACHE_SIZE s) as Hgt.
  split; [lia|]. split; [lia|]. unfold Z.succ in Hgt. lia.
Qed.

Lemma length_recent q : length (recent buf s q) = length q.
Proof. induction q as [|k q IH]; simpl; [done|by rewrite IH]. Qed.

Lemma recent_keys q : urlKey <$> recent buf s q = q.
Proof. induction q as [|k q IH]; csimpl; [done|by rewrite IH]. Qed.

Lemma recent_lookup q (j : nat) o :
  recent buf s q !! j = Some o ->
  exists k, q !! j = Some k /\
    o = new_object k buf s (Z.of_nat (length q) - Z.of_nat j).
Proof.
  revert j. induction q as [|k q IH]; intros [|j]; simpl; try done.
  - intros [= <-]. exists k. split; [done|]. f_equal; lia.
  - intros H. apply IH in H as (k' & Hk' & ->). exists k'.
    split; [done|]. f_equal; lia.
Qed.

Lemma recent_settled lru q :
  Z.of_nat (length q) <= lru -> Forall (settled lru) (recent buf s q).
Proof.
  intros Hlen. apply Forall_lookup. intros j o (k & Hk & ->)%recent_lookup.
  apply lookup_lt_Some in Hk. unfold settled. simpl. lia.
Qed.

Lemma recent_sizes q (n : nat) :
  sum_sizes (take n (recent buf s q))
  = s * Z.of_nat (length (take n (recent buf s q))).
Proof.
  revert n. induction q as [|k q IH]; intros [|n]; simpl;
    try (unfold sum_sizes; simpl; lia).
  unfold sum_sizes in *. simpl. rewrite IH. lia.
Qed.

Lemma delete_take_last {A : Type} (l : list A) (n : nat) :
  (S n <= length l)%nat -> delete n (take (S n) l) = take n l.
Proof.
  intros Hlen. rewrite delete_take_drop, take_take, drop_ge.
  - rewrite app_nil_r. f_equal; lia.
  - rewrite length_take. lia.
Qed.

Lemma cache_eviction_loop_stop (fuel : nat) c :
  0 <= size c -> size c + s <= MAX_CACHE_SIZE ->
  cache_eviction_loop fuel s c = Done c.
Proof.
  intros H0 Hle. destruct fuel; simpl;
    (rewrite int_op_in
       by (unfold INT_MIN, INT_MAX, MAX_CACHE_SIZE, MAX_OBJECT_SIZE in *; lia));
    simpl; by destruct (Z.ltb_spec MAX_CACHE_SIZE (size c + s)); [lia|].
Qed.

Lemma holding_sound (n : nat) lru q :
  (n <= capacity s)%nat -> Z.of_nat (length q) <= lru ->
  sound (holding buf s n lru q).
Proof.
  intros Hn Hlen. pose proof capacity_bounds as (_ & Hcap & _).
  unfold sound, budget, holding. simpl. split_and!.
  - rewrite resident_bytes_sum. simpl. by rewrite recent_sizes.
  - rewrite length_take. nia.
  - lia.
  - eapply Forall_sublist; [apply sublist_take|by apply recent_settled].
Qed.

(** Eviction from a full cache whose stamps fall along the list unlinks
    the last cell. *)
Lemma evict_one_holding lru q :
  (capacity s <= length q)%nat -> Z.of_nat (length q) <= lru < INT_MAX ->
  evict_one (holding buf s (capacity s) lru q)
  = Done (holding buf s (capacity s - 1) lru q).
Proof.
  intros Hfull Hlru. pose proof capacity_bounds as (Hpos & Hcap & _).
  set (c := holding buf s (capacity s) lru q).
  destruct (holding_sound (capacity s) lru q) as ((Hsum & Hmax) & _ & Hall);
    [done|lia|]. fold c in Hsum, Hmax, Hall.
  destruct (evict_one_total lru c) as [c' Hev]; [done|done|done|lia| |].
  { unfold c, holding. simpl. intros Hnil.
    apply (f_equal length) in Hnil. rewrite length_take, length_recent in Hnil.
    simpl in Hnil. lia. }
  rewrite Hev. f_equal.
  apply evict_one_Done in Hev as (i & v & Hi & Hstart & Hsize & Hl & Hmin & _).
  unfold c, holding in Hi, Hstart, Hsize, Hl, Hmin. simpl in *.
  destruct (capacity s) as [|n] eqn:Hn; [lia|].
  apply lookup_take_Some in Hi as [Hi Hlt].
  apply recent_lookup in Hi as (k & Hk & ->).
  destruct (lookup_lt_is_Some_2 (recent buf s q) n) as [o Ho].
  { rewrite length_recent. lia. }
  assert (i = n) as ->.
  { pose proof Ho as (k' & _ & ->)%recent_lookup.
    assert (new_object k' buf s (Z.of_nat (length q) - Z.of_nat n)
            ∈ take (S n) (recent buf s q)) as Hin.
    { apply (list_elem_of_lookup_2 _ n). rewrite lookup_take_lt by lia.
      exact Ho. }
    apply Hmin in Hin. simpl in Hin. lia. }
  destruct c' as [st sz' l']. simpl in *. subst. unfold holding.
  rewrite Nat.sub_0_r, delete_take_last by (rewrite length_recent; lia).
  f_equal. rewrite !length_take, length_recent, !Nat.min_l by lia. nia.
Qed.

(** The new cell goes in front of the cells that stay. *)
Lemma insert_into_holding lru q webObj :
  objSize webObj = s -> Z.of_nat (length q) <= lru < INT_MAX ->
  insert_into_cache webObj (holding buf s (capacity s) lru q)
  = Done {| start := webObj :: take (capacity s - 1) (recent buf s q);
            size := s * Z.of_nat (length (take (capacity s - 1)
                                            (recent buf s q)));
            LRU := lru |}.
Proof.
  intros Hobj Hlru. pose proof capacity_bounds as (Hpos & Hcap & Hcap').
  unfold insert_into_cache.
  destruct (start (holding buf s (capacity s) lru q)) as [|x objs] eqn:Hst.
  - unfold holding in *. simpl in *.
    assert (q = []) as ->.
    { apply (f_equal length) in Hst.
      rewrite length_take, length_recent in Hst. simpl in Hst.
      destruct q; [done|simpl in Hst; lia]. }
    simpl. by rewrite !take_nil.
  - clear x objs Hst. rewrite Hobj.
    set (c := holding buf s (capacity s) lru q).
    assert (size c = s * Z.of_nat (min (capacity s) (length q))) as Hsize.
    { unfold c, holding. simpl. by rewrite length_take, length_recent. }
    rewrite int_op_in, result_bind_Done
      by (rewrite Hsize;
          unfold INT_MIN, INT_MAX, MAX_CACHE_SIZE, MAX_OBJECT_SIZE in *; nia).
    destruct (decide (capacity s <= length q)%nat) as [Hfull|Hroom].
    + rewrite Nat.min_l in Hsize by done.
      destruct (Z.leb_spec MAX_CACHE_SIZE (size c + s)); [|lia].
      unfold cache_eviction. rewrite cache_eviction_loop_S.
      rewrite int_op_in, result_bind_Done
        by (rewrite Hsize;
            unfold INT_MIN, INT_MAX, MAX_CACHE_SIZE, MAX_OBJECT_SIZE in *;
            nia).
      destruct (Z.ltb_spec MAX_CACHE_SIZE (size c + s)); [|lia].
      unfold c. rewrite evict_one_holding, result_bind_Done by done.
      rewrite cache_eviction_loop_stop; [done| |].
      * unfold holding. simpl. lia.
      * unfold holding. simpl. rewrite length_take, length_recent. nia.
    + rewrite Nat.min_r in Hsize by lia.
      assert (cache_eviction s c = Done c) as Hstop.
      { apply cache_eviction_loop_stop; [lia|]. rewrite Hsize. nia. }
      assert (c = {| start := take (capacity s - 1) (recent buf s q);
                     size := s * Z.of_nat (length (take (capacity s - 1)
                                                     (recent buf s q)));
                     LRU := lru |}) as Hc.
      { unfold c, holding.
        rewrite !take_ge by (rewrite length_recent; lia). done. }
      destruct (MAX_CACHE_SIZE <=? size c + s);
        [rewrite Hstop|]; rewrite result_bind_Done; by rewrite Hc.
Qed.

End Recency.

Section Fetches.
Import Cache.

Variable buf : array.
Variable s : Z.
Hypothesis Hs : 0 < s <= MAX_OBJECT_SIZE.

Lemma serve_cache_miss key c :
  get_obj_with_key key c = None -> -1 <= LRU c < INT_MAX ->
  serve_cache key c
  = Done (false, [], {| start := start c; size := size c; LRU := LRU c + 1 |}).
Proof.
  intros Hget Hlru. unfold serve_cache, serve_cache_locked.
  rewrite int_op_in, result_bind_Done by (unfold INT_MIN, INT_MAX in *; lia).
  by rewrite Hget.
Qed.

Lemma add_to_cache_fresh key (b : array) sz c :
  get_obj_with_key key c = None ->
  add_to_cache key b sz mallocs_ok c
  = (c1 ← insert_into_cache (new_object key b sz (LRU c)) c;
     sz' ← int_op (size c1 + sz);
     Done (false, {| start := start c1; size := sz'; LRU := LRU c1 |})).
Proof. intros Hget. unfold add_to_cache. by rewrite Hget. Qed.

Lemma holding_miss (n : nat) lru q k :
  k ∉ q -> get_obj_with_key k (holding buf s n lru q) = None.
Proof.
  intros Hk. apply get_obj_from_None. unfold holding. simpl.
  rewrite fmap_take, recent_keys. intros Hin. apply Hk.
  eapply elem_of_sublist; [exact Hin|apply sublist_take].
Qed.

(** One request for a key that is not resident: the lookup misses and
    advances the counter, the admission puts the new cell in front and
    the oldest one goes when the cache is full. *)
Lemma fetch_step q k :
  k ∉ q -> Z.of_nat (length q) < INT_MAX - 1 ->
  run [Lookup k; Admit k buf s mallocs_ok]
      (holding buf s (capacity s) (Z.of_nat (length q)) q)
  = Done (holding buf s (capacity s) (Z.of_nat (S (length q))) (k :: q)).
Proof.
  intros Hk Hlen. pose proof (capacity_bounds s Hs) as (Hpos & Hcap & _).
  unfold run, step.
  rewrite serve_cache_miss
    by first [by apply holding_miss|unfold INT_MAX in *; simpl; lia].
  rewrite !result_bind_Done. simpl start. simpl size. simpl LRU.
  change {| start := take (capacity s) (recent buf s q);
            size := s * Z.of_nat (length (take (capacity s) (recent buf s q)));
            LRU := Z.of_nat (length q) + 1 |}
    with (holding buf s (capacity s) (Z.of_nat (length q) + 1) q).
  rewrite add_to_cache_fresh by by apply holding_miss.
  rewrite insert_into_holding, result_bind_Done
    by first [done|unfold INT_MAX in *; simpl; lia].
  simpl size. simpl start. simpl LRU.
  rewrite int_op_in, !result_bind_Done; last first.
  { rewrite length_take.
    unfold INT_MIN, INT_MAX, MAX_CACHE_SIZE, MAX_OBJECT_SIZE in *. nia. }
  f_equal. unfold holding. simpl recent.
  destruct (capacity s) as [|n]; [lia|]. simpl take.
  rewrite Nat.sub_0_r. f_equal; simpl length.
  - do 2 f_equal. unfold new_object. f_equal. lia.
  - lia.
  - lia.
Qed.

Lemma fetches_snoc p k :
  fetches buf s (p ++ [k])
  = fetches buf s p ++ [Lookup k; Admit k buf s mallocs_ok].
Proof. induction p as [|x p IH]; simpl; [done|by rewrite IH]. Qed.

Lemma run_app ops1 ops2 c :
  run (ops1 ++ ops2) c = run ops1 c ≫= run ops2.
Proof.
  revert c. induction ops1 as [|o ops1 IH]; intros c; simpl; [done|].
  destruct (step o c) as [c1|f]; simpl; [apply IH|done].
Qed.

(** The cache after the requests for [keys]: the last [capacity s] cells,
    the most recent one first. *)
Lemma run_fetches keys :
  NoDup keys -> Z.of_nat (length keys) < INT_MAX ->
  run (fetches buf s keys) init_web_cache
  = Done (holding buf s (capacity s) (Z.of_nat (length keys)) (reverse keys)).
Proof.
  induction keys as [|k p IH] using rev_ind; intros Hdup Hlen.
  - simpl. f_equal. unfold holding, init_web_cache. simpl.
    rewrite take_nil. simpl. f_equal. lia.
  - apply NoDup_app in Hdup as (Hp & Hk & _).
    rewrite length_app in Hlen. simpl in Hlen.
    rewrite fetches_snoc, run_app, IH, result_bind_Done by (done || lia).
    rewrite <- (length_reverse p) at 1.
    rewrite fetch_step.
    + by rewrite reverse_snoc, length_app, length_reverse, Nat.add_1_r.
    + rewrite elem_of_reverse. intros Hin. apply (Hk k Hin), list_elem_of_here.
    + rewrite length_reverse. lia.
Qed.

End Fetches.

Section RecencyClaim.
Import Cache.

Local Open Scope string_scope.

(** C3, counterexample: eleven admissions of 102400 bytes with no lookup
    in between all bear the stamp 0, the scan keeps the first cell with
    the least stamp, which is the newest, and "J" goes while "A" stays. *)
Lemma admissions_keep_suffix_fails : ~ admissions_keep_suffix.
Proof.
  intros Hclaim.
  set (buf := (fun _ => "x"%char) : array).
  set (keys := ["A"; "B"; "C"; "D"; "E"; "F"; "G"; "H"; "I"; "J"; "K"]).
  set (left := ["K"; "I"; "H"; "G"; "F"; "E"; "D"; "C"; "B"; "A"]).
  destruct (Hclaim buf 102400 keys
              {| start := (fun k => new_object k buf 102400 0) <$> left;
                 size := 1024000; LRU := 0 |}) as [n Hperm].
  - unfold keys. apply (bool_decide_unpack _). by vm_compute.
  - by vm_compute.
  - by vm_compute.
  - reflexivity.
  - unfold resident_keys in Hperm. simpl in Hperm.
    pose proof (Permutation_length Hperm) as Hlen.
    rewrite length_drop in Hlen. simpl in Hlen.
    assert (n = 1%nat) as -> by lia. simpl in Hperm.
    assert ("A" ∈ ["B"; "C"; "D"; "E"; "F"; "G"; "H"; "I"; "J"; "K"]) as Hin.
    { rewrite <- Hperm. apply (bool_decide_unpack _). by vm_compute. }
    revert Hin. apply (bool_decide_unpack _). by vm_compute.
Qed.

(** C3 (eviction order), amended.  Every round of eviction unlinks the
    first cell, in list order, among those with the least stamp.  For
    requests with distinct keys, each one a lookup that misses and the
    admission of [s] bytes, [0 < s <= MAX_OBJECT_SIZE], fewer than INT_MAX
    of them, the resident keys afterwards are the last
    [MAX_CACHE_SIZE / s] keys requested, the most recent one first. *)
Theorem eviction_is_lru :
  (forall c c', evict_one c = Done c' ->
     exists (i : nat) v,
       start c !! i = Some v /\ start c' = delete i (start c) /\
       (forall o, o ∈ start c -> tStamp v <= tStamp o) /\
       (forall (k : nat) o, (k < i)%nat -> start c !! k = Some o ->
                            tStamp v < tStamp o)) /\
  (forall buf s keys,
     NoDup keys -> 0 < s <= MAX_OBJECT_SIZE ->
     Z.of_nat (length keys) < INT_MAX ->
     exists c,
       run (fetches buf s keys) init_web_cache = Done c /\
       resident_keys c = reverse (drop (length keys - capacity s) keys)).
Proof.
  split.
  - intros c c' H. apply evict_one_Done in H
      as (i & v & Hi & Hstart & _ & _ & Hmin & Hfirst).
    exists i, v. by split_and!.
  - intros buf s keys Hdup Hs Hlen. eexists. split.
    + by apply run_fetches.
    + unfold resident_keys, holding. simpl.
      by rewrite fmap_take, recent_keys, take_reverse.
Qed.

Lemma eviction_is_lru_witness :
  let keys := ["A"; "B"; "C"; "D"; "E"; "F"; "G"; "H"; "I"; "J"; "K"; "L"] in
  exists c,
    run (fetches (fun _ => "x"%char) 102400 keys) init_web_cache = Done c /\
    resident_keys c = ["L"; "K"; "J"; "I"; "H"; "G"; "F"; "E"; "D"; "C"].
Proof.
  intros keys.
  destruct (proj2 eviction_is_lru (fun _ => "x"%char) 102400 keys)
    as (c & Hrun & Hkeys).
  - apply (bool_decide_unpack _). by vm_compute.
  - by vm_compute.
  - by vm_compute.
  - exists c. split; [exact Hrun|]. rewrite Hkeys. reflexivity.
Defined.

End RecencyClaim.

(** * Properties of the pipeline *)

Section PipelineFacts.
Import Proxy.

Variables MAXLINE MAXBUF : nat.
Variable conn : connection.

Lemma io_bind_Done {A B : Type} (m : io A) (k : A -> io B) w a w' :
  m w = Done (a, w') -> (m ≫= k) w = k a w'.
Proof. intros H. unfold mbind, io_bind. by rewrite H. Qed.

Lemma io_bind_inv {A B : Type} (m : io A) (k : A -> io B) w b w'' :
  (m ≫= k) w = Done (b, w'') ->
  exists a w', m w = Done (a, w') /\ k a w' = Done (b, w'').
Proof.
  unfold mbind, io_bind. destruct (m w) as [[a w']|f]; [eauto|done].
Qed.

Lemma lift_inv {A : Type} (r : result A) w a w' :
  lift r w = Done (a, w') -> r = Done a /\ w' = w.
Proof. unfold lift. destruct r; [by intros [= -> ->]|done]. Qed.

Lemma world_eta w : {| cache := cache w; trace := trace w |} = w.
Proof. by destruct w. Qed.

(** [clienterror] when the page fits the two arrays. *)
Lemma clienterror_run e sm lm w :
  (String.length (error_body e sm lm) < MAXBUF)%nat ->
  (String.length
     (error_headers e sm (String.length (error_body e sm lm))) < MAXLINE)%nat ->
  clienterror MAXLINE MAXBUF conn e sm lm w
  = Done (tt, {| cache := cache w;
                 trace := trace w ++
                   error_response conn (client_writes (trace w)) e sm lm |}).
Proof.
  intros Hbody Hhdr. unfold clienterror, error_response.
  destruct (Nat.leb_spec MAXBUF (String.length (error_body e sm lm)));
    [lia|].
  destruct (Nat.leb_spec MAXLINE
              (String.length
                 (error_headers e sm (String.length (error_body e sm lm)))));
    [lia|].
  unfold mbind, io_bind, rio_writen_client. simpl.
  destruct (cl_write_ok conn (client_writes (trace w))); simpl; [|done].
  by rewrite <- app_assoc.
Qed.

(** [clienterror] acts on the client socket only. *)
Lemma clienterror_Done e sm lm w a w' :
  clienterror MAXLINE MAXBUF conn e sm lm w = Done (a, w') ->
  cache w' = cache w /\
  exists evs, trace w' = trace w ++ evs /\
              Forall (fun ev => is_client_write ev = true) evs.
Proof.
  unfold clienterror.
  destruct (MAXBUF <=? _)%nat.
  { intros [= <- <-]. split; [done|]. exists []. by rewrite app_nil_r. }
  destruct (MAXLINE <=? _)%nat.
  { intros [= <- <-]. split; [done|]. exists []. by rewrite app_nil_r. }
  unfold mbind, io_bind, rio_writen_client, mret, io_ret.
  destruct (cl_write_ok conn _); cbn [negb]; intros [= <- <-];
    cbn [cache trace]; (split; [done|]); eexists;
    rewrite <- ?app_assoc; (split; [done|]); by repeat constructor.
Qed.

Lemma bad_request_run w :
  roomy MAXLINE MAXBUF ->
  bad_request MAXLINE MAXBUF conn w
  = Done (tt, {| cache := cache w;
                 trace := trace w ++
                   response_400 conn (client_writes (trace w)) |}).
Proof.
  intros [Hl Hb]. unfold bad_request, response_400.
  apply clienterror_run.
  - eapply Nat.lt_le_trans; [|exact Hb]. apply Nat.ltb_lt. by vm_compute.
  - eapply Nat.lt_le_trans; [|exact Hl]. apply Nat.ltb_lt. by vm_compute.
Qed.

Lemma not_implemented_run w :
  roomy MAXLINE MAXBUF ->
  clienterror MAXLINE MAXBUF conn "501" "Not Implemented"
    "Server couldn't find this file" w
  = Done (tt, {| cache := cache w;
                 trace := trace w ++
                   response_501 conn (client_writes (trace w)) |}).
Proof.
  intros [Hl Hb]. unfold response_501. apply clienterror_run.
  - eapply Nat.lt_le_trans; [|exact Hb]. apply Nat.ltb_lt. by vm_compute.
  - eapply Nat.lt_le_trans; [|exact Hl]. apply Nat.ltb_lt. by vm_compute.
Qed.

Lemma cleanup_run fd fd2 w :
  cleanup fd fd2 w
  = Done (tt, {| cache := cache w; trace := trace w ++ closes fd fd2 |}).
Proof.
  unfold cleanup, closes, mbind, io_bind, emit.
  destruct (fd2 =? -1), (fd =? -1); simpl;
    rewrite <- ?app_assoc, ?app_nil_r, ?world_eta; done.
Qed.

(** The end of the headers neither writes nor touches the cache. *)
Lemma finish_request_world fBuf w r w' :
  finish_request MAXLINE MAXBUF conn fBuf w = Done (r, w') -> w' = w.
Proof.
  unfold finish_request. intros H.
  repeat case_match; simplify_eq/=; try done;
    repeat (apply io_bind_inv in H as (? & ? & [_ ->]%lift_inv & H));
    unfold mret, io_ret in H; by simplify_eq/=.
Qed.

Lemma read_headers_world lines fBuf w r w' :
  read_headers MAXLINE MAXBUF conn lines fBuf w = Done (r, w') -> w' = w.
Proof.
  revert fBuf. induction lines as [|l lines IH]; intros fBuf; simpl.
  - by intros [= _ ->].
  - destruct (String.length (hl_line l) =? 0)%nat; [by intros [= _ ->]|].
    intros Hrun.
    apply io_bind_inv in Hrun as (buf & ? & [_ ->]%lift_inv & Hrun).
    destruct (String.eqb buf crlf); [by eapply finish_request_world|].
    destruct (hl_state l); try (by injection Hrun as _ ->);
      try (by eapply IH).
    destruct (hl_name l) as [name|]; [|by eapply IH].
    destruct (forwarded_header name); [|by eapply IH].
    apply io_bind_inv in Hrun as (? & ? & [_ ->]%lift_inv & Hrun).
    by eapply IH.
Qed.

(** [read_requestline] either leaves the world alone or refuses a method
    that is not GET with the 501 page. *)
Lemma read_requestline_Done buffer w n buffer' w' :
  read_requestline MAXLINE MAXBUF conn buffer w = Done ((n, buffer'), w') ->
  w' = w \/
  (n = -1 /\
   exists w0, clienterror MAXLINE MAXBUF conn "501" "Not Implemented"
                "Server couldn't find this file" w = Done (tt, w0) /\
              w' = w0).
Proof.
  unfold read_requestline. intros Hrun.
  destruct (cl_reqline conn) as [line|]; [|left; by injection Hrun as _ _ ->].
  destruct (String.length line =? 0)%nat; [left; by injection Hrun as _ _ ->|].
  apply io_bind_inv in Hrun as (b & ? & [_ ->]%lift_inv & Hrun).
  destruct (cl_reqstate conn); try (left; by injection Hrun as _ _ ->).
  destruct (cl_scan conn) as [[[method uri] version]|];
    [|left; by injection Hrun as _ _ ->].
  destruct (negb (Ascii.eqb version "0") && negb (Ascii.eqb version "1"));
    [left; by injection Hrun as _ _ ->|].
  destruct (negb (String.eqb method "GET")).
  - apply io_bind_inv in Hrun as ([] & w0 & Herr & Hrun).
    injection Hrun as <- _ <-. right. split; [done|]. by exists w0.
  - destruct (cl_path conn) as [mPath|]; [|left; by injection Hrun as _ _ ->].
    apply lift_inv in Hrun as [_ ->]. by left.
Qed.

(** [read_request] writes to the client at most and leaves the cache
    alone. *)
Lemma read_request_Done fBuf w r w' :
  read_request MAXLINE MAXBUF conn fBuf w = Done (r, w') ->
  cache w' = cache w /\
  exists evs, trace w' = trace w ++ evs /\
              Forall (fun ev => is_client_write ev = true) evs.
Proof.
  unfold read_request. intros H.
  apply io_bind_inv in H as ([n b] & w1 & Hline & H).
  assert (cache w1 = cache w /\
          exists evs, trace w1 = trace w ++ evs /\
                      Forall (fun ev => is_client_write ev = true) evs)
    as Hw1.
  { apply read_requestline_Done in Hline as [->|(_ & w0 & Herr & ->)].
    - split; [done|]. exists []. by rewrite app_nil_r.
    - by eapply clienterror_Done. }
  case_match.
  - by injection H as <- <-.
  - by apply read_headers_world in H as ->.
Qed.

Lemma length_list_ascii_of_string (str : string) :
  length (list_ascii_of_string str) = String.length str.
Proof. induction str as [|a str IH]; simpl; [done|by rewrite IH]. Qed.

(** A request line with a method that is not GET: [read_requestline]
    answers with the 501 page and returns -1. *)
Lemma read_requestline_non_get method fBuf w :
  roomy MAXLINE MAXBUF -> request_with_method MAXBUF conn method ->
  method <> "GET"%string ->
  exists fBuf',
    read_requestline MAXLINE MAXBUF conn fBuf w
    = Done ((-1, fBuf'),
            {| cache := cache w;
               trace := trace w ++
                 response_501 conn (client_writes (trace w)) |}).
Proof.
  intros Hroomy (line & uri & version & Hline & Hlen & Hstate & Hscan & Hv)
    Hget.
  unfold read_requestline. rewrite Hline.
  destruct (Nat.eqb_spec (String.length line) 0) as [|_]; [lia|].
  unfold put_cstr. rewrite length_list_ascii_of_string.
  destruct (Nat.leb_spec (0 + String.length line + 1) MAXBUF) as [_|]; [|lia].
  rewrite (io_bind_Done _ _ w _ w eq_refl), Hstate, Hscan.
  assert (negb (Ascii.eqb version "0") && negb (Ascii.eqb version "1") = false)
    as ->.
  { destruct Hv as [-> | ->]; reflexivity. }
  apply String.eqb_neq in Hget. rewrite Hget. cbn [negb].
  eexists. by rewrite (io_bind_Done _ _ _ _ _ (not_implemented_run w Hroomy)).
Qed.

Lemma read_request_non_get method fBuf w :
  roomy MAXLINE MAXBUF -> request_with_method MAXBUF conn method ->
  method <> "GET"%string ->
  exists fBuf',
    read_request MAXLINE MAXBUF conn fBuf w
    = Done ((true, fBuf'),
            {| cache := cache w;
               trace := trace w ++
                 response_501 conn (client_writes (trace w)) |}).
Proof.
  intros Hroomy Hreq Hget.
  destruct (read_requestline_non_get method fBuf w Hroomy Hreq Hget)
    as [fBuf' Hline].
  exists fBuf'. unfold read_request.
  by rewrite (io_bind_Done _ _ _ _ _ Hline).
Qed.

(** A refused request: the 400 page, then the descriptor is closed. *)
Lemma threadRoutine_refused w fBuf w1 :
  roomy MAXLINE MAXBUF ->
  read_request MAXLINE MAXBUF conn (mem_buffer conn) w
  = Done ((true, fBuf), w1) ->
  threadRoutine MAXLINE MAXBUF conn w
  = Done (tt, {| cache := cache w1;
                 trace := trace w1 ++
                   response_400 conn (client_writes (trace w1)) ++
                   closes (connfd conn) (-1) |}).
Proof.
  intros Hroomy Hread. unfold threadRoutine.
  rewrite (io_bind_Done _ _ _ _ _ Hread). cbn beta iota.
  rewrite (io_bind_Done _ _ _ _ _ (bad_request_run w1 Hroomy)).
  rewrite cleanup_run. cbn [cache trace]. by rewrite <- app_assoc.
Qed.

Lemma run_refused c fBuf w1 :
  roomy MAXLINE MAXBUF ->
  read_request MAXLINE MAXBUF conn (mem_buffer conn)
    {| cache := c; trace := [] |} = Done ((true, fBuf), w1) ->
  run MAXLINE MAXBUF conn c
  = Done (cache w1, trace w1 ++
                    response_400 conn (client_writes (trace w1)) ++
                    closes (connfd conn) (-1)).
Proof.
  intros Hroomy Hread. unfold run.
  by rewrite (threadRoutine_refused _ _ _ Hroomy Hread).
Qed.

(** ** The events of a run *)

Lemma only_ret {A : Type} P (a : A) : only P (mret a).
Proof.
  intros w ? w' [= _ <-]. exists []. by rewrite app_nil_r.
Qed.

Lemma only_lift {A : Type} P (r : result A) : only P (lift r).
Proof.
  intros w a w' [_ ->]%lift_inv. exists []. by rewrite app_nil_r.
Qed.

Lemma only_emit P ev : P ev -> only P (emit ev).
Proof.
  intros Hev w a w' [= _ <-]. exists [ev]. split; [done|]. by constructor.
Qed.

Lemma only_bind {A B : Type} P (m : io A) (k : A -> io B) :
  only P m -> (forall a, only P (k a)) -> only P (m ≫= k).
Proof.
  intros Hm Hk w b w'' (a & w' & H1 & H2)%io_bind_inv.
  apply Hm in H1 as (evs1 & Htr1 & Hevs1).
  apply Hk in H2 as (evs2 & Htr2 & Hevs2).
  exists (evs1 ++ evs2). rewrite app_assoc, <- Htr1. split; [done|].
  by apply Forall_app.
Qed.

Lemma only_client P {A : Type} (m : io A) :
  (forall bytes, P (ClientWrite bytes)) ->
  only (fun ev => is_client_write ev = true) m -> only P m.
Proof.
  intros HP Hm w a w' (evs & Htr & Hevs)%Hm. exists evs. split; [done|].
  eapply Forall_impl; [exact Hevs|]. by intros [] ?.
Qed.

Lemma only_rio_writen_client P bytes :
  (forall b, P (ClientWrite b)) -> only P (rio_writen_client conn bytes).
Proof.
  intros HP w a w' [= _ <-]. eexists. split; [done|]. by constructor.
Qed.

Lemma only_clienterror P e sm lm :
  (forall b, P (ClientWrite b)) ->
  only P (clienterror MAXLINE MAXBUF conn e sm lm).
Proof.
  intros HP. apply only_client; [done|].
  intros w a w' H. by apply clienterror_Done in H as [_ ?].
Qed.

Lemma only_cleanup P fd fd2 : (forall d, P (Close d)) -> only P (cleanup fd fd2).
Proof.
  intros HP. unfold cleanup.
  apply only_bind; [|intros _]; case_match;
    by (apply only_ret || apply only_emit).
Qed.

Lemma only_read_request P fBuf :
  (forall b, P (ClientWrite b)) ->
  only P (read_request MAXLINE MAXBUF conn fBuf).
Proof.
  intros HP. apply only_client; [done|].
  intros w a w' H. by apply read_request_Done in H as [_ ?].
Qed.

Lemma only_serve_cache P uri :
  (forall b, P (ClientWrite b)) -> P (CacheLookup uri) ->
  only P (serve_cache uri).
Proof.
  intros HP Hl w a w'. unfold serve_cache. intros H.
  bind_inv H as E. destruct a0 as [[hit written] c']. injection H as <- <-.
  eexists. split; [done|]. destruct hit; by repeat constructor.
Qed.

Lemma load_store (b : array) (chunk : list ascii) :
  load (store b 0 chunk) (length chunk) = chunk.
Proof.
  unfold load. apply list_eq. intros i.
  rewrite list_lookup_fmap. destruct (decide (i < length chunk)%nat) as [Hi|Hi].
  - rewrite lookup_seq_lt by done. simpl. unfold store.
    destruct (Nat.leb_spec 0 i); [|lia].
    destruct (Nat.ltb_spec i (0 + length chunk)); [|lia]. simpl.
    rewrite Nat.sub_0_r, nth_lookup.
    by destruct (lookup_lt_is_Some_2 chunk i Hi) as [x ->].
  - rewrite lookup_seq_ge, lookup_ge_None_2 by lia. done.
Qed.

(** The loop that hands the response on: the chunks it has dealt with,
    the array, the total and the flag when it ends. *)
Lemma relay_Done chunks b t f i w b' t' f' w' :
  relay conn chunks b t f i w = Done ((b', t', f'), w') ->
  exists received,
    received `prefix_of` chunks /\
    (Forall (fun ch => (0 < length ch)%nat) chunks -> received = chunks) /\
    cache w' = cache w /\
    trace w' = trace w ++ (ClientWrite <$> received) /\
    b' = overlaid b received /\
    t' = t + Z.of_nat (length (concat received)) /\
    (f' = true -> f = true /\ (received <> [] -> t' <= Cache.MAX_OBJECT_SIZE)) /\
    (f = true -> t' <= Cache.MAX_OBJECT_SIZE -> f' = true).
Proof.
  revert b t f i w. induction chunks as [|chunk chunks IH];
    intros b t f i w; simpl.
  - intros [= <- <- <- <-]. exists []. simpl.
    rewrite app_nil_r, Z.add_0_r. by split_and!.
  - destruct (Z.leb_spec (Z.of_nat (length chunk)) 0) as [Hempty|Hpos].
    { intros [= <- <- <- <-]. exists []. simpl.
      rewrite app_nil_r, Z.add_0_r. split_and!; try done.
      - apply prefix_nil.
      - intros [Hch _]%Forall_cons. lia. }
    destruct (Cache.MAX_OBJECT_SIZE <? Z.of_nat (length chunk));
      [by intros [? ?]%lift_inv|].
    intros H.
    apply io_bind_inv in H as (ok & w1 & Hw & H). injection Hw as _ <-.
    apply io_bind_inv in H as (tot & ? & [Htot ->]%lift_inv & H).
    apply int_op_Done in Htot as [-> _].
    apply io_bind_inv in H as (i' & ? & [_ ->]%lift_inv & H).
    apply IH in H as (received & Hpre & Hall & Hc & Htr & -> & -> & Hf1 & Hf2).
    rewrite Nat2Z.id, load_store in Htr. simpl in Hc, Htr.
    exists (chunk :: received). simpl. split_and!.
    + by apply prefix_cons.
    + intros [_ Hch]%Forall_cons. by rewrite Hall.
    + done.
    + by rewrite Htr, <- app_assoc.
    + done.
    + rewrite length_app. lia.
    + intros Hf'. destruct (Hf1 Hf') as [Hflag Hle].
      destruct (Z.ltb_spec Cache.MAX_OBJECT_SIZE (t + Z.of_nat (length chunk)));
        [done|]. split; [done|]. intros _.
      destruct received as [|ch received]; [simpl; lia|by apply Hle].
    + intros -> Hle. apply Hf2; [|done].
      destruct (Z.ltb_spec Cache.MAX_OBJECT_SIZE (t + Z.of_nat (length chunk)));
        [lia|done].
Qed.

Lemma only_relay P chunks b t f i :
  (forall bytes, P (ClientWrite bytes)) -> only P (relay conn chunks b t f i).
Proof.
  intros HP w [[b' t'] f'] w' H.
  apply relay_Done in H as (received & _ & _ & _ & Htr & _).
  eexists. split; [exact Htr|]. apply Forall_fmap, Forall_true.
  intros ch. apply HP.
Qed.

Lemma only_bind_post {A B : Type} P (Q : A -> Prop) (m : io A)
    (k : A -> io B) :
  (forall w a w', m w = Done (a, w') -> Q a) ->
  only P m -> (forall a, Q a -> only P (k a)) -> only P (m ≫= k).
Proof.
  intros HQ Hm Hk w b w'' (a & w' & H1 & H2)%io_bind_inv.
  pose proof (HQ _ _ _ H1) as Ha.
  apply Hm in H1 as (evs1 & Htr1 & Hevs1).
  apply (Hk a Ha) in H2 as (evs2 & Htr2 & Hevs2).
  exists (evs1 ++ evs2). rewrite app_assoc, <- Htr1. split; [done|].
  by apply Forall_app.
Qed.

Lemma only_add_to_cache P uri b sz :
  P (CacheAdmit uri b sz) -> only P (add_to_cache conn uri b sz).
Proof.
  intros HP w a w'. unfold add_to_cache. intros H.
  bind_inv H as E. destruct a0 as [r c']. injection H as <- <-.
  eexists. split; [done|]. by repeat constructor.
Qed.

Lemma length_load (a : array) (n : nat) : length (load a n) = n.
Proof. unfold load. by rewrite length_fmap, length_seq. Qed.

(** Every event of [threadRoutine] once the origin is connected. *)
Lemma only_fetch uri buffer fd :
  cl_uri conn = Some uri ->
  only (event_ok MAXBUF conn) (fetch MAXLINE MAXBUF conn uri buffer fd).
Proof.
  intros Huri. unfold fetch.
  apply only_bind.
  { apply only_bind; [|intros _; apply only_ret].
    apply only_emit. simpl. apply length_load. }
  intros sent. destruct (negb sent).
  { apply only_bind; [by apply only_clienterror|intros _].
    by apply only_cleanup. }
  apply (only_bind_post _
           (fun '(cacheBuf, totalBytesR, is_cacheable) =>
              is_cacheable = true ->
              event_ok MAXBUF conn (CacheAdmit uri cacheBuf totalBytesR))).
  - intros w [[b' t'] f'] w' H Hf.
    apply relay_Done in H
      as (received & Hpre & Hall & _ & _ & -> & -> & Hf1 & _).
    simpl. split; [done|]. exists received. split_and!; try done.
    destruct (Hf1 Hf) as [_ Hle]. destruct received as [|ch received].
    + by vm_compute.
    + by apply Hle.
  - by apply only_relay.
  - intros [[b' t'] f'] Hadm.
    apply only_bind; [|intros _; by apply only_cleanup].
    destruct f'; [|apply only_ret].
    apply only_bind; [|intros _; apply only_ret].
    apply only_add_to_cache. by apply Hadm.
Qed.

(** Every event of [threadRoutine]. *)
Lemma only_threadRoutine :
  only (event_ok MAXBUF conn) (threadRoutine MAXLINE MAXBUF conn).
Proof.
  unfold threadRoutine.
  apply only_bind; [by apply only_read_request|].
  intros [refused buffer]. destruct refused.
  { apply only_bind; [by apply only_clienterror|intros _].
    by apply only_cleanup. }
  destruct (cl_port conn) as [mPort|];
    [|apply only_bind; [by apply only_clienterror|intros _];
      by apply only_cleanup].
  destruct (cl_host conn) as [mHost|];
    [|apply only_bind; [by apply only_clienterror|intros _];
      by apply only_cleanup].
  destruct (cl_uri conn) as [mURI|] eqn:Huri;
    [|apply only_bind; [by apply only_clienterror|intros _];
      by apply only_cleanup].
  apply only_bind; [by apply only_serve_cache|].
  intros served. destruct served; [by apply only_cleanup|].
  apply only_bind.
  { apply only_bind; [by apply only_emit|intros _; apply only_ret]. }
  intros fd. destruct (fd <? 0); [by apply only_cleanup|].
  by apply only_fetch.
Qed.

(** ** The cache along a run *)







(** What a run hands to [add_to_cache]. *)
Lemma run_event_ok c c' tr ev :
  run MAXLINE MAXBUF conn c = Done (c', tr) -> ev ∈ tr ->
  event_ok MAXBUF conn ev.
Proof.
  unfold run. intros H Hin. bind_inv H as Hrun. destruct a as [[] w'].
  injection H as <- <-.
  apply only_threadRoutine in Hrun as (evs & Htr & Hevs). simpl in Htr.
  rewrite Htr in Hin. rewrite Forall_forall in Hevs. by apply Hevs.
Qed.


End PipelineFacts.

Section PageBytes.
Import Proxy.

(** What [clienterror] formats for the three calls of the proxy are the
    pages above. *)
Lemma response_400_bytes conn k :
  response_400 conn k = error_page conn k headers_400 body_400.
Proof. reflexivity. Qed.

Lemma response_501_bytes conn k :
  response_501 conn k = error_page conn k headers_501 body_501.
Proof. reflexivity. Qed.

Lemma response_500_bytes conn k :
  response_500 conn k = error_page conn k headers_500 body_500.
Proof. reflexivity. Qed.

Lemma error_page_client conn k headers body :
  Forall (fun ev => is_client_write ev = true)
    (error_page conn k headers body).
Proof. unfold error_page. case_match; by repeat constructor. Qed.

Lemma client_writes_error_page conn k headers body :
  client_writes (error_page conn k headers body)
  = if cl_write_ok conn k then 2%nat else 1%nat.
Proof. unfold error_page. by case_match. Qed.

End PageBytes.

(** * The claims about the pipeline *)

Section PipelineClaims.
Import Proxy.

(** C9 (a refused request).  Whenever [read_request] refuses the request,
    whatever it wrote before, the 501 page of a method that is not GET
    included, [threadRoutine] then writes the 400 Bad Request page on the
    same descriptor, the status line HTTP/1.0 400 Bad Request with its
    headers first and then the body, and closes the descriptor
    afterwards; the cache is as before. *)
Theorem refused_request_gets_400 MAXLINE MAXBUF conn c fBuf w1 :
  roomy MAXLINE MAXBUF ->
  read_request MAXLINE MAXBUF conn (mem_buffer conn)
    {| cache := c; trace := [] |} = Done ((true, fBuf), w1) ->
  Forall (fun ev => is_client_write ev = true) (trace w1) /\
  run MAXLINE MAXBUF conn c
  = Done (c, trace w1 ++
             error_page conn (client_writes (trace w1)) headers_400 body_400
             ++ closes (connfd conn) (-1)).
Proof.
  intros Hroomy Hread. pose proof Hread as Hframe.
  apply read_request_Done in Hframe as (Hcache & evs & Hevs & Hcl).
  simpl in Hcache, Hevs. subst. split; [done|].
  rewrite <- response_400_bytes.
  by rewrite (run_refused _ _ _ _ _ _ Hroomy Hread).
Qed.

Lemma roomy_csapp : roomy MAXLINE_csapp MAXBUF_csapp.
Proof. split; apply Nat.leb_le; by vm_compute. Qed.

Lemma post_x_request : request_with_method MAXBUF_csapp post_x "POST".
Proof.
  eexists _, _, _. split_and!; try reflexivity.
  - apply Nat.ltb_lt. by vm_compute.
  - apply Nat.ltb_lt. by vm_compute.
  - by right.
Qed.

Lemma refused_request_gets_400_witness :
  run MAXLINE_csapp MAXBUF_csapp post_x Cache.init_web_cache
  = Done (Cache.init_web_cache,
          [ClientWrite
             (list_ascii_of_string
                ("HTTP/1.0 501 Not Implemented" +:+ crlf +:+
                 "Content-Type: text/html" +:+ crlf +:+
                 "Content-Length: 178" +:+ crlf +:+ crlf));
           ClientWrite (list_ascii_of_string body_501);
           ClientWrite
             (list_ascii_of_string
                ("HTTP/1.0 400 Bad Request" +:+ crlf +:+
                 "Content-Type: text/html" +:+ crlf +:+
                 "Content-Length: 172" +:+ crlf +:+ crlf));
           ClientWrite (list_ascii_of_string body_400);
           Close 4]).
Proof.
  destruct (read_request_non_get MAXLINE_csapp MAXBUF_csapp post_x "POST"
              (mem_buffer post_x)
              {| cache := Cache.init_web_cache; trace := [] |}
              roomy_csapp post_x_request) as [fBuf Hread]; [done|].
  exact (proj2 (refused_request_gets_400 _ _ _ _ _ _ roomy_csapp Hread)).
Defined.

(** C7, counterexample: [POST http://h:80/x HTTP/1.2].  The version is
    tested before the method, so [read_requestline] returns without the
    501 page and the client is sent the 400 page only. *)
Lemma every_non_get_gets_501_fails : ~ every_non_get_gets_501.
Proof.
  intros Hclaim.
  destruct (Hclaim MAXLINE_csapp MAXBUF_csapp post_x_1_2
              Cache.init_web_cache
              ("POST http://h:80/x HTTP/1.2" +:+ crlf)%string
              "POST"%string "http://h:80/x"%string "2"%char
              roomy_csapp eq_refl) as (c' & rest & Hrun & _).
  - split; apply Nat.ltb_lt; by vm_compute.
  - reflexivity.
  - reflexivity.
  - done.
  - vm_compute in Hrun. discriminate Hrun.
Qed.

(** C7 (a method that is not GET), amended.  For a request line that is
    well formed (it is read, the parser takes it for a request line,
    sscanf finds its three fields and the version is 1.0 or 1.1) and
    whose method is not GET, the first thing the client is sent is the
    501 Not Implemented page, the status line HTTP/1.0 501 Not
    Implemented with its headers and then the body; the 400 page
    follows on the same descriptor, which is then closed.  The cache is
    left alone and [open_clientfd] is not called. *)
Theorem non_get_gets_501 MAXLINE MAXBUF conn c method :
  roomy MAXLINE MAXBUF -> request_with_method MAXBUF conn method ->
  method <> "GET"%string ->
  let first := error_page conn 0 headers_501 body_501 in
  let tr :=
    first
    ++ error_page conn (client_writes first) headers_400 body_400
    ++ closes (connfd conn) (-1) in
  run MAXLINE MAXBUF conn c = Done (c, tr) /\
  Forall (fun ev => is_origin_open ev = false) tr.
Proof.
  intros Hroomy Hreq Hget first tr.
  destruct (read_request_non_get MAXLINE MAXBUF conn method (mem_buffer conn)
              {| cache := c; trace := [] |} Hroomy Hreq Hget)
    as [fBuf Hread].
  pose proof (run_refused _ _ _ _ _ _ Hroomy Hread) as Hrun.
  cbn [cache trace app] in Hrun.
  rewrite response_400_bytes, response_501_bytes in Hrun.
  split; [exact Hrun|].
  unfold tr, first, error_page, closes.
  repeat (apply Forall_app; split); repeat case_match;
    by repeat constructor.
Qed.

Lemma non_get_gets_501_witness :
  let tr :=
    [ClientWrite
       (list_ascii_of_string
          ("HTTP/1.0 501 Not Implemented" +:+ crlf +:+
           "Content-Type: text/html" +:+ crlf +:+
           "Content-Length: 178" +:+ crlf +:+ crlf));
     ClientWrite (list_ascii_of_string body_501);
     ClientWrite
       (list_ascii_of_string
          ("HTTP/1.0 400 Bad Request" +:+ crlf +:+
           "Content-Type: text/html" +:+ crlf +:+
           "Content-Length: 172" +:+ crlf +:+ crlf));
     ClientWrite (list_ascii_of_string body_400);
     Close 4] in
  run MAXLINE_csapp MAXBUF_csapp post_x Cache.init_web_cache
  = Done (Cache.init_web_cache, tr) /\
  Forall (fun ev => is_origin_open ev = false) tr.
Proof.
  apply (non_get_gets_501 MAXLINE_csapp MAXBUF_csapp post_x
           Cache.init_web_cache "POST" roomy_csapp post_x_request).
  done.
Defined.

(** Every write to the origin has MAXBUF bytes, whatever the request. *)
Lemma origin_write_length MAXLINE MAXBUF conn c c' tr bytes :
  run MAXLINE MAXBUF conn c = Done (c', tr) -> OriginWrite bytes ∈ tr ->
  length bytes = MAXBUF.
Proof. intros Hrun Hin. exact (run_event_ok _ _ _ _ _ _ _ Hrun Hin). Qed.

(** C6 (the write to the origin), at the failing input.  For
    [GET http://h:80/x HTTP/1.1] the rewritten request has 161 bytes; the
    one write to the origin has the 8192 bytes of [buffer]: the request,
    its NUL and what the array held before. *)
Theorem origin_write_is_whole_buffer :
  let request :=
    list_ascii_of_string
      ("GET /x HTTP/1.0" +:+ crlf +:+
       "Host: h:80" +:+ crlf +:+
       "User-Agent: " +:+ header_user_agent +:+ crlf +:+
       "Connection: close" +:+ crlf +:+
       "Proxy-Connection: close" +:+ crlf +:+ crlf) in
  let leftover := replicate (Z.to_nat 8030) "#"%char in
  exists c' tr,
    run MAXLINE_csapp MAXBUF_csapp
      (get_x [list_ascii_of_string "hello"]) Cache.init_web_cache
    = Done (c', tr) /\
    origin_writes tr = [request ++ NUL :: leftover] /\
    Z.of_nat (length request) = 161 /\
    Z.of_nat (length (request ++ NUL :: leftover)) = 8192.
Proof.
  intros request leftover. eexists _, _. split; [vm_compute; reflexivity|].
  split_and!; vm_compute; reflexivity.
Qed.

(** C5 (admission of an empty response), at the failing input.  When the
    origin delivers no byte, [add_to_cache] is called with the size 0, and
    an entry of 0 bytes is resident afterwards. *)
Theorem empty_response_is_admitted :
  exists c' tr cacheBuf,
    run MAXLINE_csapp MAXBUF_csapp (get_x []) Cache.init_web_cache
    = Done (c', tr) /\
    admissions_of tr = [CacheAdmit "http://h:80/x" cacheBuf 0] /\
    Cache.start c'
    = [ {| Cache.urlKey := "http://h:80/x"; Cache.object := [];
           Cache.objSize := 0; Cache.tStamp := 1;
           Cache.referenceCnt := 1 |} ].
Proof.
  eexists _, _, _. split; [vm_compute; reflexivity|].
  split; vm_compute; reflexivity.
Qed.

(** The admission is decided by the upper bound alone: every call of
    [add_to_cache] has a size from 0 to MAX_OBJECT_SIZE, the number of
    bytes received. *)
Lemma admission_size MAXLINE MAXBUF conn c c' tr uri cacheBuf sz :
  run MAXLINE MAXBUF conn c = Done (c', tr) ->
  CacheAdmit uri cacheBuf sz ∈ tr ->
  0 <= sz <= Cache.MAX_OBJECT_SIZE.
Proof.
  intros Hrun Hin.
  destruct (run_event_ok _ _ _ _ _ _ _ Hrun Hin)
    as (_ & received & _ & _ & _ & -> & Hle).
  lia.
Qed.

(** The contract of the reader cannot be left out: were the body to
    arrive as "ab" and then "c", a short count before the end of the
    input, the second chunk would be read over the first one and
    [add_to_cache] handed "cb" and the byte the array held before. *)
Lemma admitted_is_whole_body_fails : ~ admitted_is_whole_body.
Proof.
  intros Hclaim.
  set (conn := get_x [list_ascii_of_string "ab"; list_ascii_of_string "c"]).
  assert (exists c' tr cacheBuf,
            run MAXLINE_csapp MAXBUF_csapp conn Cache.init_web_cache
            = Done (c', tr) /\
            CacheAdmit "http://h:80/x" cacheBuf 3 ∈ tr /\
            load cacheBuf 3 = list_ascii_of_string "cb#")
    as (c' & tr & cacheBuf & Hrun & Hin & Hload).
  { eexists _, _, _. split; [vm_compute; reflexivity|].
    split; [by repeat constructor|]. vm_compute. reflexivity. }
  assert (Forall (fun ch => 0 < Z.of_nat (length ch) <= Cache.MAX_OBJECT_SIZE)
            (or_chunks conn)) as Hwf.
  { repeat constructor; by vm_compute. }
  pose proof (Hclaim _ _ conn _ _ _ _ _ _ Hwf Hrun Hin) as Habs.
  change (Z.to_nat 3) with 3%nat in Habs. rewrite Hload in Habs.
  vm_compute in Habs. discriminate Habs.
Qed.



End PipelineClaims.

(** * Further properties of the cache *)

Section CacheInvariants.
Import Cache.

Lemma serve_cache_keys key c r written c' :
  serve_cache key c = Done (r, written, c') ->
  resident_keys c' = resident_keys c.
Proof.
  intros H. apply serve_cache_Done in H as (_ & _ & _ & Hhit).
  unfold resident_keys.
  destruct (get_obj_with_key key c) as [[i o]|] eqn:Hget.
  - destruct Hhit as (_ & _ & ->).
    apply get_obj_with_key_lookup in Hget as [Hi _].
    rewrite list_fmap_insert. apply list_insert_id.
    by rewrite list_lookup_fmap, Hi.
  - by destruct Hhit as (_ & _ & ->).
Qed.

Lemma step_keys_nodup o c c' :
  NoDup (resident_keys c) -> step o c = Done c' -> NoDup (resident_keys c').
Proof.
  intros Hdup H. destruct o as [key buf sz m|key]; simpl in H.
  - bind_inv H as Hadd. destruct a as [r c1]. injection H as <-.
    apply add_to_cache_Done in Hadd
      as [(_ & -> & _)|[(_ & -> & _)|
          (_ & Hnew & _ & kept & Hstart & Hsub & _)]]; [done|done|].
    unfold resident_keys in *. rewrite Hstart. csimpl.
    assert (sublist (urlKey <$> kept) (urlKey <$> start c)) as Hsubk
      by by apply fmap_sublist.
    apply NoDup_cons. split.
    + intros Hin. apply Hnew. by eapply elem_of_sublist.
    + by eapply sublist_NoDup.
  - bind_inv H as Hs. destruct a as [[r w] c1]. injection H as <-.
    by rewrite (serve_cache_keys _ _ _ _ _ Hs).
Qed.

Lemma step_clock o c c' :
  step o c = Done c' -> LRU c' = LRU c + (if is_lookup o then 1 else 0).
Proof.
  intros H. destruct o as [key buf sz m|key]; simpl in *.
  - bind_inv H as Hadd. destruct a as [r c1]. injection H as <-.
    apply add_to_cache_Done in Hadd
      as [(_ & -> & _)|[(_ & -> & _)|
          (_ & _ & _ & kept & _ & _ & Hl & _)]]; lia.
  - bind_inv H as Hs. destruct a as [[r w] c1]. injection H as <-.
    by apply serve_cache_Done in Hs as (_ & Hl & _).
Qed.

Lemma step_entries_ok o c c' :
  Forall entry_ok (start c) -> admit_size_ok o -> step o c = Done c' ->
  Forall entry_ok (start c').
Proof.
  intros Hall Hok H. destruct o as [key buf sz m|key]; simpl in *.
  - bind_inv H as Hadd. destruct a as [r c1]. injection H as <-.
    apply add_to_cache_Done in Hadd
      as [(_ & -> & _)|[(_ & -> & _)|
          (_ & _ & _ & kept & Hstart & Hsub & _)]]; [done|done|].
    rewrite Hstart. apply Forall_cons. split.
    + unfold entry_ok. simpl. by rewrite length_load.
    + by eapply Forall_sublist.
  - bind_inv H as Hs. destruct a as [[r w] c1]. injection H as <-.
    apply serve_cache_Done in Hs as (_ & _ & _ & Hhit).
    destruct (get_obj_with_key key c) as [[i o]|] eqn:Hget.
    + destruct Hhit as (_ & _ & ->).
      apply get_obj_with_key_lookup in Hget as [Hi _].
      apply Forall_insert; [done|].
      rewrite Forall_lookup in Hall. exact (Hall _ _ Hi).
    + by destruct Hhit as (_ & _ & ->).
Qed.

(** What holds after a sequence of calls from the empty cache. *)
Lemma run_invariants ops c c' :
  sound c -> NoDup (resident_keys c) -> Forall entry_ok (start c) ->
  Forall admit_size_ok ops -> run ops c = Done c' ->
  sound c' /\ NoDup (resident_keys c') /\ Forall entry_ok (start c') /\
  LRU c' = LRU c + lookups ops.
Proof.
  intros Hc Hdup Hall Hok. revert c Hc Hdup Hall.
  induction Hok as [|o ops Ho _ IH]; intros c Hc Hdup Hall H; simpl in H.
  - injection H as <-. unfold lookups. simpl. split_and!; [done..|lia].
  - bind_inv H as Hstep.
    destruct (step_sound _ _ _ Hc Ho Hstep) as [Hc1 Hl1].
    pose proof (step_keys_nodup _ _ _ Hdup Hstep) as Hdup1.
    pose proof (step_entries_ok _ _ _ Hall Ho Hstep) as Hall1.
    destruct (IH _ Hc1 Hdup1 Hall1 H) as (? & ? & ? & Hl).
    split_and!; [done..|]. rewrite lookups_cons. lia.
Qed.

(** X1 (unique keys).  After every sequence of admissions and lookups
    that starts from the empty cache, no two resident entries have the
    same key. *)
Theorem keys_are_unique (ops : list op) c :
  run ops init_web_cache = Done c -> NoDup (resident_keys c).
Proof.
  revert c. generalize (NoDup_nil_2 (A := string)).
  change [] with (resident_keys init_web_cache).
  generalize init_web_cache.
  induction ops as [|o ops IH]; intros c0 Hdup c H; simpl in H.
  - by injection H as <-.
  - bind_inv H as Hstep. eapply IH; [|exact H]. by eapply step_keys_nodup.
Qed.

Lemma keys_are_unique_witness :
  let ops := [Admit "a" (fun _ => "x"%char) 5 mallocs_ok;
              Admit "a" (fun _ => "y"%char) 7 mallocs_ok;
              Lookup "a";
              Admit "b" (fun _ => "z"%char) 2 mallocs_ok] in
  exists c, run ops init_web_cache = Done c /\
            resident_keys c = ["b"; "a"]%string /\ NoDup (resident_keys c).
Proof.
  intros ops. eexists. split; [reflexivity|]. split; [reflexivity|].
  eapply (keys_are_unique ops). reflexivity.
Defined.

(** X2 (resident entries).  After every sequence of admissions, each of a
    size in (0, MAX_OBJECT_SIZE], and lookups from the empty cache, every
    resident entry has a size in (0, MAX_OBJECT_SIZE], a body of exactly
    that many bytes, the reference count 1 and a stamp between 0 and the
    counter. *)
Theorem resident_entries_well_formed (ops : list op) c :
  Forall admit_size_ok ops -> run ops init_web_cache = Done c ->
  Forall (fun o =>
            0 < objSize o <= MAX_OBJECT_SIZE /\
            length (object o) = Z.to_nat (objSize o) /\
            referenceCnt o = 1 /\ 0 <= tStamp o <= LRU c) (start c).
Proof.
  intros Hok Hrun.
  destruct (run_invariants ops init_web_cache c sound_init) as
    ((_ & _ & Hset) & _ & Hall & _); [constructor|constructor|done|done|].
  apply Forall_lookup. intros i o Hi.
  rewrite Forall_lookup in Hset. rewrite Forall_lookup in Hall.
  destruct (Hset _ _ Hi) as (_ & Hrc & Hst). destruct (Hall _ _ Hi) as [? ?].
  tauto.
Qed.

Lemma resident_entries_well_formed_witness :
  let ops := [Lookup "a"; Admit "a" (fun _ => "x"%char) 5 mallocs_ok;
              Lookup "a"] in
  exists c, run ops init_web_cache = Done c /\
    Forall (fun o =>
              0 < objSize o <= MAX_OBJECT_SIZE /\
              length (object o) = Z.to_nat (objSize o) /\
              referenceCnt o = 1 /\ 0 <= tStamp o <= LRU c) (start c).
Proof.
  intros ops. eexists. split; [reflexivity|].
  apply (resident_entries_well_formed ops); [|reflexivity].
  repeat constructor; simpl; unfold MAX_OBJECT_SIZE; lia.
Defined.

(** X3 (the counter counts lookups).  After a sequence of calls from the
    empty cache the counter is the number of lookups made, hits and
    misses alike; admissions do not count. *)
Theorem clock_counts_lookups (ops : list op) c :
  run ops init_web_cache = Done c -> LRU c = lookups ops.
Proof.
  assert (forall c0, run ops c0 = Done c -> LRU c = LRU c0 + lookups ops)
    as Hgen.
  { induction ops as [|o ops IH]; intros c0 H; simpl in H.
    - injection H as <-. unfold lookups. simpl. lia.
    - bind_inv H as Hstep. apply step_clock in Hstep.
      apply IH in H. rewrite lookups_cons. lia. }
  intros H. apply Hgen in H. simpl in H. lia.
Qed.

Lemma clock_counts_lookups_witness :
  let ops := [Lookup "a"; Admit "a" (fun _ => "x"%char) 5 mallocs_ok;
              Lookup "a"; Lookup "b"] in
  exists c, run ops init_web_cache = Done c /\ LRU c = 3.
Proof.
  intros ops. eexists. split; [reflexivity|].
  rewrite (clock_counts_lookups ops _ eq_refl). reflexivity.
Defined.

End CacheInvariants.

Section CacheRoundTrips.
Import Cache.

Lemma get_obj_with_key_resident key c :
  key ∈ resident_keys c -> exists (i : nat) o, get_obj_with_key key c = Some (i, o).
Proof.
  intros Hin. unfold get_obj_with_key.
  destruct (get_obj_from key (start c) 0) as [[i o]|] eqn:Hget; [eauto|].
  by apply get_obj_from_None in Hget.
Qed.

Lemma get_obj_with_key_absent key c :
  key ∉ resident_keys c -> get_obj_with_key key c = None.
Proof. intros Hnot. by apply get_obj_from_None. Qed.

Lemma take_load (a : array) (n : nat) : take n (load a n) = load a n.
Proof. apply take_ge. by rewrite length_load. Qed.

(** What a resident cell holds comes from the cache before the call or
    from the admission made by the call. *)
Lemma step_payload o c c' x :
  step o c = Done c' -> x ∈ start c' ->
  (exists x0, x0 ∈ start c /\ same_payload x0 x) \/
  (exists buf sz m, o = Admit (urlKey x) buf sz m /\
                    object x = load buf (Z.to_nat sz) /\ objSize x = sz).
Proof.
  intros H Hx. destruct o as [key buf sz m|key]; simpl in H.
  - bind_inv H as Hadd. destruct a as [r c1]. injection H as <-.
    apply add_to_cache_Done in Hadd
      as [(_ & -> & _)|[(_ & -> & _)|
          (_ & _ & _ & kept & Hstart & Hsub & _)]];
      [left; by exists x|left; by exists x|].
    rewrite Hstart in Hx. apply elem_of_cons in Hx as [->|Hx].
    + right. by exists buf, sz, m.
    + left. exists x. split; [by eapply elem_of_sublist|done].
  - bind_inv H as Hs. destruct a as [[r w] c1]. injection H as <-.
    apply serve_cache_Done in Hs as (_ & _ & _ & Hhit). left.
    destruct (get_obj_with_key key c) as [[i o]|] eqn:Hget.
    + destruct Hhit as (_ & _ & Hstart). rewrite Hstart in Hx.
      apply get_obj_with_key_lookup in Hget as [Hi _].
      apply list_elem_of_lookup in Hx as [j Hj].
      destruct (decide (i = j)) as [<-|Hne].
      * rewrite list_lookup_insert_eq in Hj by by eapply lookup_lt_Some.
        injection Hj as <-. exists o.
        split; [by eapply list_elem_of_lookup_2|done].
      * rewrite list_lookup_insert_ne in Hj by done. exists x.
        split; [by eapply list_elem_of_lookup_2|done].
    + destruct Hhit as (_ & _ & Hstart). rewrite Hstart in Hx. by exists x.
Qed.

Lemma run_payload ops c c' x :
  run ops c = Done c' -> x ∈ start c' ->
  (exists x0, x0 ∈ start c /\ same_payload x0 x) \/
  (exists buf sz m, Admit (urlKey x) buf sz m ∈ ops /\
                    object x = load buf (Z.to_nat sz) /\ objSize x = sz).
Proof.
  revert c. induction ops as [|o ops IH]; intros c H Hx; simpl in H.
  - injection H as <-. left. by exists x.
  - bind_inv H as Hstep.
    destruct (IH _ H Hx) as [(x1 & Hx1 & Hk & Hb & Hs)|(buf & sz & m & Hin & ?)].
    + destruct (step_payload _ _ _ _ Hstep Hx1)
        as [(x0 & Hx0 & Hk0 & Hb0 & Hs0)|(buf & sz & m & -> & Hb0 & Hs0)].
      * left. exists x0. split; [done|]. unfold same_payload.
        split_and!; congruence.
      * right. exists buf, sz, m. rewrite Hk.
        split; [apply list_elem_of_here|]. split; congruence.
    + right. exists buf, sz, m. split; [by apply list_elem_of_further|done].
Qed.

(** Unlinking a cell of [l1 ++ x :: l2] either unlinks [x] or gives a
    list of that shape again. *)
Lemma delete_around {A : Type} (l1 l2 : list A) (x : A) (k : nat) v :
  (l1 ++ x :: l2) !! k = Some v ->
  (k = length l1 /\ v = x) \/
  (exists l1', delete k (l1 ++ x :: l2) = l1' ++ x :: l2 /\ sublist l1' l1) \/
  (exists l2', delete k (l1 ++ x :: l2) = l1 ++ x :: l2' /\ sublist l2' l2).
Proof.
  revert k. induction l1 as [|a l1 IH]; intros [|k]; simpl.
  - intros [= ->]. by left.
  - intros Hk. right; right. exists (delete k l2).
    split; [done|apply sublist_delete].
  - intros [= ->]. right; left. exists l1. split; [done|by apply sublist_cons].
  - intros Hk. destruct (IH _ Hk) as [[-> ->]|[(l1' & -> & Hsub)|(l2' & -> & Hsub)]].
    + by left.
    + right; left. exists (a :: l1'). split; [done|by apply sublist_skip].
    + right; right. by exists l2'.
Qed.

(** The loop of [cache_eviction] does not unlink a cell whose stamp is
    above all the others when that cell and the new object fit
    together. *)
Lemma cache_eviction_loop_keeps (fuel : nat) sz c c' l1 o l2 :
  start c = l1 ++ o :: l2 ->
  size c = resident_bytes c ->
  Forall (fun x => tStamp x < tStamp o) (l1 ++ l2) ->
  objSize o + sz <= MAX_CACHE_SIZE ->
  cache_eviction_loop fuel sz c = Done c' ->
  o ∈ start c'.
Proof.
  assert (forall c l1 l2, start c = l1 ++ o :: l2 -> o ∈ start c) as Hhere.
  { intros c0 k1 k2 ->. apply elem_of_app. right. apply list_elem_of_here. }
  revert c l1 l2.
  induction fuel as [|fuel IH]; intros c l1 l2 Hstart Hsum Hall Hfit H;
    simpl in H; int_inv H;
    destruct (Z.ltb_spec MAX_CACHE_SIZE (size c + sz)) as [Hover|_];
    try discriminate; try (injection H as <-; by eapply Hhere).
  bind_inv H as E.
  apply evict_one_Done in E as (i & v & Hi & Hst & Hsize & _ & Hmin & _).
  assert (size a = resident_bytes a) as Hsum'.
  { rewrite !resident_bytes_sum in *. rewrite Hst, Hsize.
    rewrite (sum_sizes_delete _ _ _ Hi). lia. }
  rewrite Hstart in Hi, Hst.
  destruct (delete_around _ _ _ _ _ Hi)
    as [[-> ->]|[(l1' & Hdel & Hsub)|(l2' & Hdel & Hsub)]].
  - exfalso. destruct (l1 ++ l2) as [|y rest] eqn:Hrest.
    + apply app_eq_nil in Hrest as [-> ->].
      rewrite resident_bytes_sum, Hstart in Hsum.
      unfold sum_sizes in Hsum. simpl in Hsum. lia.
    + assert (y ∈ l1 ++ l2) as Hy by (rewrite Hrest; apply list_elem_of_here).
      apply Forall_cons in Hall as [Hlt _].
      assert (y ∈ start c) as Hyc.
      { rewrite Hstart. apply elem_of_app in Hy as [?|?]; apply elem_of_app;
          [by left|right; by apply list_elem_of_further]. }
      apply Hmin in Hyc. lia.
  - rewrite Hdel in Hst. eapply (IH a l1' l2); try done.
    apply Forall_app in Hall as [H1 H2]. apply Forall_app. split; [|done].
    by eapply Forall_sublist.
  - rewrite Hdel in Hst. eapply (IH a l1 l2'); try done.
    apply Forall_app in Hall as [H1 H2]. apply Forall_app. split; [done|].
    by eapply Forall_sublist.
Qed.

(** An object above the budget makes the loop of [cache_eviction] unlink
    every cell and then use the victim that no round of the scan has
    set. *)
Lemma cache_eviction_loop_oversize (fuel : nat) lru sz c :
  size c = resident_bytes c -> size c <= MAX_CACHE_SIZE ->
  Forall (settled lru) (start c) -> lru < INT_MAX ->
  MAX_CACHE_SIZE < sz <= INT_MAX - MAX_CACHE_SIZE ->
  (length (start c) < fuel)%nat ->
  cache_eviction_loop fuel sz c = Fault UninitVictim.
Proof.
  revert c. induction fuel as [|fuel IH];
    intros c Hsum Hmax Hall Hlru Hsz Hlen; [lia|].
  pose proof (sum_sizes_nonneg _ (settled_sizes _ _ Hall)) as Hnn.
  rewrite resident_bytes_sum in Hsum. rewrite cache_eviction_loop_S.
  rewrite int_op_in, result_bind_Done
    by (unfold INT_MIN, INT_MAX, MAX_CACHE_SIZE in *; lia).
  destruct (Z.ltb_spec MAX_CACHE_SIZE (size c + sz)); [|lia].
  destruct (start c) as [|x objs] eqn:Hstart.
  - unfold evict_one. by rewrite Hstart.
  - rewrite <- Hstart in *.
    destruct (evict_one_total lru c) as [c' Hev]; try done.
    { by rewrite Hstart. }
    rewrite Hev, result_bind_Done.
    apply evict_one_Done in Hev as (i & v & Hi & Hst & Hsize & _).
    pose proof (sum_sizes_elem _ _ _ (settled_sizes _ _ Hall) Hi) as Hle.
    assert (0 <= objSize v) as Hv.
    { rewrite Forall_lookup in Hall. by destruct (Hall _ _ Hi). }
    apply IH; try done.
    + rewrite resident_bytes_sum, Hst, Hsize.
      rewrite (sum_sizes_delete _ _ _ Hi). lia.
    + lia.
    + rewrite Hst. by apply Forall_delete.
    + rewrite Hst, length_delete by eauto. apply lookup_lt_Some in Hi. lia.
Qed.

(** X4 (hit = resident).  A lookup hits exactly when the key is resident.
    A hit writes the first [objSize] bytes of the first entry, in list
    order, that has the key; a miss writes nothing and leaves the entries
    as they are. *)
Theorem lookup_hits_iff_resident key c r written c' :
  serve_cache key c = Done (r, written, c') ->
  (r = true <-> key ∈ resident_keys c) /\
  (r = false -> written = [] /\ start c' = start c) /\
  (r = true ->
   exists (i : nat) o,
     start c !! i = Some o /\ urlKey o = key /\
     (forall (j : nat) o', (j < i)%nat -> start c !! j = Some o' ->
                           urlKey o' <> key) /\
     written = take (Z.to_nat (objSize o)) (object o)).
Proof.
  intros H. apply serve_cache_Done in H as (_ & _ & _ & Hhit).
  destruct (get_obj_with_key key c) as [[i o]|] eqn:Hget.
  - destruct Hhit as (-> & -> & _).
    apply get_obj_from_Some in Hget as (k & -> & Hk & Hkey & Hfirst).
    split_and!; [|done|].
    + split; [intros _|done]. unfold resident_keys.
      apply list_elem_of_fmap. exists o.
      split; [done|by eapply list_elem_of_lookup_2].
    + intros _. exists k, o. by split_and!.
  - destruct Hhit as (-> & -> & ->). apply get_obj_from_None in Hget.
    split_and!; [|done|done]. split; [done|]. intros Hin. by destruct Hget.
Qed.

Lemma lookup_hits_iff_resident_witness :
  let a := new_object "u" (fun _ => "x"%char) 2 0 in
  let b := new_object "v" (fun _ => "y"%char) 1 0 in
  let c := {| start := [b; a]; size := 3; LRU := 0 |} in
  ("u"%string ∈ resident_keys c) /\ ~ ("w"%string ∈ resident_keys c).
Proof.
  intros a b c. split.
  - apply (proj1 (lookup_hits_iff_resident "u" c true ["x"; "x"]%char
                    {| start := [b; stamped a 1]; size := 3; LRU := 1 |}
                    eq_refl)).
    reflexivity.
  - intros Hin.
    apply (proj1 (lookup_hits_iff_resident "w" c false []
                    {| start := [b; a]; size := 3; LRU := 1 |} eq_refl))
      in Hin.
    discriminate Hin.
Defined.

(** The lookup after the admission finds the new cell at the head of the
    list. *)
Lemma serve_after_add key buf sz c r c1 :
  key ∉ resident_keys c ->
  add_to_cache key buf sz mallocs_ok c = Done (r, c1) ->
  0 <= LRU c1 < INT_MAX ->
  exists c2, serve_cache key c1 = Done (true, load buf (Z.to_nat sz), c2).
Proof.
  intros Hnot Hadd Hlru. apply add_to_cache_Done in Hadd
    as [(_ & _ & ?)|[(_ & _ & _ & ?)|(_ & _ & _ & kept & Hstart & _)]];
    [done|done|].
  assert (get_obj_with_key key c1
          = Some (0%nat, new_object key buf sz (LRU c))) as Hget.
  { unfold get_obj_with_key. rewrite Hstart. simpl.
    assert (key_matches key (new_object key buf sz (LRU c)) = true) as ->
      by by apply key_matches_eq.
    done. }
  unfold serve_cache, serve_cache_locked.
  rewrite int_op_in, result_bind_Done by (unfold INT_MIN, INT_MAX in *; lia).
  rewrite Hget. cbn [new_object referenceCnt objSize object].
  rewrite int_op_in, !result_bind_Done by (unfold INT_MIN, INT_MAX; lia).
  cbn [referenceCnt objSize object].
  rewrite int_op_in, !result_bind_Done by (unfold INT_MIN, INT_MAX; lia).
  rewrite take_load. eauto.
Qed.

(** X5 (round trip).  When an admission of a key that is not resident
    returns, with every malloc successful, the lookup of that key that
    follows hits and writes the [sz] bytes that were admitted. *)
Theorem admitted_is_served key buf sz c r c1 :
  key ∉ resident_keys c ->
  add_to_cache key buf sz mallocs_ok c = Done (r, c1) ->
  0 <= LRU c1 < INT_MAX ->
  exists c2, serve_cache key c1 = Done (true, load buf (Z.to_nat sz), c2).
Proof. apply serve_after_add. Qed.

Lemma admitted_is_served_witness :
  let buf := fun i : nat => if (i =? 1)%nat then "b"%char else "a"%char in
  exists c1 c2,
    add_to_cache "u" buf 3 mallocs_ok init_web_cache = Done (false, c1) /\
    serve_cache "u" c1 = Done (true, ["a"; "b"; "a"]%char, c2).
Proof.
  intros buf.
  destruct (admitted_is_served "u" buf 3 init_web_cache false
              {| start := [new_object "u" buf 3 0]; size := 3; LRU := 0 |})
    as [c2 Hc2].
  - apply not_elem_of_nil.
  - reflexivity.
  - simpl. unfold INT_MAX. lia.
  - eexists _, c2. split; [reflexivity|exact Hc2].
Defined.

(** X6 (second admission).  The admission of a key that is resident
    returns false and leaves the cache as it is, whatever the bytes, the
    size and the outcome of malloc: the bytes of the resident entry are
    not replaced and its stamp is not renewed. *)
Theorem readmission_is_ignored key buf sz m c :
  key ∈ resident_keys c -> add_to_cache key buf sz m c = Done (false, c).
Proof.
  intros Hin. unfold add_to_cache.
  by destruct (get_obj_with_key_resident _ _ Hin) as (i & o & ->).
Qed.

Lemma readmission_is_ignored_witness :
  let c := {| start := [new_object "u" (fun _ => "x"%char) 2 0];
              size := 2; LRU := 5 |} in
  add_to_cache "u" (fun _ => "y"%char) 7
    {| malloc_obj := true; malloc_buf := false; malloc_key := true |} c
  = Done (false, c).
Proof.
  intros c. apply (readmission_is_ignored "u"). apply list_elem_of_here.
Defined.

(** X7 (room).  The admission of a key that is not resident into a cache
    that has room for the object, [size + sz <= MAX_CACHE_SIZE], unlinks
    nothing: the new entry is put in front of the entries there were, and
    [size] grows by [sz]. *)
Theorem fitting_admission_evicts_nothing key buf sz c :
  key ∉ resident_keys c -> 0 <= size c -> 0 <= sz ->
  size c + sz <= MAX_CACHE_SIZE ->
  add_to_cache key buf sz mallocs_ok c
  = Done (false, {| start := new_object key buf sz (LRU c) :: start c;
                    size := size c + sz; LRU := LRU c |}).
Proof.
  intros Hnot Hsize Hsz Hfit. unfold add_to_cache.
  rewrite (get_obj_with_key_absent _ _ Hnot). simpl. unfold insert_into_cache.
  fold (new_object key buf sz (LRU c)).
  assert (int_op (size c + sz) = Done (size c + sz)) as Hint
    by (apply int_op_in; unfold INT_MIN, INT_MAX, MAX_CACHE_SIZE in *; lia).
  destruct (start c) as [|x objs] eqn:Hstart.
  - rewrite result_bind_Done. cbn [start size LRU].
    by rewrite Hint, result_bind_Done.
  - cbn [objSize new_object]. rewrite Hint, result_bind_Done.
    assert (cache_eviction sz c = Done c) as Hev.
    { unfold cache_eviction. rewrite cache_eviction_loop_S, Hint.
      rewrite result_bind_Done.
      by destruct (Z.ltb_spec MAX_CACHE_SIZE (size c + sz)); [lia|]. }
    rewrite Hev. destruct (MAX_CACHE_SIZE <=? size c + sz);
      rewrite !result_bind_Done; cbn [start size LRU];
      by rewrite Hint, result_bind_Done, Hstart.
Qed.

Lemma fitting_admission_evicts_nothing_witness :
  let a := new_object "u" (fun _ => "x"%char) (MAX_CACHE_SIZE - 1) 4 in
  let c := {| start := [a]; size := MAX_CACHE_SIZE - 1; LRU := 4 |} in
  add_to_cache "v" (fun _ => "y"%char) 1 mallocs_ok c
  = Done (false, {| start := [new_object "v" (fun _ => "y"%char) 1 4; a];
                    size := MAX_CACHE_SIZE - 1 + 1; LRU := 4 |}).
Proof.
  intros a c. apply (fitting_admission_evicts_nothing "v").
  - apply (bool_decide_unpack _). by vm_compute.
  - by vm_compute.
  - lia.
  - by vm_compute.
Defined.

(** X8 (a hit protects).  In a cache between two calls whose entries have
    at most MAX_OBJECT_SIZE bytes each, the key of a lookup that hits is
    still resident after the admission that follows, of whatever key and
    of at most MAX_OBJECT_SIZE bytes, however many entries that admission
    unlinks. *)
Theorem served_entry_survives_admission
    key c written c1 key' buf sz m r c2 :
  sound c ->
  Forall (fun x => objSize x <= MAX_OBJECT_SIZE) (start c) ->
  sz <= MAX_OBJECT_SIZE ->
  serve_cache key c = Done (true, written, c1) ->
  add_to_cache key' buf sz m c1 = Done (r, c2) ->
  key ∈ resident_keys c2.
Proof.
  intros ((Hsum & _) & _ & Hset) Hsizes Hsz Hs Hadd.
  apply serve_cache_Done in Hs as (_ & _ & Hsize1 & Hhit).
  destruct (get_obj_with_key key c) as [[i o]|] eqn:Hget;
    [|by destruct Hhit].
  destruct Hhit as (_ & _ & Hstart1).
  apply get_obj_with_key_lookup in Hget as [Hi Hkey].
  set (o1 := stamped o (LRU c + 1)) in *.
  assert (o1 ∈ start c1 -> key ∈ resident_keys c1) as Hres1.
  { intros Hin. apply list_elem_of_fmap. by exists o1. }
  rewrite insert_take_drop in Hstart1 by by eapply lookup_lt_Some.
  assert (o1 ∈ start c1) as Hin1.
  { rewrite Hstart1. apply elem_of_app. right. apply list_elem_of_here. }
  assert (size c1 = resident_bytes c1) as Hsum1.
  { rewrite Hsize1, Hsum, !resident_bytes_sum, Hstart1.
    rewrite <- (insert_take_drop (start c) i o1) by by eapply lookup_lt_Some.
    symmetry. by eapply sum_sizes_insert. }
  assert (Forall (fun x => tStamp x < tStamp o1)
            (take i (start c) ++ drop (S i) (start c))) as Hbelow.
  { rewrite <- delete_take_drop. apply Forall_delete.
    eapply Forall_impl; [exact Hset|]. intros x (_ & _ & Hx). simpl. lia. }
  assert (objSize o1 + sz <= MAX_CACHE_SIZE) as Hfit.
  { rewrite Forall_lookup in Hsizes. pose proof (Hsizes _ _ Hi).
    simpl. unfold MAX_CACHE_SIZE, MAX_OBJECT_SIZE in *. lia. }
  unfold add_to_cache in Hadd.
  destruct (get_obj_with_key key' c1); [injection Hadd as <- <-; auto|].
  destruct (malloc_obj m); simpl in Hadd; [|injection Hadd as <- <-; auto].
  destruct (malloc_buf m); simpl in Hadd; [|discriminate].
  destruct (malloc_key m); simpl in Hadd; [|discriminate].
  bind_inv Hadd as Hins. int_inv Hadd. injection Hadd as <- <-.
  apply list_elem_of_fmap. exists o1. split; [done|]. simpl.
  unfold insert_into_cache in Hins.
  destruct (start c1) as [|y rest] eqn:Hst1; [by apply elem_of_nil in Hin1|].
  rewrite <- Hst1 in *. int_inv Hins. bind_inv Hins as Hev.
  injection Hins as <-. simpl. apply list_elem_of_further.
  destruct (MAX_CACHE_SIZE <=? _); [|by injection Hev as <-].
  by eapply cache_eviction_loop_keeps.
Qed.

Lemma served_entry_survives_admission_witness :
  let buf := fun _ : nat => "x"%char in
  let e := fun k t => new_object k buf 102400 t in
  let c := {| start := [e "J" 10; e "I" 9; e "H" 8; e "G" 7; e "F" 6;
                        e "E" 5; e "D" 4; e "C" 3; e "B" 2; e "A" 1];
              size := 1024000; LRU := 10 |} in
  let c1 := {| start := [e "J" 10; e "I" 9; e "H" 8; e "G" 7; e "F" 6;
                         e "E" 5; e "D" 4; e "C" 3; e "B" 2; e "A" 11];
               size := 1024000; LRU := 11 |} in
  let c2 := {| start := [e "K" 11; e "J" 10; e "I" 9; e "H" 8; e "G" 7;
                         e "F" 6; e "E" 5; e "D" 4; e "C" 3; e "A" 11];
               size := 1024000; LRU := 11 |} in
  serve_cache "A" c = Done (true, load buf (Z.to_nat 102400), c1) /\
  add_to_cache "K" buf 102400 mallocs_ok c1 = Done (false, c2) /\
  "A"%string ∈ resident_keys c2.
Proof.
  intros buf e c c1 c2.
  assert (serve_cache "A" c
          = Done (true, take (Z.to_nat 102400) (load buf (Z.to_nat 102400)),
                  c1)) as Hs.
  { reflexivity. }
  assert (add_to_cache "K" buf 102400 mallocs_ok c1 = Done (false, c2)) as Ha.
  { reflexivity. }
  split; [by rewrite <- (take_load buf (Z.to_nat 102400))|].
  split; [exact Ha|].
  eapply (served_entry_survives_admission "A" c _ c1 "K" buf 102400
           mallocs_ok false c2); [| | |exact Hs|exact Ha].
  - split; [split; [reflexivity|by lazy]|].
    split; [by lazy|]. repeat constructor; by lazy.
  - repeat constructor; by lazy.
  - by lazy.
Defined.

(** X9 (an object above the budget).  [add_to_cache] does not compare
    [sz] with a bound.  The admission of more than MAX_CACHE_SIZE bytes
    into the empty cache inserts the object, and [size] is above the
    budget afterwards; into a cache between two calls that has entries,
    it unlinks every entry and then uses the victim that the scan of the
    empty list has not set, so the call has no result. *)
Theorem oversize_admission key buf sz c :
  key ∉ resident_keys c -> sound c -> LRU c < INT_MAX ->
  MAX_CACHE_SIZE < sz <= INT_MAX - MAX_CACHE_SIZE ->
  match start c with
  | [] =>
      add_to_cache key buf sz mallocs_ok c
      = Done (false, {| start := [new_object key buf sz (LRU c)];
                        size := sz; LRU := LRU c |})
  | _ :: _ => add_to_cache key buf sz mallocs_ok c = Fault UninitVictim
  end.
Proof.
  intros Hnot ((Hsum & Hmax) & Hlru0 & Hall) Hlru Hsz.
  pose proof (sum_sizes_nonneg _ (settled_sizes _ _ Hall)) as Hnn.
  unfold add_to_cache. rewrite (get_obj_with_key_absent _ _ Hnot). simpl.
  unfold insert_into_cache. fold (new_object key buf sz (LRU c)).
  destruct (start c) as [|x objs] eqn:Hstart.
  - rewrite result_bind_Done. cbn [start size LRU].
    rewrite resident_bytes_sum, Hstart in Hsum. unfold sum_sizes in Hsum.
    simpl in Hsum. rewrite Hsum. simpl.
    by rewrite int_op_in, result_bind_Done
      by (unfold INT_MIN, INT_MAX, MAX_CACHE_SIZE in *; lia).
  - rewrite <- Hstart in *. cbn [objSize new_object].
    rewrite resident_bytes_sum in Hsum.
    rewrite int_op_in, result_bind_Done
      by (unfold INT_MIN, INT_MAX, MAX_CACHE_SIZE in *; lia).
    destruct (Z.leb_spec MAX_CACHE_SIZE (size c + sz)); [|lia].
    unfold cache_eviction.
    rewrite (cache_eviction_loop_oversize _ (LRU c)); try done.
    lia.
Qed.

Lemma oversize_admission_witness :
  let big := MAX_CACHE_SIZE + 1 in
  let a := new_object "u" (fun _ => "x"%char) 2 0 in
  add_to_cache "v" (fun _ => "y"%char) big mallocs_ok
    {| start := [a]; size := 2; LRU := 0 |}
  = Fault UninitVictim.
Proof.
  intros big a.
  apply (oversize_admission "v" (fun _ => "y"%char) big
           {| start := [a]; size := 2; LRU := 0 |}).
  - apply (bool_decide_unpack _). by vm_compute.
  - split; [split; [reflexivity|by vm_compute]|].
    split; [simpl; lia|]. repeat constructor; simpl; lia.
  - by vm_compute.
  - by vm_compute.
Defined.

(** X10 (what is served was admitted).  After every sequence of calls
    from the empty cache, the bytes that a hit writes are the [sz] bytes
    of the buffer of an admission of that key made in the sequence. *)
Theorem served_bytes_were_admitted (ops : list op) c key written c' :
  run ops init_web_cache = Done c ->
  serve_cache key c = Done (true, written, c') ->
  exists buf sz m,
    Admit key buf sz m ∈ ops /\ written = load buf (Z.to_nat sz).
Proof.
  intros Hrun Hs. apply serve_cache_Done in Hs as (_ & _ & _ & Hhit).
  destruct (get_obj_with_key key c) as [[i o]|] eqn:Hget;
    [|by destruct Hhit].
  destruct Hhit as (_ & -> & _).
  apply get_obj_with_key_lookup in Hget as [Hi <-].
  apply list_elem_of_lookup_2 in Hi.
  destruct (run_payload _ _ _ _ Hrun Hi)
    as [(x0 & Hx0 & _)|(buf & sz & m & Hin & -> & ->)].
  - by apply elem_of_nil in Hx0.
  - exists buf, sz, m. split; [done|apply take_load].
Qed.

Lemma served_bytes_were_admitted_witness :
  let ops := [Admit "u" (fun _ => "x"%char) 2 mallocs_ok;
              Admit "u" (fun _ => "y"%char) 3 mallocs_ok;
              Lookup "v"] in
  exists c c' buf sz m,
    run ops init_web_cache = Done c /\
    serve_cache "u" c = Done (true, ["x"; "x"]%char, c') /\
    Admit "u" buf sz m ∈ ops /\ ["x"; "x"]%char = load buf (Z.to_nat sz).
Proof.
  intros ops.
  destruct (served_bytes_were_admitted ops
              {| start := [new_object "u" (fun _ => "x"%char) 2 0];
                 size := 2; LRU := 1 |} "u" ["x"; "x"]%char
              {| start := [new_object "u" (fun _ => "x"%char) 2 2];
                 size := 2; LRU := 2 |} eq_refl eq_refl)
    as (buf & sz & m & Hin & Hw).
  eexists _, _, buf, sz, m. split; [reflexivity|]. split; [reflexivity|].
  split; [exact Hin|exact Hw].
Defined.

End CacheRoundTrips.

(** * Further properties of the pipeline *)

Section Paths.
Import Proxy.

Variables MAXLINE MAXBUF : nat.
Variable conn : connection.

(** A request that is accepted has had nothing written to the client,
    and the cache is as it was. *)
Lemma read_request_accepted fBuf w buffer w' :
  read_request MAXLINE MAXBUF conn fBuf w = Done ((false, buffer), w') ->
  w' = w.
Proof.
  unfold read_request. intros H.
  apply io_bind_inv in H as ([n b] & w0 & Hline & H).
  destruct (Z.leb_spec n 0) as [Hn|Hn]; [discriminate H|].
  apply read_headers_world in H as ->.
  apply read_requestline_Done in Hline as [->|(-> & _)]; [done|lia].
Qed.

Lemma run_of_threadRoutine c w' :
  threadRoutine MAXLINE MAXBUF conn {| cache := c; trace := [] |}
  = Done (tt, w') ->
  run MAXLINE MAXBUF conn c = Done (cache w', trace w').
Proof. intros H. unfold run. by rewrite H. Qed.

Lemma serve_cache_run uri w hit written c' :
  Cache.serve_cache uri (cache w) = Done (hit, written, c') ->
  serve_cache uri w
  = Done (hit,
          {| cache := c';
             trace := trace w ++ CacheLookup uri ::
                        (if hit : bool then [ClientWrite written] else []) |}).
Proof. intros H. unfold serve_cache. by rewrite H. Qed.

(** [threadRoutine] after a request that is accepted and has a port, a
    host and a URI. *)
Lemma threadRoutine_accepted w buffer w1 port host uri :
  read_request MAXLINE MAXBUF conn (mem_buffer conn) w
  = Done ((false, buffer), w1) ->
  cl_port conn = Some port -> cl_host conn = Some host ->
  cl_uri conn = Some uri ->
  threadRoutine MAXLINE MAXBUF conn w
  = (served ← serve_cache uri;
     if served : bool then cleanup (connfd conn) (-1)
     else
       fd ← open_clientfd conn host port;
       if fd <? 0 then cleanup (connfd conn) fd
       else fetch MAXLINE MAXBUF conn uri buffer fd) w.
Proof.
  intros Hread Hport Hhost Huri.
  pose proof (read_request_accepted _ _ _ _ Hread) as ->.
  unfold threadRoutine. rewrite (io_bind_Done _ _ _ _ _ Hread).
  cbn beta iota. by rewrite Hport, Hhost, Huri.
Qed.

(** [threadRoutine] after a miss, up to the connection to the origin. *)
Lemma threadRoutine_miss w buffer w1 port host uri written c1 :
  read_request MAXLINE MAXBUF conn (mem_buffer conn) w
  = Done ((false, buffer), w1) ->
  cl_port conn = Some port -> cl_host conn = Some host ->
  cl_uri conn = Some uri ->
  Cache.serve_cache uri (cache w) = Done (false, written, c1) ->
  threadRoutine MAXLINE MAXBUF conn w
  = (if clientfd conn <? 0
     then cleanup (connfd conn) (clientfd conn)
     else fetch MAXLINE MAXBUF conn uri buffer (clientfd conn))
      {| cache := c1;
         trace := trace w ++ [CacheLookup uri; OriginOpen host port] |}.
Proof.
  intros Hread Hport Hhost Huri Hmiss.
  rewrite (threadRoutine_accepted _ _ _ _ _ _ Hread Hport Hhost Huri).
  rewrite (io_bind_Done _ _ _ _ _ (serve_cache_run _ _ _ _ _ Hmiss)).
  cbn beta iota. unfold open_clientfd, emit.
  unfold mbind at 1, io_bind at 1. unfold mbind at 1, io_bind at 1.
  cbn [cache trace]. unfold mret, io_ret. cbn beta iota.
  by rewrite <- app_assoc.
Qed.

Lemma rio_writen_origin_run bytes w :
  rio_writen_origin conn bytes w
  = Done (or_write_ok conn,
          {| cache := cache w; trace := trace w ++ [OriginWrite bytes] |}).
Proof. reflexivity. Qed.

Lemma length_concat_chunks (chunks : list (list ascii)) :
  Forall (fun ch => (0 < length ch)%nat) chunks ->
  (length chunks <= length (concat chunks))%nat.
Proof.
  induction 1 as [|ch chunks Hch _ IH]; simpl; [done|].
  rewrite length_app. lia.
Qed.

(** The loop of [threadRoutine] returns when the chunks fit the array
    and the two counters stay below INT_MAX. *)
Lemma relay_total chunks b t f i w :
  Forall (fun ch => Z.of_nat (length ch) <= Cache.MAX_OBJECT_SIZE) chunks ->
  0 <= t -> t + Z.of_nat (length (concat chunks)) <= INT_MAX ->
  0 <= i -> i + Z.of_nat (length chunks) <= INT_MAX ->
  exists r w', relay conn chunks b t f i w = Done (r, w').
Proof.
  intros Hall. revert b t f i w.
  induction Hall as [|ch chunks Hch _ IH]; intros b t f i w Ht Htot Hi Hn;
    simpl; [by eexists _, _|].
  destruct (Z.of_nat (length ch) <=? 0); [by eexists _, _|].
  destruct (Z.ltb_spec Cache.MAX_OBJECT_SIZE (Z.of_nat (length ch))); [lia|].
  simpl in Htot, Hn. rewrite length_app in Htot.
  unfold mbind at 1, io_bind at 1. unfold rio_writen_client at 1.
  unfold mbind at 1, io_bind at 1.
  rewrite int_op_in by (unfold INT_MIN, INT_MAX in *; lia). cbn [lift].
  unfold mbind at 1, io_bind at 1.
  rewrite int_op_in by (unfold INT_MIN, INT_MAX in *; lia). cbn [lift].
  apply IH; lia.
Qed.

Lemma relay_run chunks b w :
  Forall (fun ch => 0 < Z.of_nat (length ch) <= Cache.MAX_OBJECT_SIZE)
    chunks ->
  Z.of_nat (length (concat chunks)) <= INT_MAX ->
  relay conn chunks b 0 true 0 w
  = Done ((overlaid b chunks, Z.of_nat (length (concat chunks)),
           Z.of_nat (length (concat chunks)) <=? Cache.MAX_OBJECT_SIZE),
          {| cache := cache w;
             trace := trace w ++ (ClientWrite <$> chunks) |}).
Proof.
  intros Hall Htot.
  assert (Forall (fun ch => (0 < length ch)%nat) chunks) as Hpos.
  { eapply Forall_impl; [exact Hall|]. intros ch ?. simpl in *. lia. }
  pose proof (length_concat_chunks _ Hpos) as Hlen.
  destruct (relay_total chunks b 0 true 0 w) as ([[b' t'] f'] & w' & Hrun);
    [|lia|lia|lia|lia|].
  { eapply Forall_impl; [exact Hall|]. intros ch ?. simpl in *. lia. }
  rewrite Hrun.
  apply relay_Done in Hrun
    as (received & _ & Hrec & Hc & Htr & -> & -> & Hf1 & Hf2).
  rewrite (Hrec Hpos) in *. destruct w' as [c' tr']. simpl in Hc, Htr.
  subst c' tr'. rewrite Z.add_0_l in *. do 3 f_equal.
  destruct (Z.leb_spec (Z.of_nat (length (concat chunks)))
              Cache.MAX_OBJECT_SIZE) as [Hle|Hgt].
  - by apply Hf2.
  - destruct f'; [|done]. destruct (Hf1 eq_refl) as [_ Hle].
    destruct chunks as [|ch chunks]; [simpl in Hgt; by vm_compute in Hgt|].
    assert (Z.of_nat (length (concat (ch :: chunks)))
            <= Cache.MAX_OBJECT_SIZE) by by apply Hle.
    lia.
Qed.

Lemma run_hit c buffer w1 port host uri written c1 :
  read_request MAXLINE MAXBUF conn (mem_buffer conn)
    {| cache := c; trace := [] |} = Done ((false, buffer), w1) ->
  cl_port conn = Some port -> cl_host conn = Some host ->
  cl_uri conn = Some uri ->
  Cache.serve_cache uri c = Done (true, written, c1) ->
  run MAXLINE MAXBUF conn c
  = Done (c1, [CacheLookup uri; ClientWrite written]
              ++ closes (connfd conn) (-1)).
Proof.
  intros Hread Hport Hhost Huri Hhit. unfold run.
  rewrite (threadRoutine_accepted _ _ _ _ _ _ Hread Hport Hhost Huri).
  rewrite (io_bind_Done _ _ _ _ _
             (serve_cache_run uri {| cache := c; trace := [] |} _ _ _ Hhit)).
  cbn beta iota. by rewrite cleanup_run.
Qed.

(** The run of [threadRoutine] after a miss when the origin is connected
    and takes the request. *)
Lemma run_relayed c buffer w1 port host uri written c1 :
  read_request MAXLINE MAXBUF conn (mem_buffer conn)
    {| cache := c; trace := [] |} = Done ((false, buffer), w1) ->
  cl_port conn = Some port -> cl_host conn = Some host ->
  cl_uri conn = Some uri ->
  Cache.serve_cache uri c = Done (false, written, c1) ->
  0 <= clientfd conn -> or_write_ok conn = true ->
  Forall (fun ch => 0 < Z.of_nat (length ch) <= Cache.MAX_OBJECT_SIZE)
    (or_chunks conn) ->
  Z.of_nat (length (concat (or_chunks conn))) <= INT_MAX ->
  let total := Z.of_nat (length (concat (or_chunks conn))) in
  let cacheBuf := overlaid (mem_cacheBuf conn) (or_chunks conn) in
  let relayed :=
    [CacheLookup uri; OriginOpen host port; OriginWrite (load buffer MAXBUF)]
    ++ (ClientWrite <$> or_chunks conn) in
  run MAXLINE MAXBUF conn c
  = if total <=? Cache.MAX_OBJECT_SIZE
    then
      '(_, c2) ← Cache.add_to_cache uri cacheBuf total (mem_mallocs conn) c1;
      Done (c2, relayed ++ CacheAdmit uri cacheBuf total
                  :: closes (connfd conn) (clientfd conn))
    else Done (c1, relayed ++ closes (connfd conn) (clientfd conn)).
Proof.
  intros Hread Hport Hhost Huri Hmiss Hfd Hok Hall Htot total cacheBuf relayed.
  unfold run.
  rewrite (threadRoutine_miss {| cache := c; trace := [] |}
             _ _ _ _ _ _ _ Hread Hport Hhost Huri Hmiss).
  destruct (Z.ltb_spec (clientfd conn) 0); [lia|].
  unfold fetch.
  rewrite (io_bind_Done _ _ _ _ _ (rio_writen_origin_run _ _)), Hok.
  cbn [negb].
  rewrite (io_bind_Done _ _ _ _ _ (relay_run _ _ _ Hall Htot)).
  cbn beta iota. fold total cacheBuf.
  destruct (total <=? Cache.MAX_OBJECT_SIZE).
  - unfold mbind at 2, io_bind at 1. unfold mbind at 2, io_bind at 1.
    unfold add_to_cache. cbn [cache trace].
    destruct (Cache.add_to_cache uri cacheBuf total (mem_mallocs conn) c1)
      as [[r c2]|f]; [|done].
    rewrite !result_bind_Done. unfold mret at 1, io_ret at 1.
    rewrite cleanup_run. cbn [cache trace]. rewrite result_bind_Done.
    cbn [cache trace]. unfold relayed. simpl. by rewrite <- !app_assoc.
  - unfold mbind at 2, io_bind at 1. unfold mret at 1, io_ret at 1.
    rewrite cleanup_run. rewrite result_bind_Done.
    cbn [cache trace]. unfold relayed. simpl. by rewrite <- ?app_assoc.
Qed.

Lemma read_requestline_malformed buffer w :
  malformed_request_line MAXBUF conn ->
  exists buffer',
    read_requestline MAXLINE MAXBUF conn buffer w = Done ((-1, buffer'), w).
Proof.
  unfold malformed_request_line, read_requestline.
  destruct (cl_reqline conn) as [line|]; [|intros _; by eexists].
  destruct (Nat.eqb_spec (String.length line) 0) as [|Hne]; [by eexists|].
  intros [Hlen|[Hlen Hrest]]; [done|].
  unfold put_cstr. rewrite length_list_ascii_of_string.
  destruct (Nat.leb_spec (0 + String.length line + 1) MAXBUF) as [_|]; [|lia].
  rewrite (io_bind_Done _ _ w _ w eq_refl).
  destruct (cl_reqstate conn); try by eexists.
  destruct Hrest as [Hstate|Hscan]; [done|].
  destruct (cl_scan conn) as [[[method u] version]|]; [|by eexists].
  destruct (negb (Ascii.eqb version "0") && negb (Ascii.eqb version "1"))
    eqn:Hv; [by eexists|].
  destruct Hscan as [[H0 H1]|[-> Hpath]].
  - apply Ascii.eqb_neq in H0, H1. by rewrite H0, H1 in Hv.
  - cbn [String.eqb Ascii.eqb Bool.eqb andb negb]. rewrite Hpath. by eexists.
Qed.






(** X11 (a hit).  When the request is accepted and the URI is resident,
    the client is written the bytes of the entry and its descriptor is
    closed; the origin is not connected to and nothing is admitted. *)
Theorem hit_is_served_from_cache c buffer w1 port host uri written c1 :
  read_request MAXLINE MAXBUF conn (mem_buffer conn)
    {| cache := c; trace := [] |} = Done ((false, buffer), w1) ->
  cl_port conn = Some port -> cl_host conn = Some host ->
  cl_uri conn = Some uri ->
  Cache.serve_cache uri c = Done (true, written, c1) ->
  run MAXLINE MAXBUF conn c
  = Done (c1, [CacheLookup uri; ClientWrite written]
              ++ closes (connfd conn) (-1)).
Proof. apply run_hit. Qed.

(** X12 (no connection to the origin).  When the lookup misses and
    [open_clientfd] fails, nothing at all is written to the client, no
    error page either: the descriptors are closed, and the cache is as
    the lookup left it. *)
Theorem unreachable_origin_gets_no_answer
    c buffer w1 port host uri written c1 :
  read_request MAXLINE MAXBUF conn (mem_buffer conn)
    {| cache := c; trace := [] |} = Done ((false, buffer), w1) ->
  cl_port conn = Some port -> cl_host conn = Some host ->
  cl_uri conn = Some uri ->
  Cache.serve_cache uri c = Done (false, written, c1) ->
  clientfd conn < 0 ->
  run MAXLINE MAXBUF conn c
  = Done (c1, [CacheLookup uri; OriginOpen host port]
              ++ closes (connfd conn) (clientfd conn)).
Proof.
  intros Hread Hport Hhost Huri Hmiss Hfd. unfold run.
  rewrite (threadRoutine_miss {| cache := c; trace := [] |}
             _ _ _ _ _ _ _ Hread Hport Hhost Huri Hmiss).
  destruct (Z.ltb_spec (clientfd conn) 0); [|lia].
  by rewrite cleanup_run.
Qed.

(** X13 (the origin does not take the request).  When the lookup misses,
    the origin is connected and the write of the request to it fails, the
    client is sent the 500 Server Error page, the status line HTTP/1.0
    500 Server Error with its headers and then the body, and the two
    descriptors are closed, the one of the origin first. *)
Theorem failed_origin_write_gets_500 c buffer w1 port host uri written c1 :
  roomy MAXLINE MAXBUF ->
  read_request MAXLINE MAXBUF conn (mem_buffer conn)
    {| cache := c; trace := [] |} = Done ((false, buffer), w1) ->
  cl_port conn = Some port -> cl_host conn = Some host ->
  cl_uri conn = Some uri ->
  Cache.serve_cache uri c = Done (false, written, c1) ->
  0 <= clientfd conn -> or_write_ok conn = false ->
  run MAXLINE MAXBUF conn c
  = Done (c1, [CacheLookup uri; OriginOpen host port;
               OriginWrite (load buffer MAXBUF)]
              ++ error_page conn 0 headers_500 body_500
              ++ closes (connfd conn) (clientfd conn)).
Proof.
  intros [Hl Hb] Hread Hport Hhost Huri Hmiss Hfd Hok.
  rewrite <- response_500_bytes. unfold run.
  rewrite (threadRoutine_miss {| cache := c; trace := [] |}
             _ _ _ _ _ _ _ Hread Hport Hhost Huri Hmiss).
  destruct (Z.ltb_spec (clientfd conn) 0); [lia|].
  unfold fetch.
  rewrite (io_bind_Done _ _ _ _ _ (rio_writen_origin_run _ _)), Hok.
  cbn [negb].
  erewrite io_bind_Done; cycle 1.
  { apply clienterror_run.
    - eapply Nat.lt_le_trans; [|exact Hb]. apply Nat.ltb_lt. by vm_compute.
    - eapply Nat.lt_le_trans; [|exact Hl]. apply Nat.ltb_lt. by vm_compute. }
  rewrite cleanup_run, result_bind_Done. cbn [cache trace].
  unfold response_500. simpl. by rewrite <- ?app_assoc.
Qed.

(** X14 (a miss).  When the lookup misses, the origin is connected and
    takes the request, and every chunk read has from 1 to MAX_OBJECT_SIZE
    bytes: the client is written the chunks, each one as it was read and
    in that order; then, if there are at most MAX_OBJECT_SIZE bytes in
    all, [add_to_cache] is called once with the URI, the array and the
    total, and otherwise the cache is as the lookup left it; then the two
    descriptors are closed. *)
Theorem miss_is_relayed c buffer w1 port host uri written c1 :
  read_request MAXLINE MAXBUF conn (mem_buffer conn)
    {| cache := c; trace := [] |} = Done ((false, buffer), w1) ->
  cl_port conn = Some port -> cl_host conn = Some host ->
  cl_uri conn = Some uri ->
  Cache.serve_cache uri c = Done (false, written, c1) ->
  0 <= clientfd conn -> or_write_ok conn = true ->
  Forall (fun ch => 0 < Z.of_nat (length ch) <= Cache.MAX_OBJECT_SIZE)
    (or_chunks conn) ->
  Z.of_nat (length (concat (or_chunks conn))) <= INT_MAX ->
  let total := Z.of_nat (length (concat (or_chunks conn))) in
  let cacheBuf := overlaid (mem_cacheBuf conn) (or_chunks conn) in
  let relayed :=
    [CacheLookup uri; OriginOpen host port; OriginWrite (load buffer MAXBUF)]
    ++ (ClientWrite <$> or_chunks conn) in
  run MAXLINE MAXBUF conn c
  = if total <=? Cache.MAX_OBJECT_SIZE
    then
      '(_, c2) ← Cache.add_to_cache uri cacheBuf total (mem_mallocs conn) c1;
      Done (c2, relayed ++ CacheAdmit uri cacheBuf total
                  :: closes (connfd conn) (clientfd conn))
    else Done (c1, relayed ++ closes (connfd conn) (clientfd conn)).
Proof. apply run_relayed. Qed.

(** X15 (a malformed request line).  When there is no request line, or
    the parser or sscanf cannot make a request line of it, or its
    version is not 1.0 or 1.1, or it is a GET without a path, the client
    is sent the 400 Bad Request page, the status line HTTP/1.0 400 Bad
    Request with its headers and then the body, and nothing else,
    whatever the method: the 501 page is for request lines that are well
    formed. *)
Theorem malformed_request_line_gets_400 c :
  roomy MAXLINE MAXBUF -> malformed_request_line MAXBUF conn ->
  run MAXLINE MAXBUF conn c
  = Done (c, error_page conn 0 headers_400 body_400
             ++ closes (connfd conn) (-1)).
Proof.
  intros Hroomy Hbad. rewrite <- response_400_bytes.
  destruct (read_requestline_malformed (mem_buffer conn)
              {| cache := c; trace := [] |} Hbad) as [b Hline].
  assert (read_request MAXLINE MAXBUF conn (mem_buffer conn)
            {| cache := c; trace := [] |}
          = Done ((true, b), {| cache := c; trace := [] |})) as Hread.
  { unfold read_request. by rewrite (io_bind_Done _ _ _ _ _ Hline). }
  by rewrite (run_refused _ _ _ _ _ _ Hroomy Hread).
Qed.

(** X16 (no target).  When the request is accepted but the parser has no
    port, no host or no URI for it, the client is sent the 400 Bad
    Request page, the status line HTTP/1.0 400 Bad Request with its
    headers and then the body; the cache is not looked up and the origin
    is not connected to. *)
Theorem request_without_target_gets_400 c buffer w1 :
  roomy MAXLINE MAXBUF ->
  read_request MAXLINE MAXBUF conn (mem_buffer conn)
    {| cache := c; trace := [] |} = Done ((false, buffer), w1) ->
  cl_port conn = None \/ cl_host conn = None \/ cl_uri conn = None ->
  run MAXLINE MAXBUF conn c
  = Done (c, error_page conn 0 headers_400 body_400
             ++ closes (connfd conn) (-1)).
Proof.
  intros Hroomy Hread Hnone. rewrite <- response_400_bytes.
  pose proof (read_request_accepted _ _ _ _ Hread) as ->.
  assert (threadRoutine MAXLINE MAXBUF conn {| cache := c; trace := [] |}
          = (bad_request MAXLINE MAXBUF conn
             ≫= fun _ => cleanup (connfd conn) (-1))
              {| cache := c; trace := [] |}) as Hthread.
  { unfold threadRoutine. rewrite (io_bind_Done _ _ _ _ _ Hread).
    cbn beta iota. destruct Hnone as [->|[->| ->]]; [done| |].
    - by destruct (cl_port conn).
    - by destruct (cl_port conn), (cl_host conn). }
  unfold run. rewrite Hthread.
  rewrite (io_bind_Done _ _ _ _ _ (bad_request_run _ _ _ _ Hroomy)).
  by rewrite cleanup_run.
Qed.


End Paths.

Section PathWitnesses.
Import Cache Proxy.

Lemma hit_is_served_from_cache_witness :
  let o := new_object "http://h:80/x" (fun _ => "x"%char) 2 0 in
  let c := {| start := [o]; size := 2; LRU := 0 |} in
  run MAXLINE_csapp MAXBUF_csapp (get_x []) c
  = Done ({| start := [stamped o 1]; size := 2; LRU := 1 |},
          [CacheLookup "http://h:80/x"; ClientWrite ["x"; "x"]%char; Close 4]).
Proof.
  intros o c.
  eapply (hit_is_served_from_cache MAXLINE_csapp MAXBUF_csapp (get_x []) c
            _ _ "80" "h" "http://h:80/x").
  - vm_compute. reflexivity.
  - reflexivity.
  - reflexivity.
  - reflexivity.
  - reflexivity.
Defined.

Lemma unreachable_origin_gets_no_answer_witness :
  run MAXLINE_csapp MAXBUF_csapp (with_origin (get_x []) (-1) true)
    init_web_cache
  = Done ({| start := []; size := 0; LRU := 1 |},
          [CacheLookup "http://h:80/x"; OriginOpen "h" "80"; Close 4]).
Proof.
  eapply (unreachable_origin_gets_no_answer MAXLINE_csapp MAXBUF_csapp
            (with_origin (get_x []) (-1) true) init_web_cache
            _ _ "80" "h" "http://h:80/x" []).
  - vm_compute. reflexivity.
  - reflexivity.
  - reflexivity.
  - reflexivity.
  - reflexivity.
  - simpl. lia.
Defined.

Lemma failed_origin_write_gets_500_witness :
  exists request,
    run MAXLINE_csapp MAXBUF_csapp (with_origin (get_x []) 5 false)
      init_web_cache
    = Done ({| start := []; size := 0; LRU := 1 |},
            [CacheLookup "http://h:80/x"; OriginOpen "h" "80";
             OriginWrite request;
             ClientWrite
               (list_ascii_of_string
                  ("HTTP/1.0 500 Server Error" +:+ crlf +:+
                   "Content-Type: text/html" +:+ crlf +:+
                   "Content-Length: 167" +:+ crlf +:+ crlf));
             ClientWrite (list_ascii_of_string body_500);
             Close 5; Close 4]).
Proof.
  eexists.
  eapply (failed_origin_write_gets_500 MAXLINE_csapp MAXBUF_csapp
            (with_origin (get_x []) 5 false) init_web_cache
            _ _ "80" "h" "http://h:80/x" []).
  - split; apply Nat.leb_le; by vm_compute.
  - vm_compute. reflexivity.
  - reflexivity.
  - reflexivity.
  - reflexivity.
  - reflexivity.
  - simpl. lia.
  - reflexivity.
Defined.

Lemma miss_is_relayed_witness :
  let ab := list_ascii_of_string "ab" in
  let c := list_ascii_of_string "c" in
  exists request cacheBuf,
    run MAXLINE_csapp MAXBUF_csapp (get_x [ab; c]) init_web_cache
    = Done ({| start := [new_object "http://h:80/x" cacheBuf 3 1];
               size := 3; LRU := 1 |},
            [CacheLookup "http://h:80/x"; OriginOpen "h" "80";
             OriginWrite request; ClientWrite ab; ClientWrite c;
             CacheAdmit "http://h:80/x" cacheBuf 3; Close 5; Close 4]).
Proof.
  intros ab c. eexists _, _.
  etrans.
  { eapply (miss_is_relayed MAXLINE_csapp MAXBUF_csapp (get_x [ab; c])
              init_web_cache _ _ "80" "h" "http://h:80/x" []).
    - vm_compute. reflexivity.
    - reflexivity.
    - reflexivity.
    - reflexivity.
    - reflexivity.
    - simpl. lia.
    - reflexivity.
    - repeat constructor; by vm_compute.
    - by vm_compute. }
  reflexivity.
Defined.

Lemma malformed_request_line_gets_400_witness :
  run MAXLINE_csapp MAXBUF_csapp post_x_1_2 init_web_cache
  = Done (init_web_cache,
          [ClientWrite
             (list_ascii_of_string
                ("HTTP/1.0 400 Bad Request" +:+ crlf +:+
                 "Content-Type: text/html" +:+ crlf +:+
                 "Content-Length: 172" +:+ crlf +:+ crlf));
           ClientWrite (list_ascii_of_string body_400);
           Close 4]).
Proof.
  apply (malformed_request_line_gets_400 MAXLINE_csapp MAXBUF_csapp
           post_x_1_2).
  - split; apply Nat.leb_le; by vm_compute.
  - right. split; [apply Nat.ltb_lt; by vm_compute|].
    right. left. split; discriminate.
Defined.

Lemma request_without_target_gets_400_witness :
  let conn := with_target (get_x []) (Some "80") None (Some "http://h:80/x") in
  run MAXLINE_csapp MAXBUF_csapp conn init_web_cache
  = Done (init_web_cache,
          [ClientWrite
             (list_ascii_of_string
                ("HTTP/1.0 400 Bad Request" +:+ crlf +:+
                 "Content-Type: text/html" +:+ crlf +:+
                 "Content-Length: 172" +:+ crlf +:+ crlf));
           ClientWrite (list_ascii_of_string body_400);
           Close 4]).
Proof.
  intros conn.
  eapply (request_without_target_gets_400 MAXLINE_csapp MAXBUF_csapp conn).
  - split; apply Nat.leb_le; by vm_compute.
  - vm_compute. reflexivity.
  - right. left. reflexivity.
Defined.


End PathWitnesses.

Section TwoConnections.
Import Cache Proxy.

(** X18 (the second request).  A first connection asks for a URI that is
    not resident and is answered by the origin with one chunk of at most
    MAX_OBJECT_SIZE bytes, with every malloc successful.  A second
    connection that asks for the same URI afterwards is written these
    bytes from the cache and closed, and the origin is not connected
    to. *)
Theorem second_request_is_served_from_cache
    MAXLINE MAXBUF conn1 conn2 c c1 tr1
    buffer1 w1 port1 host1 buffer2 w2 port2 host2 uri body :
  read_request MAXLINE MAXBUF conn1 (mem_buffer conn1)
    {| cache := c; trace := [] |} = Done ((false, buffer1), w1) ->
  cl_port conn1 = Some port1 -> cl_host conn1 = Some host1 ->
  cl_uri conn1 = Some uri ->
  uri ∉ resident_keys c -> 0 <= LRU c < INT_MAX - 1 ->
  0 <= clientfd conn1 -> or_write_ok conn1 = true ->
  or_chunks conn1 = [body] ->
  0 < Z.of_nat (length body) <= MAX_OBJECT_SIZE ->
  mem_mallocs conn1 = mallocs_ok ->
  run MAXLINE MAXBUF conn1 c = Done (c1, tr1) ->
  read_request MAXLINE MAXBUF conn2 (mem_buffer conn2)
    {| cache := c1; trace := [] |} = Done ((false, buffer2), w2) ->
  cl_port conn2 = Some port2 -> cl_host conn2 = Some host2 ->
  cl_uri conn2 = Some uri ->
  exists c2,
    run MAXLINE MAXBUF conn2 c1
    = Done (c2, [CacheLookup uri; ClientWrite body]
                ++ closes (connfd conn2) (-1)).
Proof.
  intros Hread1 Hport1 Hhost1 Huri1 Hnot Hlru Hfd Hok Hchunks Hbody Hm Hrun
    Hread2 Hport2 Hhost2 Huri2.
  pose proof (serve_cache_miss uri c (get_obj_with_key_absent _ _ Hnot))
    as Hmiss.
  rewrite (run_relayed _ _ _ _ _ _ _ _ _ _ _ Hread1 Hport1 Hhost1 Huri1
             (Hmiss ltac:(lia)) Hfd Hok) in Hrun; rewrite Hchunks in *.
  - simpl in Hrun. rewrite app_nil_r in Hrun.
    destruct (Z.leb_spec (Z.of_nat (length body)) MAX_OBJECT_SIZE); [|lia].
    bind_inv Hrun as Hadd. destruct a as [r c']. injection Hrun as -> _.
    rewrite Hm in Hadd.
    destruct (serve_after_add uri _ _
                {| start := start c; size := size c; LRU := LRU c + 1 |}
                _ _ Hnot Hadd) as [c2 Hhit].
    { apply add_to_cache_Done in Hadd
        as [(_ & -> & _)|[(_ & -> & _)|(_ & _ & _ & kept & _ & _ & -> & _)]];
        simpl; lia. }
    rewrite Nat2Z.id, load_store in Hhit. exists c2.
    by eapply run_hit.
  - repeat constructor; simpl; lia.
  - simpl. rewrite app_nil_r. unfold INT_MAX, MAX_OBJECT_SIZE in *. lia.
Qed.

Lemma second_request_is_served_from_cache_witness :
  let hello := list_ascii_of_string "hello" in
  exists c1 tr1 c2,
    run MAXLINE_csapp MAXBUF_csapp (get_x [hello]) init_web_cache
    = Done (c1, tr1) /\
    run MAXLINE_csapp MAXBUF_csapp (with_origin (get_x []) (-1) false) c1
    = Done (c2, [CacheLookup "http://h:80/x"; ClientWrite hello; Close 4]).
Proof.
  intros hello.
  assert (exists c1 tr1,
            run MAXLINE_csapp MAXBUF_csapp (get_x [hello]) init_web_cache
            = Done (c1, tr1)) as (c1 & tr1 & Hrun).
  { eexists _, _. vm_compute. reflexivity. }
  assert (exists c2,
            run MAXLINE_csapp MAXBUF_csapp
              (with_origin (get_x []) (-1) false) c1
            = Done (c2, [CacheLookup "http://h:80/x"; ClientWrite hello;
                         Close 4])) as [c2 Hc2].
  { eapply (second_request_is_served_from_cache MAXLINE_csapp MAXBUF_csapp
              (get_x [hello]) (with_origin (get_x []) (-1) false)
              init_web_cache c1 tr1 _ _ "80" "h" _ _ "80" "h"
              "http://h:80/x" hello); [| | | | | | | | | | |exact Hrun| | | |].
    - vm_compute. reflexivity.
    - reflexivity.
    - reflexivity.
    - reflexivity.
    - apply not_elem_of_nil.
    - unfold INT_MAX. simpl. lia.
    - simpl. lia.
    - reflexivity.
    - reflexivity.
    - unfold MAX_OBJECT_SIZE. simpl. lia.
    - reflexivity.
    - vm_compute. reflexivity.
    - reflexivity.
    - reflexivity.
    - reflexivity. }
  exists c1, tr1, c2. split; [exact Hrun|exact Hc2].
Defined.

End TwoConnections.

(** ** The request for the origin *)

Section Forwarded.
Import Proxy.

Variables MAXLINE MAXBUF : nat.
Variable conn : connection.

Lemma load_lookup (a : array) (n i : nat) :
  (i < n)%nat -> load a n !! i = Some (a i).
Proof.
  intros Hi. unfold load. by rewrite list_lookup_fmap, lookup_seq_lt.
Qed.

Lemma list_ascii_of_string_app (s1 s2 : string) :
  list_ascii_of_string (s1 +:+ s2)
  = list_ascii_of_string s1 ++ list_ascii_of_string s2.
Proof. induction s1 as [|x s1 IH]; simpl; [done|by rewrite IH]. Qed.

Lemma cstring_app (s1 s2 : string) :
  cstring s1 -> cstring s2 -> cstring (s1 +:+ s2).
Proof.
  unfold cstring. rewrite list_ascii_of_string_app, elem_of_app. tauto.
Qed.

Lemma holds_cstring_lookup (a : array) bs (i : nat) :
  holds_cstring a bs -> (i < length bs)%nat -> a i <> NUL.
Proof.
  intros (Hload & _ & Hnul) Hi Heq. apply Hnul.
  apply list_elem_of_lookup. exists i.
  by rewrite <- Hload at 1; rewrite load_lookup, Heq.
Qed.

Lemma strlen_from_Some (a : array) (i fuel n : nat) :
  strlen_from a i fuel = Some n ->
  (i <= n)%nat /\ a n = NUL /\
  forall j : nat, (i <= j < n)%nat -> a j <> NUL.
Proof.
  revert i. induction fuel as [|fuel IH]; intros i; simpl; [done|].
  destruct (Ascii.eqb_spec (a i) NUL) as [Heq|Hne].
  - intros [= <-]. split_and!; [done|done|]. intros j. lia.
  - intros (Hle & Hn & Hfirst)%IH. split_and!; [lia|done|].
    intros j Hj. destruct (decide (j = i)) as [->|]; [done|].
    apply Hfirst. lia.
Qed.

(** [strlen] of an array that holds a C string is its length. *)
Lemma strlen_holds cap (a : array) bs (n : nat) :
  holds_cstring a bs -> strlen cap a = Done n -> n = length bs.
Proof.
  intros Hholds H. unfold strlen in H.
  destruct (strlen_from a 0 cap) as [k|] eqn:Hk; [|done].
  injection H as ->. apply strlen_from_Some in Hk as (_ & Hn & Hfirst).
  destruct (Nat.lt_trichotomy n (length bs)) as [Hlt|[->|Hgt]]; [|done|].
  - by destruct (holds_cstring_lookup _ _ _ Hholds Hlt).
  - destruct Hholds as (_ & Hnul & _). destruct (Hfirst (length bs)); [lia|done].
Qed.

(** Writing a C string behind the characters [bs]. *)
Lemma put_cstr_holds cap (a : array) bs src a' :
  load a (length bs) = bs -> NUL ∉ bs -> NUL ∉ src ->
  put_cstr cap a (length bs) src = Done a' ->
  holds_cstring a' (bs ++ src) /\ (length (bs ++ src) < cap)%nat.
Proof.
  intros Hload Hbs Hsrc H. unfold put_cstr in H.
  destruct (Nat.leb_spec (length bs + length src + 1) cap); [|done].
  split; [|rewrite length_app; lia].
  injection H as <-. unfold holds_cstring.
  assert (forall i : nat,
            store a (length bs) (src ++ [NUL]) i
            = if decide (i < length bs)%nat then a i
              else if decide (i < length bs + length src + 1)%nat
                   then nth (i - length bs) (src ++ [NUL]) zero
                   else a i) as Hstore.
  { intros i. unfold store. rewrite length_app. simpl.
    destruct (Nat.leb_spec (length bs) i), (Nat.ltb_spec i (length bs + (length src + 1)));
      repeat case_decide; simpl; try done; lia. }
  rewrite length_app. split_and!.
  - apply list_eq. intros i.
    destruct (decide (i < length bs + length src)%nat) as [Hi|Hi].
    + rewrite load_lookup, Hstore by done.
      destruct (decide (i < length bs)%nat) as [Hlt|Hge].
      * rewrite lookup_app_l by done. rewrite <- Hload at 1.
        by rewrite load_lookup.
      * rewrite decide_True by lia.
        rewrite lookup_app_r by lia.
        destruct (lookup_lt_is_Some_2 src (i - length bs)) as [x Hx]; [lia|].
        rewrite Hx. f_equal. apply nth_lookup_Some.
        by apply lookup_app_l_Some.
    + rewrite !lookup_ge_None_2; [done| |].
      * rewrite length_app. lia.
      * rewrite length_load. lia.
  - rewrite Hstore, decide_False, decide_True by lia.
    apply nth_lookup_Some. rewrite lookup_app_r by lia.
    by replace (length bs + length src - length bs)%nat
      with (length src) by lia; rewrite Nat.sub_diag.
  - rewrite elem_of_app. tauto.
Qed.

Lemma strncat_holds cap (a : array) bs (src : string) (n : nat) a' :
  holds_cstring a bs -> cstring src ->
  strncat cap a src n = Done a' ->
  holds_cstring a' (bs ++ take n (list_ascii_of_string src)) /\
  (length (bs ++ take n (list_ascii_of_string src)) < cap)%nat.
Proof.
  intros Hholds Hsrc H. unfold strncat in H. bind_inv H as Hlen.
  apply (strlen_holds _ _ _ _ Hholds) in Hlen as ->.
  destruct Hholds as (Hload & _ & Hbs).
  eapply put_cstr_holds; try done.
  intros Hin. apply Hsrc. eapply elem_of_sublist; [exact Hin|].
  apply sublist_take.
Qed.

(** The same when [n] is not below the length of the source. *)
Lemma strncat_whole cap (a : array) bs (src : string) (n : nat) a' :
  holds_cstring a bs -> cstring src -> (String.length src <= n)%nat ->
  strncat cap a src n = Done a' ->
  holds_cstring a' (bs ++ list_ascii_of_string src) /\
  (length (bs ++ list_ascii_of_string src) < cap)%nat.
Proof.
  intros Hholds Hsrc Hn H.
  rewrite <- (take_ge (list_ascii_of_string src) n)
    by by rewrite length_list_ascii_of_string.
  by eapply strncat_holds.
Qed.

Lemma into_buf_Done (s buf : string) :
  into_buf MAXLINE s = Done buf ->
  buf = s /\ (String.length s < MAXLINE)%nat.
Proof.
  unfold into_buf. destruct (Nat.leb_spec (String.length s + 1) MAXLINE);
    [|done].
  intros [= <-]. split; [done|lia].
Qed.

Lemma cstring_literals :
  cstring ("User-Agent: " +:+ header_user_agent +:+ crlf) /\
  cstring ("Connection: close" +:+ crlf) /\
  cstring ("Proxy-Connection: close" +:+ crlf) /\
  cstring crlf /\ cstring "Host: " /\ cstring ":" /\
  cstring "GET " /\ cstring (" HTTP/1.0" +:+ crlf).
Proof.
  unfold cstring. split_and!; apply (bool_decide_unpack _); by vm_compute.
Qed.

Lemma cstring_host_line : parsed_cstrings conn -> cstring (host_line conn).
Proof.
  intros (_ & Hhost & Hport & _). unfold host_line.
  destruct cstring_literals as (_ & _ & _ & Hcrlf & Hh & Hc & _).
  destruct (cl_host_header conn); [apply not_elem_of_nil|].
  destruct (cl_host0 conn) as [host|]; [|apply not_elem_of_nil].
  destruct (cl_port0 conn) as [port|]; [|apply not_elem_of_nil].
  repeat apply cstring_app; auto.
Qed.

(** The four headers of the proxy behind what the array holds. *)
Lemma finish_request_holds fBuf bs w fBuf' w' :
  holds_cstring fBuf bs -> parsed_cstrings conn ->
  finish_request MAXLINE MAXBUF conn fBuf w = Done ((false, fBuf'), w') ->
  let tail :=
    list_ascii_of_string (host_line conn)
    ++ list_ascii_of_string ("User-Agent: " +:+ header_user_agent +:+ crlf)
    ++ list_ascii_of_string ("Connection: close" +:+ crlf)
    ++ list_ascii_of_string ("Proxy-Connection: close" +:+ crlf)
    ++ list_ascii_of_string crlf in
  holds_cstring fBuf' (bs ++ tail) /\ (length (bs ++ tail) < MAXBUF)%nat.
Proof.
  intros Hholds Hcs H tail.
  destruct cstring_literals as (Hua & Hco & Hpc & Hcrlf & _).
  assert (forall fBuf bs,
            holds_cstring fBuf bs ->
            (buf ← lift (into_buf MAXLINE
                           ("User-Agent: " +:+ header_user_agent +:+ crlf));
             fBuf ← lift (strncat MAXBUF fBuf buf MAXLINE);
             fBuf ← lift (strncat MAXBUF fBuf ("Connection: close" +:+ crlf)
                            MAXLINE);
             fBuf ← lift (strncat MAXBUF fBuf
                            ("Proxy-Connection: close" +:+ crlf) MAXLINE);
             fBuf ← lift (strncat MAXBUF fBuf crlf MAXLINE);
             mret (false, fBuf)) w = Done ((false, fBuf'), w') ->
            let rest :=
              list_ascii_of_string
                ("User-Agent: " +:+ header_user_agent +:+ crlf)
              ++ list_ascii_of_string ("Connection: close" +:+ crlf)
              ++ list_ascii_of_string ("Proxy-Connection: close" +:+ crlf)
              ++ list_ascii_of_string crlf in
            holds_cstring fBuf' (bs ++ rest) /\
            (length (bs ++ rest) < MAXBUF)%nat) as Hrest.
  { clear Hholds H. intros f0 b0 Hholds H rest.
    apply io_bind_inv in H as (buf & w0 & Hbuf & H).
    apply lift_inv in Hbuf as [Hbuf ->].
    apply into_buf_Done in Hbuf as [-> Hlen].
    assert (String.length ("Connection: close" +:+ crlf) <= MAXLINE /\
            String.length ("Proxy-Connection: close" +:+ crlf) <= MAXLINE /\
            String.length crlf <= MAXLINE)%nat as (Hl1 & Hl2 & Hl3).
    { split_and!; (etrans; [|apply Nat.lt_le_incl; exact Hlen]);
        apply Nat.leb_le; by vm_compute. }
    apply io_bind_inv in H as (f1 & w1 & H1 & H).
    apply lift_inv in H1 as [H1 ->].
    apply (strncat_whole _ _ _ _ _ _ Hholds Hua) in H1 as [H1 _]; [|lia].
    apply io_bind_inv in H as (f2 & w2 & H2 & H).
    apply lift_inv in H2 as [H2 ->].
    apply (strncat_whole _ _ _ _ _ _ H1 Hco Hl1) in H2 as [H2 _].
    apply io_bind_inv in H as (f3 & w3 & H3 & H).
    apply lift_inv in H3 as [H3 ->].
    apply (strncat_whole _ _ _ _ _ _ H2 Hpc Hl2) in H3 as [H3 _].
    apply io_bind_inv in H as (f4 & w4 & H4 & H).
    apply lift_inv in H4 as [H4 ->].
    apply (strncat_whole _ _ _ _ _ _ H3 Hcrlf Hl3) in H4 as [H4 Hroom].
    injection H as <- _. unfold rest. by rewrite !app_assoc. }
  pose proof (cstring_host_line Hcs) as Hline.
  unfold finish_request in H. unfold tail. unfold host_line in *.
  destruct (cl_host_header conn).
  { change (list_ascii_of_string "") with (@nil ascii). rewrite app_nil_l.
    eapply Hrest; [exact Hholds|exact H]. }
  destruct (cl_host0 conn) as [host|]; [|discriminate H].
  destruct (cl_port0 conn) as [port|]; [|discriminate H].
  apply io_bind_inv in H as (buf & w0 & Hbuf & H).
  apply lift_inv in Hbuf as [Hbuf ->].
  apply into_buf_Done in Hbuf as [-> Hlen].
  apply io_bind_inv in H as (f1 & w1 & H1 & H).
  apply lift_inv in H1 as [H1 ->].
  apply (strncat_whole _ _ _ _ _ _ Hholds Hline) in H1 as [H1 _]; [|lia].
  apply (Hrest _ _ H1) in H. by rewrite <- !app_assoc in H.
Qed.

(** The loop of [read_request]: the headers handed on, in their order,
    and then the headers of the proxy. *)
Lemma read_headers_holds lines fBuf bs w fBuf' w' :
  parsed_cstrings conn ->
  Forall (fun l => cstring (hl_line l)) lines ->
  holds_cstring fBuf bs ->
  read_headers MAXLINE MAXBUF conn lines fBuf w = Done ((false, fBuf'), w') ->
  let rest :=
    concat ((fun l => list_ascii_of_string (hl_line l))
              <$> filter (fun l => forwarded l = true)
                    (before_empty_line lines))
    ++ list_ascii_of_string (host_line conn)
    ++ list_ascii_of_string ("User-Agent: " +:+ header_user_agent +:+ crlf)
    ++ list_ascii_of_string ("Connection: close" +:+ crlf)
    ++ list_ascii_of_string ("Proxy-Connection: close" +:+ crlf)
    ++ list_ascii_of_string crlf in
  holds_cstring fBuf' (bs ++ rest) /\ (length (bs ++ rest) < MAXBUF)%nat.
Proof.
  intros Hcs Hall. revert fBuf bs.
  induction Hall as [|l lines Hl _ IH]; intros fBuf bs Hholds H;
    cbn [read_headers] in H; [discriminate H|].
  cbv zeta in H.
  destruct (String.length (hl_line l) =? 0)%nat; [discriminate H|].
  apply io_bind_inv in H as (buf & w0 & Hbuf & H).
  apply lift_inv in Hbuf as [Hbuf ->].
  apply into_buf_Done in Hbuf as [-> Hlen].
  cbn [before_empty_line].
  destruct (String.eqb (hl_line l) crlf).
  { rewrite filter_nil. cbn [fmap list_fmap concat app].
    by eapply finish_request_holds. }
  assert (forwarded l = false ->
          read_headers MAXLINE MAXBUF conn lines fBuf w
          = Done ((false, fBuf'), w') ->
          let rest :=
            concat ((fun l => list_ascii_of_string (hl_line l))
                      <$> filter (fun l => forwarded l = true)
                            (l :: before_empty_line lines))
            ++ list_ascii_of_string (host_line conn)
            ++ list_ascii_of_string
                 ("User-Agent: " +:+ header_user_agent +:+ crlf)
            ++ list_ascii_of_string ("Connection: close" +:+ crlf)
            ++ list_ascii_of_string ("Proxy-Connection: close" +:+ crlf)
            ++ list_ascii_of_string crlf in
          holds_cstring fBuf' (bs ++ rest) /\
          (length (bs ++ rest) < MAXBUF)%nat) as Hskip.
  { intros Hf Hrun. rewrite filter_cons_False by by rewrite Hf.
    by eapply IH. }
  unfold forwarded in Hskip.
  destruct (hl_state l) eqn:Hstate; try discriminate H;
    try (by apply Hskip).
  destruct (hl_name l) as [name|] eqn:Hname; [|by apply Hskip].
  destruct (forwarded_header name) eqn:Hfwd; [|by apply Hskip].
  apply io_bind_inv in H as (f1 & w1 & H1 & H).
  apply lift_inv in H1 as [H1 ->].
  apply (strncat_whole _ _ _ _ _ _ Hholds Hl) in H1 as [H1 _]; [|done].
  apply (IH _ _ H1) in H.
  rewrite filter_cons_True by (unfold forwarded; by rewrite Hstate, Hname).
  cbn [fmap list_fmap concat]. by rewrite <- !app_assoc in *.
Qed.

(** [snprintf] of a C string leaves the first [n - 1] characters of it. *)
Lemma snprintf_holds (b : array) (s : string) (len : Z) b' :
  (0 < MAXLINE)%nat -> cstring s ->
  snprintf MAXBUF b MAXLINE s = Done (len, b') ->
  holds_cstring b' (take (MAXLINE - 1) (list_ascii_of_string s)).
Proof.
  intros Hline Hs H. unfold snprintf in H.
  destruct (int_op (Z.of_nat (String.length s))) as [l|]; [|discriminate H].
  rewrite result_bind_Done in H.
  destruct MAXLINE as [|n']; [lia|].
  destruct (put_cstr MAXBUF b 0 (take n' (list_ascii_of_string s)))
    as [a|] eqn:Hput; [|discriminate H].
  rewrite result_bind_Done in H. injection H as _ ->.
  rewrite Nat.sub_succ, Nat.sub_0_r.
  apply (put_cstr_holds MAXBUF b [] (take n' (list_ascii_of_string s)) b'
           eq_refl (not_elem_of_nil _)); [|exact Hput].
  intros Hin. apply Hs. eapply elem_of_sublist; [exact Hin|].
  apply sublist_take.
Qed.

(** A request line that is accepted is a GET with a path, and the array
    holds the request line for the origin. *)
Lemma read_requestline_accepted buffer w n buffer' w' :
  parsed_cstrings conn -> (0 < MAXLINE)%nat ->
  read_requestline MAXLINE MAXBUF conn buffer w = Done ((n, buffer'), w') ->
  0 < n ->
  exists path,
    cl_path conn = Some path /\
    holds_cstring buffer'
      (take (MAXLINE - 1)
         (list_ascii_of_string ("GET " +:+ path +:+ " HTTP/1.0" +:+ crlf))).
Proof.
  intros (Hpath & _) Hline. unfold read_requestline. intros H Hn.
  destruct (cl_reqline conn) as [line|]; [|injection H as <- _ _; lia].
  destruct (String.length line =? 0)%nat; [injection H as <- _ _; lia|].
  apply io_bind_inv in H as (b & ? & [_ ->]%lift_inv & H).
  destruct (cl_reqstate conn); try (injection H as <- _ _; lia).
  destruct (cl_scan conn) as [[[method uri] version]|];
    [|injection H as <- _ _; lia].
  destruct (negb (Ascii.eqb version "0") && negb (Ascii.eqb version "1"));
    [injection H as <- _ _; lia|].
  destruct (String.eqb_spec method "GET") as [->|_]; cbn [negb] in H.
  - destruct (cl_path conn) as [mPath|]; [|injection H as <- _ _; lia].
    exists mPath. split; [done|].
    apply lift_inv in H as [H _].
    destruct cstring_literals as (_ & _ & _ & _ & _ & _ & Hget & Hhttp).
    apply (snprintf_holds b ("GET " +:+ mPath +:+ " HTTP/1.0" +:+ crlf)
             n buffer' Hline); [|exact H].
    apply (cstring_app "GET "); [done|].
    apply cstring_app; [by apply Hpath|done].
  - apply io_bind_inv in H as ([] & w0 & _ & H). injection H as <- _ _. lia.
Qed.

(** The loop of [read_request] gets to the headers of the proxy only if
    MAXLINE has room for them. *)
Lemma read_headers_room lines fBuf w fBuf' w' :
  read_headers MAXLINE MAXBUF conn lines fBuf w = Done ((false, fBuf'), w') ->
  (0 < MAXLINE)%nat.
Proof.
  revert fBuf w. induction lines as [|l lines IH]; intros fBuf w H;
    cbn [read_headers] in H; [discriminate H|].
  cbv zeta in H.
  destruct (String.length (hl_line l) =? 0)%nat; [discriminate H|].
  apply io_bind_inv in H as (buf & w0 & Hbuf & H).
  apply lift_inv in Hbuf as [Hbuf ->].
  apply into_buf_Done in Hbuf as [-> Hlen]. lia.
Qed.

(** What the array holds when [read_request] accepts the request. *)
Lemma read_request_holds fBuf w buffer w' :
  parsed_cstrings conn ->
  read_request MAXLINE MAXBUF conn fBuf w = Done ((false, buffer), w') ->
  exists path,
    cl_path conn = Some path /\
    holds_cstring buffer (rewritten_request MAXLINE conn path) /\
    (length (rewritten_request MAXLINE conn path) < MAXBUF)%nat.
Proof.
  intros Hcs H. unfold read_request in H.
  apply io_bind_inv in H as ([n b] & w0 & Hline & H).
  destruct (Z.leb_spec n 0) as [|Hn]; [discriminate H|].
  pose proof (read_headers_room _ _ _ _ _ H) as Hroom.
  destruct (read_requestline_accepted _ _ _ _ _ Hcs Hroom Hline Hn)
    as (path & Hpath & Hholds).
  exists path. split; [done|]. unfold rewritten_request.
  eapply read_headers_holds; try done. by destruct Hcs as (_ & _ & _ & ?).
Qed.

Lemma only_fetch_writes P uri buffer fd :
  (forall b, P (ClientWrite b)) -> P (OriginWrite (load buffer MAXBUF)) ->
  (forall u b sz, P (CacheAdmit u b sz)) -> (forall d, P (Close d)) ->
  only P (fetch MAXLINE MAXBUF conn uri buffer fd).
Proof.
  intros Hc Ho Ha Hd. unfold fetch. apply only_bind.
  { apply only_bind; [by apply only_emit|intros _; apply only_ret]. }
  intros sent. destruct (negb sent).
  { apply only_bind; [by apply only_clienterror|intros _].
    by apply only_cleanup. }
  apply only_bind; [by apply only_relay|]. intros [[b' t'] f'].
  apply only_bind; [|intros _; by apply only_cleanup].
  destruct f'; [|apply only_ret].
  apply only_bind; [by apply only_add_to_cache|intros _; apply only_ret].
Qed.

(** X19 (the request for the origin).  When the strings the reader and
    the parser deliver are C strings, what is written to the origin
    begins with the rewritten request and a NUL: the line GET path
    HTTP/1.0, the header lines of the client except Connection,
    Proxy-Connection and User-Agent, in the order they came, a Host
    header made of the host and the port if the client sent none, the
    User-Agent, Connection: close and Proxy-Connection: close headers of
    the proxy and the empty line. *)
Theorem origin_is_sent_the_rewritten_request c c' tr bytes :
  parsed_cstrings conn ->
  run MAXLINE MAXBUF conn c = Done (c', tr) -> OriginWrite bytes ∈ tr ->
  exists path,
    cl_path conn = Some path /\
    let request := rewritten_request MAXLINE conn path in
    take (length request) bytes = request /\
    bytes !! length request = Some NUL.
Proof.
  intros Hcs Hrun Hin.
  set (P := fun ev =>
         match ev with
         | OriginWrite bytes =>
             exists buffer w w',
               read_request MAXLINE MAXBUF conn (mem_buffer conn) w
               = Done ((false, buffer), w') /\
               bytes = load buffer MAXBUF
         | _ => True
         end).
  assert (only P (threadRoutine MAXLINE MAXBUF conn)) as Honly.
  { unfold threadRoutine. intros w a w'' H.
    apply io_bind_inv in H as ([refused buffer] & w1 & Hread & H).
    pose proof Hread as Hev.
    apply (only_read_request _ _ _ P) in Hev as (evs1 & Htr1 & Hevs1);
      [|done].
    assert (forall m : io unit,
              only P m -> m w1 = Done (a, w'') ->
              exists evs, trace w'' = trace w ++ evs /\ Forall P evs)
      as Hthen.
    { intros m Hm (evs2 & Htr2 & Hevs2)%Hm. exists (evs1 ++ evs2).
      rewrite Htr2, Htr1, <- app_assoc. split; [done|by apply Forall_app]. }
    assert (only P (bad_request MAXLINE MAXBUF conn
                    ≫= fun _ => cleanup (connfd conn) (-1))) as Hbad.
    { apply only_bind; [by apply only_clienterror|intros _].
      by apply only_cleanup. }
    destruct refused; [by eapply Hthen|].
    destruct (cl_port conn) as [mPort|]; [|by eapply Hthen].
    destruct (cl_host conn) as [mHost|]; [|by eapply Hthen].
    destruct (cl_uri conn) as [mURI|]; [|by eapply Hthen].
    eapply Hthen; [|exact H].
    apply only_bind; [by apply only_serve_cache|].
    intros served. destruct served; [by apply only_cleanup|].
    apply only_bind.
    { apply only_bind; [by apply only_emit|intros _; apply only_ret]. }
    intros fd. destruct (fd <? 0); [by apply only_cleanup|].
    apply only_fetch_writes; try done. simpl. by eexists _, _, _. }
  unfold run in Hrun. bind_inv Hrun as Hthread. destruct a as [[] w'].
  injection Hrun as <- <-.
  apply Honly in Hthread as (evs & Htr & Hevs). simpl in Htr.
  rewrite Htr in Hin. rewrite Forall_forall in Hevs.
  destruct (Hevs _ Hin) as (buffer & w & w1 & Hread & ->).
  destruct (read_request_holds _ _ _ _ Hcs Hread)
    as (path & Hpath & (Hload & Hnul & _) & Hlen).
  exists path. split; [done|]. cbv zeta. split.
  - rewrite <- Hload at 2. unfold load.
    rewrite <- fmap_take. f_equal. by rewrite take_seq, Nat.min_l by lia.
  - by rewrite load_lookup, Hnul.
Qed.

End Forwarded.

Section ForwardedWitness.
Import Cache Proxy.

Lemma origin_is_sent_the_rewritten_request_witness :
  let request :=
    list_ascii_of_string
      ("GET /x HTTP/1.0" +:+ crlf +:+
       "Accept: */*" +:+ crlf +:+
       "Host: h" +:+ crlf +:+
       "User-Agent: " +:+ header_user_agent +:+ crlf +:+
       "Connection: close" +:+ crlf +:+
       "Proxy-Connection: close" +:+ crlf +:+ crlf) in
  exists c' tr bytes,
    run MAXLINE_csapp MAXBUF_csapp get_x_with_headers init_web_cache
    = Done (c', tr) /\
    OriginWrite bytes ∈ tr /\
    take (length request) bytes = request /\
    bytes !! length request = Some NUL.
Proof.
  intros request.
  assert (exists c' tr bytes,
            run MAXLINE_csapp MAXBUF_csapp get_x_with_headers init_web_cache
            = Done (c', tr) /\ OriginWrite bytes ∈ tr)
    as (c' & tr & bytes & Hrun & Hin).
  { eexists _, _, _. split; [vm_compute; reflexivity|].
    do 2 apply list_elem_of_further. apply list_elem_of_here. }
  assert (parsed_cstrings get_x_with_headers) as Hcs.
  { unfold parsed_cstrings, cstring. split_and!.
    - intros ? [= <-]. apply (bool_decide_unpack _). by vm_compute.
    - intros ? [= <-]. apply (bool_decide_unpack _). by vm_compute.
    - intros ? [= <-]. apply (bool_decide_unpack _). by vm_compute.
    - repeat constructor; apply (bool_decide_unpack _); by vm_compute. }
  destruct (origin_is_sent_the_rewritten_request MAXLINE_csapp MAXBUF_csapp
              get_x_with_headers init_web_cache c' tr bytes Hcs Hrun Hin)
    as (path & Hpath & Htake & Hnul).
  injection Hpath as <-.
  assert (rewritten_request MAXLINE_csapp get_x_with_headers "/x" = request)
    as Hreq by (vm_compute; reflexivity).
  rewrite Hreq in Htake, Hnul.
  exists c', tr, bytes. split_and!; [exact Hrun|exact Hin|exact Htake|exact Hnul].
Defined.

End ForwardedWitness.
